(** * namespace-proxy: the tenant label enforcer, the router and the proxy handler

    A shallow embedding of [enforcer_promql.go], [routes.go] and the
    handler of [main.go], with the properties of the specification
    stated over it.

    Go values are modelled as follows.
    - [string]: a Go string is a byte sequence, here [string] (a list of
      [ascii], one per byte).
    - [map[string]string], [map[string]bool]: [gmap string _]; reading
      a missing key yields the zero value, the two-result form
      [_, ok := m[k]] is [is_Some (m !! k)].
    - [error]: the type [error] below; a function returning
      [(T, error)] returns an [outcome T].
    - a run-time panic (index or slice out of range, nil dereference)
      is the [Panic] outcome. *)

From Stdlib Require Import Ascii String.
From stdpp Require Import base option list strings gmap fin_maps.

(** ** The [strings] package, as far as the sources use it *)

Module GoStrings.

(** [strings.Split(s, sep)] for a one-byte separator: all sources call
    it with ["|"]. The result is never empty: a string without the
    separator is returned whole, the empty string yields one empty
    field. *)
Fixpoint Split (s : string) (sep : ascii) : list string :=
  match s with
  | EmptyString => [EmptyString]
  | String c s' =>
      if Ascii.eqb c sep then EmptyString :: Split s' sep
      else match Split s' sep with
           | field :: fields => String c field :: fields
           | [] => [String c EmptyString]
           end
  end.

(** [strings.Join(elems, sep)]. *)
Fixpoint Join (elems : list string) (sep : string) : string :=
  match elems with
  | [] => EmptyString
  | [e] => e
  | e :: rest => e +:+ sep +:+ Join rest sep
  end.

(** [strings.Contains(s, string(c))]. *)
Fixpoint ContainsByte (s : string) (c : ascii) : bool :=
  match s with
  | EmptyString => false
  | String d s' => Ascii.eqb d c || ContainsByte s' c
  end.

(** [strings.Index(s, string(c))], [-1] when absent. *)
Fixpoint IndexByte (s : string) (c : ascii) : Z :=
  match s with
  | EmptyString => (-1)%Z
  | String d s' =>
      if Ascii.eqb d c then 0%Z
      else let i := IndexByte s' c in
           if (i <? 0)%Z then (-1)%Z else (i + 1)%Z
  end.

(** The slice expressions [s[:n]] and [s[n:]]; [None] stands for the
    run-time panic when [n] exceeds [len(s)]. *)
Fixpoint sliceTo (s : string) (n : nat) : option string :=
  match n, s with
  | O, _ => Some EmptyString
  | S n', String c s' => String c <$> sliceTo s' n'
  | S _, EmptyString => None
  end.

Fixpoint sliceFrom (s : string) (n : nat) : option string :=
  match n, s with
  | O, _ => Some s
  | S n', String _ s' => sliceFrom s' n'
  | S _, EmptyString => None
  end.

Definition pipe : ascii := "|"%char.

(** [strings.ToLower] on the bytes [A] to [Z]; other bytes are kept. *)
Definition lowerByte (c : ascii) : ascii :=
  let n := nat_of_ascii c in
  if (65 <=? n) && (n <=? 90) then ascii_of_nat (n + 32) else c.

Fixpoint ToLower (s : string) : string :=
  match s with
  | EmptyString => EmptyString
  | String c s' => String (lowerByte c) (ToLower s')
  end.

End GoStrings.

(** ** Label matchers ([model/labels]) *)
Module labels.

Inductive MatchType :=
| MatchEqual
| MatchNotEqual
| MatchRegexp
| MatchNotRegexp.

Record Matcher := {
  Name : string;
  Type_ : MatchType;
  Value : string;
}.

Global Instance MatchType_eq_dec : EqDecision MatchType.
Proof. solve_decision. Defined.

Global Instance Matcher_eq_dec : EqDecision Matcher.
Proof. solve_decision. Defined.

(** The label name that carries the metric name. *)
Definition MetricName : string := "__name__".

End labels.

(** ** Errors and outcomes *)

(** A Go [error] value. [errorString] is what [errors.New] and
    [fmt.Errorf] build, identified by its formatted text;
    [ErrIllegalLabelMatcher] is the sentinel that [injectproxy] wraps
    with the two conflicting matchers. *)
Inductive error :=
| errorString (text : string)
| ErrIllegalLabelMatcher (target injected : labels.Matcher).

Inductive outcome (A : Type) :=
| Ok (a : A)
| Err (e : error)
| Panic (reason : string).
Arguments Ok {A} a.
Arguments Err {A} e.
Arguments Panic {A} reason.

Global Instance outcome_ret : MRet outcome := λ A a, Ok a.
Global Instance outcome_bind : MBind outcome := λ A B f m,
  match m with
  | Ok a => f a
  | Err e => Err e
  | Panic r => Panic r
  end.

(** ** The PromQL syntax tree ([promql/parser])

    The node types of [parser.Expr] with the fields that [Inspect] and
    the label enforcer read. Attributes that neither of them reads
    (grouping labels, vector matching, offsets, positions) are left
    out. *)
Module parser.
Import labels.

Local Unset Elimination Schemes.
Inductive Expr :=
| AggregateExpr (Op : string) (E : Expr) (Param : option Expr)
| BinaryExpr (Op : string) (LHS RHS : Expr)
| Call (Func : string) (Args : list Expr)
| MatrixSelector (VS : Expr) (Range : string)
| SubqueryExpr (E : Expr) (Range : string)
| NumberLiteral (Val : string)
| ParenExpr (E : Expr)
| StringLiteral (Val : string)
| UnaryExpr (Op : string) (E : Expr)
| VectorSelector (Name : string) (LabelMatchers : list Matcher).
Local Set Elimination Schemes.

(** Induction over [Expr] that reaches the arguments of a call and
    the parameter of an aggregation. *)
Section Expr_nested_induction.
Variable P : Expr → Prop.
Hypothesis HAgg : ∀ op e p, P e → (∀ q, p = Some q → P q) → P (AggregateExpr op e p).
Hypothesis HBin : ∀ op l r, P l → P r → P (BinaryExpr op l r).
Hypothesis HCall : ∀ f args, Forall P args → P (Call f args).
Hypothesis HMat : ∀ vs r, P vs → P (MatrixSelector vs r).
Hypothesis HSub : ∀ e r, P e → P (SubqueryExpr e r).
Hypothesis HNum : ∀ v, P (NumberLiteral v).
Hypothesis HPar : ∀ e, P e → P (ParenExpr e).
Hypothesis HStr : ∀ v, P (StringLiteral v).
Hypothesis HUn : ∀ op e, P e → P (UnaryExpr op e).
Hypothesis HVec : ∀ n ms, P (VectorSelector n ms).

Fixpoint Expr_nested_ind (e : Expr) : P e :=
  match e with
  | AggregateExpr op e p =>
      HAgg op e p (Expr_nested_ind e)
        (match p with
         | Some q => λ q' Hq,
             eq_ind q P (Expr_nested_ind q) q' (Some_inj _ _ Hq)
         | None => λ q' Hq, False_ind _ (None_ne_Some _ Hq)
         end)
  | BinaryExpr op l r => HBin op l r (Expr_nested_ind l) (Expr_nested_ind r)
  | Call f args =>
      HCall f args
        ((fix all (es : list Expr) : Forall P es :=
            match es with
            | [] => Forall_nil_2 P
            | a :: rest => Forall_cons_2 P a rest (Expr_nested_ind a) (all rest)
            end) args)
  | MatrixSelector vs r => HMat vs r (Expr_nested_ind vs)
  | SubqueryExpr e r => HSub e r (Expr_nested_ind e)
  | NumberLiteral v => HNum v
  | ParenExpr e => HPar e (Expr_nested_ind e)
  | StringLiteral v => HStr v
  | UnaryExpr op e => HUn op e (Expr_nested_ind e)
  | VectorSelector n ms => HVec n ms
  end.
End Expr_nested_induction.

(** [parser.Children]: the sub-nodes in the order [Walk] visits them. *)
Definition Children (node : Expr) : list Expr :=
  match node with
  | AggregateExpr _ e None => [e]
  | AggregateExpr _ e (Some p) => [e; p]
  | BinaryExpr _ l r => [l; r]
  | Call _ args => args
  | MatrixSelector vs _ => [vs]
  | SubqueryExpr e _ | ParenExpr e | UnaryExpr _ e => [e]
  | NumberLiteral _ | StringLiteral _ | VectorSelector _ _ => []
  end.

(** [parser.Inspect(node, f)]: depth-first, a node before its
    children. The callbacks of this program never return an error, so
    the traversal always completes; what a callback does to the
    variables it closes over is the state [S] threaded through. *)
Fixpoint Inspect {S : Type} (f : Expr → S → S) (node : Expr) (s : S) : S :=
  let s := f node s in
  match node with
  | AggregateExpr _ e p =>
      let s := Inspect f e s in
      match p with Some q => Inspect f q s | None => s end
  | BinaryExpr _ l r => Inspect f r (Inspect f l s)
  | Call _ args =>
      (fix walk (es : list Expr) (s : S) : S :=
         match es with
         | [] => s
         | a :: rest => walk rest (Inspect f a s)
         end) args s
  | MatrixSelector vs _ => Inspect f vs s
  | SubqueryExpr e _ | ParenExpr e | UnaryExpr _ e => Inspect f e s
  | NumberLiteral _ | StringLiteral _ | VectorSelector _ _ => s
  end.

End parser.

(** ** The label enforcer of prom-label-proxy ([injectproxy]) *)
Module injectproxy.
Import labels parser.

(** The sources import the library without naming a release, and the
    releases differ in one step of [EnforceMatchers]: a target whose
    label is enforced, once it has passed the check of
    [errorOnReplace], is always dropped up to v0.6.0; from v0.7.0 on
    it is dropped only when the enforced matcher is an equal matcher,
    and kept otherwise. *)
Inductive Release :=
| DropsTarget
| DropsTargetOfEqual.

Definition drops (release : Release) (matcher : Matcher) : bool :=
  match release with
  | DropsTarget => true
  | DropsTargetOfEqual => bool_decide (Type_ matcher = MatchEqual)
  end.

(** An enforcer, with the release of the library that runs it. *)
Record Enforcer := {
  enforcerRelease : Release;
  labelMatchers : gmap string Matcher;
  errorOnReplace : bool;
}.

(** [NewEnforcer(errorOnReplace, ms...)]: the matchers keyed by their
    label name, a later one replacing an earlier one of that name. *)
Definition NewEnforcer (release : Release) (errorOnReplace : bool) (ms : list Matcher)
  : Enforcer :=
  {| enforcerRelease := release;
     labelMatchers := foldl (λ entries m, <[Name m := m]> entries) ∅ ms;
     errorOnReplace := errorOnReplace |}.

(** The first loop of [EnforceMatchers]: a target whose name is
    enforced is refused when [errorOnReplace] is set and it differs
    from the enforced matcher; else it is dropped or kept, as the
    release has it. The library compares the two by their
    [String()], which for two matchers of one name is equal exactly
    when type and value are. *)
Fixpoint keepTargets (ms : Enforcer) (targets res : list Matcher) : outcome (list Matcher) :=
  match targets with
  | [] => Ok res
  | target :: rest =>
      match labelMatchers ms !! Name target with
      | Some matcher =>
          if errorOnReplace ms && negb (bool_decide (matcher = target))
          then Err (ErrIllegalLabelMatcher target matcher)
          else if drops (enforcerRelease ms) matcher then keepTargets ms rest res
          else keepTargets ms rest (res ++ [target])
      | None => keepTargets ms rest (res ++ [target])
      end
  end.

(** [EnforceMatchers(targets)]: the kept targets followed by every
    enforced matcher. *)
Definition EnforceMatchers (ms : Enforcer) (targets : list Matcher) : outcome (list Matcher) :=
  res ← keepTargets ms targets [];
  Ok (res ++ (map_to_list (labelMatchers ms)).*2).

(** [EnforceNode(node)]. The Go method rewrites the matcher lists in
    place; here the rewritten tree is returned. Of an aggregation
    only the aggregated expression is enforced, and of a matrix
    selector the vector selector it wraps. *)
Fixpoint EnforceNode (ms : Enforcer) (node : Expr) : outcome Expr :=
  match node with
  | AggregateExpr op e p =>
      e' ← EnforceNode ms e; Ok (AggregateExpr op e' p)
  | BinaryExpr op l r =>
      l' ← EnforceNode ms l;
      r' ← EnforceNode ms r;
      Ok (BinaryExpr op l' r')
  | Call f args =>
      args' ← (fix each (es : list Expr) : outcome (list Expr) :=
                 match es with
                 | [] => Ok []
                 | a :: rest =>
                     a' ← EnforceNode ms a;
                     rest' ← each rest;
                     Ok (a' :: rest')
                 end) args;
      Ok (Call f args')
  | SubqueryExpr e r => e' ← EnforceNode ms e; Ok (SubqueryExpr e' r)
  | ParenExpr e => e' ← EnforceNode ms e; Ok (ParenExpr e')
  | UnaryExpr op e => e' ← EnforceNode ms e; Ok (UnaryExpr op e')
  | NumberLiteral _ | StringLiteral _ => Ok node
  | MatrixSelector vs r =>
      match vs with
      | VectorSelector n lm =>
          lm' ← EnforceMatchers ms lm;
          Ok (MatrixSelector (VectorSelector n lm') r)
      | _ => Ok node
      end
  | VectorSelector n lm =>
      lm' ← EnforceMatchers ms lm; Ok (VectorSelector n lm')
  end.

(** The argument loop of the [Call] case, named. *)
Fixpoint EnforceNodes (ms : Enforcer) (es : list Expr) : outcome (list Expr) :=
  match es with
  | [] => Ok []
  | a :: rest =>
      a' ← EnforceNode ms a;
      rest' ← EnforceNodes ms rest;
      Ok (a' :: rest')
  end.

End injectproxy.

(** ** [enforcer_promql.go] *)
Module EnforcerPromql.
Import GoStrings labels parser injectproxy.

Section Enforcer.
(** [Cfg.Proxy.TenantLabel]. *)
Variable TenantLabel : string.
(** [MapKeysToArray]: the keys of a map as a slice, in the order
    the Go run time iterates the map. Its definition is not part of
    these sources; the order is left open. *)
Variable MapKeysToArray : gmap string bool → list string.
(** [parser.ParseExpr] and the [String] method of [parser.Expr]. *)
Variable ParseExpr : string → outcome Expr.
Variable ExprString : Expr → string.
(** The release of prom-label-proxy that the proxy is built with. *)
Variable release : Release.

(** The callback that [extractLabelsAndValues] passes to [Inspect]. *)
Definition collect (node : Expr) (l : gmap string string) : gmap string string :=
  match node with
  | VectorSelector _ ms => foldl (λ l matcher, <[Name matcher := Value matcher]> l) l ms
  | _ => l
  end.

Definition extractLabelsAndValues (expr : Expr) : outcome (gmap string string) :=
  Ok (Inspect collect expr ∅).

(** The loop of [checkLabels] over the fields not yet visited. *)
Fixpoint checkEach (tl : gmap string bool) (qls rest : list string) : bool * list string :=
  match rest with
  | [] => (true, qls)
  | ql :: rest' =>
      match tl !! ql with
      | Some _ => checkEach tl qls rest'
      | None => (false, [ql])
      end
  end.

Definition checkLabels (l : gmap string string) (tl : gmap string bool) : bool * list string :=
  let qls := Split (default EmptyString (l !! TenantLabel)) pipe in
  checkEach tl qls qls.

Definition enforceLabels (l : gmap string string) (tl : gmap string bool) : outcome (list string) :=
  match l !! TenantLabel with
  | Some _ =>
      let '(ok, tenantLabels) := checkLabels l tl in
      if negb ok then
        match tenantLabels !! 0%nat with
        | Some first => Err (errorString ("user not allowed with namespace " +:+ first))
        | None => Panic "index out of range [0] with length 0"
        end
      else Ok tenantLabels
  | None => Ok (MapKeysToArray tl)
  end.

(** The matcher that [createEnforcer] hands to [NewEnforcer]. *)
Definition enforcedMatcher (tenantLabels : list string) : Matcher :=
  {| Name := TenantLabel;
     Type_ := if decide (1 < length tenantLabels) then MatchRegexp else MatchEqual;
     Value := Join tenantLabels (String pipe EmptyString) |}.

Definition createEnforcer (tenantLabels : list string) : Enforcer :=
  NewEnforcer release true [enforcedMatcher tenantLabels].

(** [promqlEnforcer]; the log calls and the clock reading feed the
    log only and are left out. *)
Definition promqlEnforcer (query : string) (tl : gmap string bool) : outcome string :=
  expr ← ParseExpr query;
  l ← extractLabelsAndValues expr;
  tenantLabels ← enforceLabels l tl;
  let le := createEnforcer tenantLabels in
  expr' ← EnforceNode le expr;
  Ok (ExprString expr').

(** What [promqlEnforcer] does to a parsed expression, between
    [ParseExpr] and the final [String]. *)
Definition enforceExpr (expr : Expr) (tl : gmap string bool) : outcome Expr :=
  l ← extractLabelsAndValues expr;
  tenantLabels ← enforceLabels l tl;
  EnforceNode (createEnforcer tenantLabels) expr.

End Enforcer.
End EnforcerPromql.

(** ** What the properties observe of a syntax tree *)
Module Observe.
Import labels parser.

(** The matchers that a traversal by [Inspect] meets, in the order it
    meets them. *)
Definition visited (e : Expr) : list Matcher :=
  Inspect (λ node seen,
             match node with
             | VectorSelector _ ms => seen ++ ms
             | _ => seen
             end) e [].

(** The same list by recursion on the tree. *)
Fixpoint selectorMatchers (e : Expr) : list Matcher :=
  match e with
  | AggregateExpr _ e p =>
      selectorMatchers e ++ match p with Some q => selectorMatchers q | None => [] end
  | BinaryExpr _ l r => selectorMatchers l ++ selectorMatchers r
  | Call _ args => concat (List.map selectorMatchers args)
  | MatrixSelector vs _ => selectorMatchers vs
  | SubqueryExpr e _ | ParenExpr e | UnaryExpr _ e => selectorMatchers e
  | NumberLiteral _ | StringLiteral _ => []
  | VectorSelector _ ms => ms
  end.

(** The value of the last matcher in [ms] that is named [name]. *)
Definition lastValue (name : string) (ms : list Matcher) : option string :=
  Value <$> last (List.filter (λ m, bool_decide (Name m = name)) ms).

(** The tree with the type of every matcher replaced by [f]'s choice. *)
Definition retypeMatcher (f : Matcher → MatchType) (m : Matcher) : Matcher :=
  {| Name := Name m; Type_ := f m; Value := Value m |}.

Fixpoint retype (f : Matcher → MatchType) (e : Expr) : Expr :=
  match e with
  | AggregateExpr op e p => AggregateExpr op (retype f e) (option_map (retype f) p)
  | BinaryExpr op l r => BinaryExpr op (retype f l) (retype f r)
  | Call fn args => Call fn (List.map (retype f) args)
  | MatrixSelector vs r => MatrixSelector (retype f vs) r
  | SubqueryExpr e r => SubqueryExpr (retype f e) r
  | NumberLiteral v => NumberLiteral v
  | ParenExpr e => ParenExpr (retype f e)
  | StringLiteral v => StringLiteral v
  | UnaryExpr op e => UnaryExpr op (retype f e)
  | VectorSelector n ms => VectorSelector n (retypeMatcher f <$> ms)
  end.

(** Lexicographic sorting by byte order, as the specification asks of
    the members of the effective tenant set. *)
Fixpoint insertSorted (x : string) (l : list string) : list string :=
  match l with
  | [] => [x]
  | y :: l' => if String.leb x y then x :: l else y :: insertSorted x l'
  end.

Definition sortStrings (l : list string) : list string :=
  foldr insertSorted [] l.

(** The matchers of [ms] on labels other than [label]: the targets
    that [EnforceMatchers] keeps when it enforces [label]. *)
Definition others (label : string) (ms : list Matcher) : list Matcher :=
  List.filter (λ t, negb (bool_decide (Name t = label))) ms.

(** Every matcher of [ms] on [label] is [m]: the lists that
    [EnforceMatchers] accepts when it enforces [m] and refuses to
    replace. *)
Definition agrees (label : string) (m : Matcher) (ms : list Matcher) : Prop :=
  Forall (λ t, Name t = label → t = m) ms.

(** The matcher that repeats the metric name of a selector: the
    printer of the parser package leaves it out, and the parser adds
    it after the matchers written between the braces. *)
Definition isNameMatcher (metric : string) (m : Matcher) : bool :=
  bool_decide (Name m = MetricName) && bool_decide (Type_ m = MatchEqual)
  && bool_decide (Value m = metric).

Definition shownMatchers (metric : string) (ms : list Matcher) : list Matcher :=
  List.filter (λ m, negb (isNameMatcher metric m)) ms.

End Observe.

(** ** A reference parser and printer for selectors

    [ParseExpr] and [String] belong to the Prometheus parser package and
    stay parameters of the enforcer. To run the enforcer on query
    texts, this module gives the two for the selector fragment of
    PromQL, [metric], [metric{l="v",...}] and [{l="v",...}], following
    the library: the parser appends the [__name__] matcher of a metric
    written outside the braces after the matchers inside them, and the
    printer leaves that matcher out. Label values are read and written
    between double quotes as they are, which is the library's quoting
    for values without quote, backslash and control bytes. *)
Module Reference.
Import GoStrings labels parser.

Definition dquote : ascii := "034"%char.

Definition TypeString (t : MatchType) : string :=
  match t with
  | MatchEqual => "="
  | MatchNotEqual => "!="
  | MatchRegexp => "=~"
  | MatchNotRegexp => "!~"
  end.

Definition quoted (s : string) : string :=
  String dquote (s +:+ String dquote EmptyString).

Definition MatcherString (m : Matcher) : string :=
  Name m +:+ TypeString (Type_ m) +:+ quoted (Value m).

Definition SelectorString (metric : string) (ms : list Matcher) : string :=
  match Observe.shownMatchers metric ms with
  | [] => metric
  | shown => metric +:+ "{" +:+ Join (MatcherString <$> shown) "," +:+ "}"
  end.

Fixpoint ExprString (e : Expr) : string :=
  match e with
  | AggregateExpr op e None => op +:+ "(" +:+ ExprString e +:+ ")"
  | AggregateExpr op e (Some p) =>
      op +:+ "(" +:+ ExprString p +:+ ", " +:+ ExprString e +:+ ")"
  | BinaryExpr op l r => ExprString l +:+ " " +:+ op +:+ " " +:+ ExprString r
  | Call f args => f +:+ "(" +:+ Join (List.map ExprString args) ", " +:+ ")"
  | MatrixSelector vs r => ExprString vs +:+ "[" +:+ r +:+ "]"
  | SubqueryExpr e r => ExprString e +:+ "[" +:+ r +:+ "]"
  | NumberLiteral v => v
  | ParenExpr e => "(" +:+ ExprString e +:+ ")"
  | StringLiteral v => quoted v
  | UnaryExpr op e => op +:+ ExprString e
  | VectorSelector metric ms => SelectorString metric ms
  end.

(** The bytes of names: a label name starts with a letter or an
    underscore and goes on with letters, digits and underscores; a
    metric name may hold colons as well. *)
Definition isLetter (c : ascii) : bool :=
  let n := nat_of_ascii c in
  ((65 <=? n) && (n <=? 90)) || (n =? 95) || ((97 <=? n) && (n <=? 122)).

Definition isDigit (c : ascii) : bool :=
  let n := nat_of_ascii c in (48 <=? n) && (n <=? 57).

Definition isLabelByte (label : string) (c : ascii) : bool :=
  isLetter c || (negb (bool_decide (label = EmptyString)) && isDigit c).

Definition isMetricByte (metric : string) (c : ascii) : bool :=
  isLetter c || Ascii.eqb c ":"
  || (negb (bool_decide (metric = EmptyString)) && isDigit c).

Definition snoc (s : string) (c : ascii) : string := s +:+ String c EmptyString.

Inductive state :=
| Metric
| Label (label : string)
| Equals (label : string)
| Bang (label : string)
| Opening (label : string) (t : MatchType)
| Val (label : string) (t : MatchType) (v : string)
| Closing
| Closed.

Fixpoint scan (st : state) (metric : string) (ms : list Matcher) (s : string)
  : option (string * list Matcher) :=
  match s with
  | EmptyString =>
      match st with
      | Metric => if bool_decide (metric = EmptyString) then None else Some (metric, ms)
      | Closed => Some (metric, ms)
      | _ => None
      end
  | String c s' =>
      match st with
      | Metric =>
          if isMetricByte metric c then scan Metric (snoc metric c) ms s'
          else if Ascii.eqb c "{" then scan (Label EmptyString) metric ms s'
          else None
      | Label label =>
          if isLabelByte label c then scan (Label (snoc label c)) metric ms s'
          else if bool_decide (label = EmptyString) then None
          else if Ascii.eqb c "=" then scan (Equals label) metric ms s'
          else if Ascii.eqb c "!" then scan (Bang label) metric ms s'
          else None
      | Equals label =>
          if Ascii.eqb c dquote then scan (Val label MatchEqual EmptyString) metric ms s'
          else if Ascii.eqb c "~" then scan (Opening label MatchRegexp) metric ms s'
          else None
      | Bang label =>
          if Ascii.eqb c "=" then scan (Opening label MatchNotEqual) metric ms s'
          else if Ascii.eqb c "~" then scan (Opening label MatchNotRegexp) metric ms s'
          else None
      | Opening label t =>
          if Ascii.eqb c dquote then scan (Val label t EmptyString) metric ms s'
          else None
      | Val label t v =>
          if Ascii.eqb c dquote
          then scan Closing metric (ms ++ [{| Name := label; Type_ := t; Value := v |}]) s'
          else if Ascii.eqb c "\" then None
          else scan (Val label t (snoc v c)) metric ms s'
      | Closing =>
          if Ascii.eqb c "," then scan (Label EmptyString) metric ms s'
          else if Ascii.eqb c "}" then scan Closed metric ms s'
          else None
      | Closed => None
      end
  end.

Definition ParseExpr (query : string) : outcome Expr :=
  match scan Metric EmptyString [] query with
  | Some (metric, ms) =>
      Ok (VectorSelector metric
            (if bool_decide (metric = EmptyString) then ms
             else ms ++ [{| Name := MetricName; Type_ := MatchEqual; Value := metric |}]))
  | None => Err (errorString "parse error")
  end.

(** The keys of a map in the order of [map_to_list]: one of the
    orders in which the Go run time may iterate the map. *)
Definition MapKeysToArray (tl : gmap string bool) : list string :=
  (map_to_list tl).*1.

Definition tenants (ids : list string) : gmap string bool :=
  list_to_map ((λ id, (id, true)) <$> ids).

(** The enforcer with the tenant label [namespace], as in the
    scenarios of the specification. *)
Definition TenantLabel : string := "namespace".

Definition enforceLabels := EnforcerPromql.enforceLabels TenantLabel MapKeysToArray.
Definition enforcedMatcher := EnforcerPromql.enforcedMatcher TenantLabel.

(** The enforcer at a release of the library, and at the release
    that always drops the target. *)
Definition enforceExprAt (release : injectproxy.Release) :=
  EnforcerPromql.enforceExpr TenantLabel MapKeysToArray release.
Definition promqlEnforcerAt (release : injectproxy.Release) :=
  EnforcerPromql.promqlEnforcer TenantLabel MapKeysToArray ParseExpr ExprString release.
Definition enforceExpr := enforceExprAt injectproxy.DropsTarget.
Definition promqlEnforcer := promqlEnforcerAt injectproxy.DropsTarget.

(** The selector [metric{namespace<op>"v"}] as text. *)
Definition onNamespace (metric op v : string) : string :=
  metric +:+ "{namespace" +:+ op +:+ quoted v +:+ "}".

End Reference.

(** ** [routes.go] *)

(** The parts of [net/url] and of the identity token that the router
    and the handler read. *)
Module neturl.
Record URL := {
  Scheme : string;
  Host : string;
  (** path and query, as [String] writes them after the host *)
  RequestPath : string;
}.
End neturl.

Record KeycloakToken := {
  PreferredUsername : string;
  Email : string;
  Groups : list string;
}.

Module Routes.
Import GoStrings neturl.

Record Route := {
  Url : string;
  MatchWord : string;
}.

(** The two values that the handlers put in the fourth field of a
    [Request]. *)
Inductive EnforceQL :=
| LogQLEnforcer
| PromQLRequest.

(** [Cfg.Loki] and [Cfg.Thanos], the fields that [NewRoutes] reads. *)
Record UpstreamConfig := {
  URL_ : string;
  UseMutualTLS : bool;
}.

Record Config := {
  Loki : UpstreamConfig;
  Thanos : UpstreamConfig;
}.

(** The provider literal of the handlers has both fields nil: the
    empty maps. *)
Record ConfigMapProvider := {
  Users : gmap string (gmap string bool);
  Groups_ : gmap string (gmap string bool);
}.

(** An inbound [*http.Request]: its path, its form values in order
    (a name may repeat), and the identity that the authentication
    middleware stored in its context under [KeycloakCtxToken]. *)
Record HTTPRequest := {
  Path : string;
  Form : list (string * string);
  ctxToken : option KeycloakToken;
}.

(** The struct [Request] that a handler builds, without the response
    writer: what the handler writes is its result. *)
Record Request := {
  matchWord : string;
  r : HTTPRequest;
  ql : EnforceQL;
}.

(** What a handler does with a request: it answers itself, or it
    calls [callUpstream] with an upstream URL, the mutual-TLS flag
    and the request to forward, or it is aborted by a panic.
    [callUpstream] is a method of [Request] whose definition is not
    part of these sources. *)
Inductive Served :=
| Responded (status : Z) (body : string)
| callUpstream (upstream : URL) (useMutualTLS : bool) (req : HTTPRequest)
| Aborted (reason : string).

(** The result of [Request.enforce]: the request to forward, the
    error response it wrote when it returns an error, or a panic. *)
Inductive Enforced :=
| Rewritten (req : HTTPRequest)
| Refused (status : Z) (body : string)
| Panicked (reason : string).

Definition Handler : Type := HTTPRequest → Served.

(** The handlers of the admin router. *)
Inductive AdminHandler :=
| HealthCheckHandler
| pprofIndex
| promhttpHandler.

(** A [mux.Router] as the routes registered on it, in registration
    order, each with its full path template. *)
Definition Router : Type := list (string * Handler).
Definition AdminRouter : Type := list (string * AdminHandler).

Definition routes : list Route :=
  [ {| Url := "/api/v1/query"; MatchWord := "query" |};
    {| Url := "/api/v1/query_range"; MatchWord := "query" |};
    {| Url := "/api/v1/label/{name}/values"; MatchWord := "query" |};
    {| Url := "/api/v1/series"; MatchWord := "match[]" |};
    {| Url := "/api/v1/tail"; MatchWord := "query" |};
    {| Url := "/api/v1/index/stats"; MatchWord := "query" |};
    {| Url := "/api/v1/format_query"; MatchWord := "query" |};
    {| Url := "/api/v1/labels"; MatchWord := "match[]" |};
    {| Url := "/api/v1/label/{label}/values"; MatchWord := "match[]" |};
    {| Url := "/api/v1/query_exemplars"; MatchWord := "query" |};
    {| Url := "/api/v1/status/buildinfo"; MatchWord := "query" |} ].

(** A segment of a path template matches a segment of a path when
    it is a variable [{...}] and the path segment is not empty, or
    when the two are equal. *)
Definition isVariable (segment : string) : bool :=
  match segment with
  | String "{" _ => true
  | _ => false
  end.

Definition segmentMatches (template segment : string) : bool :=
  if isVariable template then negb (bool_decide (segment = EmptyString))
  else bool_decide (template = segment).

Fixpoint segmentsMatch (template path : list string) : bool :=
  match template, path with
  | [], [] => true
  | t :: template', s :: path' => segmentMatches t s && segmentsMatch template' path'
  | _, _ => false
  end.

Definition templateMatches (template path : string) : bool :=
  segmentsMatch (Split template "/") (Split path "/").

(** [Router.Match]: the first registered route whose template
    matches the path. *)
Fixpoint Match {H : Type} (router : list (string * H)) (path : string) : option H :=
  match router with
  | [] => None
  | (template, h) :: rest =>
      if templateMatches template path then Some h else Match rest path
  end.

(** What [HealthCheckHandler] writes: status 200 and the body [Ok]. *)
Definition HealthCheckHandlerReply : Z * string := (200%Z, "Ok").

(** The closures of the loop in [NewRoutes] read the variable [route]
    when a request arrives, after the loop has ended. The sources
    name no Go release, and the releases differ in that variable:
    before Go 1.22 the loop has one variable, which all closures
    share and which holds the last route of the table when the loop
    has ended; from Go 1.22 on each iteration has a variable of its
    own. *)
Inductive LoopVar :=
| PerLoop
| PerIteration.

(** What the closure registered in the iteration of [route] reads of
    the variable. *)
Definition captured (loopvar : LoopVar) (route : Route) : Route :=
  match loopvar with
  | PerLoop => default route (last routes)
  | PerIteration => route
  end.

Section NewRoutes.
(** [url.Parse], with the text of its error. *)
Variable Parse : string → URL + string.
(** [Request.enforce], a method whose definition is not part of
    these sources. *)
Variable enforce : Request → ConfigMapProvider → Enforced.
(** The loop variable of the Go release that the proxy is built
    with. *)
Variable loopvar : LoopVar.

(** The closure registered on [lokiRouter], for the value [route]
    that it reads of the loop variable. *)
Definition lokiHandler (Cfg : Config) (thanosUrl : URL) (route : Route) : Handler :=
  λ r,
    let req := {| matchWord := MatchWord route; r := r; ql := LogQLEnforcer |} in
    match enforce req {| Users := ∅; Groups_ := ∅ |} with
    | Refused status body => Responded status body
    | Panicked reason => Aborted reason
    | Rewritten r' => callUpstream thanosUrl (UseMutualTLS (Thanos Cfg)) r'
    end.

(** The closure registered on [thanosRouter], likewise. *)
Definition thanosHandler (Cfg : Config) (lokiUrl : URL) (route : Route) : Handler :=
  λ r,
    let req := {| matchWord := MatchWord route; r := r; ql := PromQLRequest |} in
    match enforce req {| Users := ∅; Groups_ := ∅ |} with
    | Refused status body => Responded status body
    | Panicked reason => Aborted reason
    | Rewritten r' => callUpstream lokiUrl (UseMutualTLS (Loki Cfg)) r'
    end.

(** The loop of [NewRoutes]: each route is registered on
    [lokiRouter], whose templates start with [/loki], and on
    [thanosRouter], whose templates have the empty prefix. A
    request is matched against [lokiRouter] first. *)
Definition register (Cfg : Config) (lokiUrl thanosUrl : URL) : Router :=
  ((λ route, ("/loki" +:+ Url route,
              lokiHandler Cfg thanosUrl (captured loopvar route))) <$> routes)
  ++ ((λ route, (Url route,
                 thanosHandler Cfg lokiUrl (captured loopvar route))) <$> routes).

(** [NewRoutes]: [aCfg] is the configuration of the receiver
    [a.Cfg], [Cfg] the package variable; the middlewares that
    [e.Use] installs run before the matched handler and are not
    part of these sources. *)
Definition NewRoutes (aCfg Cfg : Config) : outcome (Router * AdminRouter) :=
  match Parse (URL_ (Loki aCfg)) with
  | inr err => Err (errorString ("error parsing Loki URL: " +:+ err))
  | inl lokiUrl =>
      match Parse (URL_ (Thanos aCfg)) with
      | inr err => Err (errorString ("error parsing Thanos URL: " +:+ err))
      | inl thanosUrl =>
          let i := [ ("/health", HealthCheckHandler);
                     ("/debug/pprof/", pprofIndex);
                     ("/metrics", promhttpHandler) ] in
          let e := register Cfg lokiUrl thanosUrl in
          Ok (e, i)
      end
  end.

End NewRoutes.
End Routes.

(** ** The request pipeline around the enforcer *)
Module Pipeline.
Import Routes.

(** What the tenant provider resolves an identity to: the sentinel
    for all tenants, or a tenant set. *)
Inductive Resolution :=
| AllTenants
| Tenants (tl : gmap string bool).

(** The form values with every value named [matchWord] rewritten. *)
Fixpoint rewriteForm (rewrite : string → outcome string) (matchWord : string)
    (form : list (string * string)) : outcome (list (string * string)) :=
  match form with
  | [] => Ok []
  | (name, value) :: rest =>
      value' ← (if bool_decide (name = matchWord) then rewrite value else Ok value);
      rest' ← rewriteForm rewrite matchWord rest;
      Ok ((name, value') :: rest')
  end.

Section Enforce.
(** The tenant provider, [GetLabels]. *)
Variable GetLabels : ConfigMapProvider → option KeycloakToken → Resolution.
(** The enforcer of each variant. *)
Variable enforcer : EnforceQL → string → gmap string bool → outcome string.
(** The status and the body that the pipeline gives an error of
    the enforcer: 400 with the parser message for a malformed
    query, 403 for a forbidden tenant. *)
Variable errorResponse : error → Z * string.

(** Modelled from the spec: [Request.enforce] is called by the
    handlers of [routes.go] and is not defined in these sources.
    After sections 4.2, 4.5 and 7 of the specification: the
    provider resolves the caller's tenant set; the sentinel for all
    tenants skips rewriting and leaves the request untouched; an
    empty set is refused with status 403 and the body [no tenants];
    otherwise every query text at the route's parameter name is
    rewritten by the route's enforcer, and the first failure aborts
    the request with the enforcer's error. *)
Definition enforce (req : Request) (provider : ConfigMapProvider) : Enforced :=
  match GetLabels provider (ctxToken (r req)) with
  | AllTenants => Rewritten (r req)
  | Tenants tl =>
      if bool_decide (tl = ∅) then Refused 403 "no tenants"
      else
        match rewriteForm (λ query, enforcer (ql req) query tl)
                (matchWord req) (Form (r req)) with
        | Ok form' =>
            Rewritten {| Path := Path (r req); Form := form';
                         ctxToken := ctxToken (r req) |}
        | Err e => Refused (errorResponse e).1 (errorResponse e).2
        | Panic reason => Panicked reason
        end
  end.

End Enforce.
End Pipeline.

(** ** [main.go]: the handler that [configureProxy] returns *)
Module Proxy.
Import GoStrings neturl.

(** The status codes of [net/http] that the handler writes. *)
Definition StatusOK : Z := 200.
Definition StatusForbidden : Z := 403.
Definition StatusInternalServerError : Z := 500.

(** The fields of [*jwt.Token] that the handler reads. *)
Record Token := {
  Raw : string;
  Valid : bool;
}.

(** The fields of [*http.Request] that the handler reads and sets.
    [Authorization] is [req.Header.Get("Authorization")], empty when
    the header is absent. *)
Record Request := {
  Authorization : string;
  URL_ : URL;
  Host_ : string;
  RequestURI : string;
}.

(** An upstream response; [Body] is what [io.ReadAll] returns of it. *)
Record Response := {
  StatusCode : Z;
  Header : list (string * string);
  Body : string;
}.

(** The error of a failed round trip, with the text that [Error]
    returns: the upstream could not be reached, or it timed out. *)
Inductive RoundTripError :=
| Unreachable (text : string)
| TimedOut (text : string).

Definition Error (e : RoundTripError) : string :=
  match e with Unreachable text | TimedOut text => text end.

(** What the handler wrote to the [http.ResponseWriter]: the status
    of [WriteHeader], the header fields it set and the body. *)
Record Written := {
  status : Z;
  header : list (string * string);
  body : string;
}.

(** The calls by which the handler reaches beyond itself. *)
Inductive Event :=
| ResolvedLabels (username : string)
| ExchangedToken (params : list (string * string))
| Sent (req : Request).

Record Run := {
  events : list Event;
  result : outcome Written;
}.

Definition respond (events : list Event) (status : Z) (body : string) : Run :=
  {| events := events;
     result := Ok {| status := status; header := []; body := body |} |}.

Definition panic (events : list Event) (reason : string) : Run :=
  {| events := events; result := Panic reason |}.

(** The status that a run wrote, if it wrote a response. *)
Definition statusOf (run : Run) : option Z :=
  match result run with
  | Ok written => Some (status written)
  | _ => None
  end.

(** The request with its [RequestURI] cleared. *)
Definition cleared (req : Request) : Request :=
  {| Authorization := Authorization req; URL_ := URL_ req;
     Host_ := Host_ req; RequestURI := EmptyString |}.

(** No request was sent upstream. *)
Definition noneSent (events : list Event) : Prop :=
  ∀ sent, Sent sent ∉ events.

Section Handler.
(** [jwt.ParseWithClaims(tokenString, &keycloakToken, Jwks.Keyfunc)]:
    the token, which may be nil, and the claims it filled in. The
    error is only logged. *)
Variable ParseWithClaims : string → option Token * KeycloakToken.
Variable Getenv : string → string.
(** [labels_provider.GetLabelsFromRoleBindings]. *)
Variable GetLabelsFromRoleBindings : string → list string.
(** [utils.ServiceAccountToken]. *)
Variable ServiceAccountToken : string.
(** [URL.String] and [url.Parse], which returns nil on an error. *)
Variable URLString : URL → string.
Variable Parse : string → option URL.
(** [http.DefaultClient.Do]. *)
Variable Do : Request → Response + RoundTripError.
(** The token exchange: [None] when the request fails and the
    response is nil, else the access token that [json.Unmarshal]
    leaves in the result. *)
Variable DoTokenExchange : list (string * string) → option string.

(** From the clearing of [req.RequestURI] to the end of the
    handler. *)
Definition proxyRequest (events : list Event) (req : Request) : Run :=
  let req := cleared req in
  match Do req with
  | inr err =>
      respond (events ++ [Sent req]) StatusInternalServerError (Error err)
  | inl originServerResponse =>
      let originBody := Body originServerResponse in
      respond (events ++ [Sent req]) StatusOK originBody
  end.

(** The query-string prefix [tenantLabel=label&] for each label. *)
Fixpoint labelsEnforcer (tenantLabel : string) (labels : list string) : string :=
  match labels with
  | [] => EmptyString
  | label :: rest => tenantLabel +:+ "=" +:+ label +:+ "&" +:+ labelsEnforcer tenantLabel rest
  end.

Definition retarget (req : Request) (u target : URL) (authorization : string) : Request :=
  {| Authorization := authorization;
     URL_ := {| Scheme := Scheme target; Host := Host target;
                RequestPath := RequestPath u |};
     Host_ := Host target;
     RequestURI := RequestURI req |}.

Definition configureProxy (originBypassServerURL : URL) (tenantLabel : string)
    (originServerURL : URL) (req : Request) : Run :=
  if bool_decide (Authorization req = EmptyString) then
    respond [] StatusForbidden "No Authorization header found"
  else
    match sliceFrom (Authorization req) 7 with
    | None => panic [] "slice bounds out of range"
    | Some tokenString =>
        let '(token, keycloakToken) := ParseWithClaims tokenString in
        match token with
        | None => panic [] "invalid memory address or nil pointer dereference"
        | Some token =>
            if negb (Valid token) then
              respond [] StatusForbidden "error while parsing token"
            else
              match Groups keycloakToken !! 0%nat with
              | None => panic [] "index out of range [0] with length 0"
              | Some group =>
                  if bool_decide (group = Getenv "ADMIN_GROUP")
                     && bool_decide (ToLower (Getenv "TOKEN_EXCHANGE") = "true")
                  then
                    let params :=
                      [ ("client_id", "grafana");
                        ("client_secret", Getenv "CLIENT_SECRET");
                        ("subject_token", Raw token);
                        ("requested_issuer", "openshift");
                        ("grant_type", "urn:ietf:params:oauth:grant-type:token-exchange");
                        ("audience", "grafana") ] in
                    match DoTokenExchange params with
                    | None =>
                        panic [ExchangedToken params]
                          "invalid memory address or nil pointer dereference"
                    | Some accessToken =>
                        proxyRequest [ExchangedToken params]
                          (retarget req (URL_ req) originBypassServerURL
                             ("Bearer " +:+ accessToken))
                    end
                  else
                    let username := PreferredUsername keycloakToken in
                    let labels := GetLabelsFromRoleBindings username in
                    let URL := URLString (URL_ req) in
                    let quIn := Z.to_nat (IndexByte URL "?" + 1) in
                    match sliceTo URL quIn, sliceFrom URL quIn with
                    | Some before, Some after =>
                        match Parse (before +:+ labelsEnforcer tenantLabel labels +:+ after) with
                        | None =>
                            panic [ResolvedLabels username]
                              "invalid memory address or nil pointer dereference"
                        | Some u =>
                            proxyRequest [ResolvedLabels username]
                              (retarget req u originServerURL
                                 ("Bearer " +:+ ServiceAccountToken))
                        end
                    | _, _ => panic [ResolvedLabels username] "slice bounds out of range"
                    end
              end
        end
    end.

End Handler.
End Proxy.

(** ** A small environment to run the router and the handler in *)
Module Stub.
Import neturl.

(** *** For [routes.go] *)

Definition ParseURL (text : string) : URL + string :=
  inl {| Scheme := "https"; Host := text; RequestPath := EmptyString |}.

Definition Cfg : Routes.Config :=
  {| Routes.Loki := {| Routes.URL_ := "loki:3100"; Routes.UseMutualTLS := true |};
     Routes.Thanos := {| Routes.URL_ := "thanos:9090"; Routes.UseMutualTLS := false |} |}.

(** An [enforce] that forwards every request as it is. *)
Definition passAll (req : Routes.Request) (provider : Routes.ConfigMapProvider)
  : Routes.Enforced := Routes.Rewritten (Routes.r req).

(** A provider that resolves every caller to the empty tenant set. *)
Definition noTenants (provider : Routes.ConfigMapProvider)
    (token : option KeycloakToken) : Pipeline.Resolution :=
  Pipeline.Tenants ∅.

(** The PromQL variant is the enforcer of [enforcer_promql.go] with
    the reference parser; the LogQL variant, which is not part of
    these sources, is stood for by the identity. *)
Definition enforcer (ql : Routes.EnforceQL) (query : string) (tl : gmap string bool)
  : outcome string :=
  match ql with
  | Routes.PromQLRequest => Reference.promqlEnforcer query tl
  | Routes.LogQLEnforcer => Ok query
  end.

Definition errorResponse (e : error) : Z * string :=
  match e with
  | errorString text => (403%Z, text)
  | ErrIllegalLabelMatcher _ _ => (403%Z, "illegal label matcher")
  end.

Definition get (path : string) (query : string) : Routes.HTTPRequest :=
  {| Routes.Path := path; Routes.Form := [("query", query)];
     Routes.ctxToken := Some {| PreferredUsername := "alice"; Email := EmptyString;
                                Groups := ["dev"] |} |}.

(** *** For [main.go] *)

(** An identity provider that accepts the bearer [good] for the user
    alice of the group dev, and finds every other bearer not valid. *)
Definition ParseWithClaims (tokenString : string) : option Proxy.Token * KeycloakToken :=
  if bool_decide (tokenString = "good") then
    (Some {| Proxy.Raw := tokenString; Proxy.Valid := true |},
     {| PreferredUsername := "alice"; Email := EmptyString; Groups := ["dev"] |})
  else
    (Some {| Proxy.Raw := tokenString; Proxy.Valid := false |},
     {| PreferredUsername := EmptyString; Email := EmptyString; Groups := [] |}).

Definition Getenv (name : string) : string := EmptyString.
Definition GetLabelsFromRoleBindings (username : string) : list string := ["team-a"].
Definition ServiceAccountToken : string := "sa-token".
Definition URLString (u : URL) : string := RequestPath u.
Definition Parse (text : string) : option URL :=
  Some {| Scheme := EmptyString; Host := EmptyString; RequestPath := text |}.
Definition DoTokenExchange (params : list (string * string)) : option string := None.

(** Three upstreams: one that answers 404, one that cannot be
    reached, one that times out. *)
Definition notFound (req : Proxy.Request) : Proxy.Response + Proxy.RoundTripError :=
  inl {| Proxy.StatusCode := 404; Proxy.Header := [("Content-Type", "text/plain")];
         Proxy.Body := "not found" |}.
Definition unreachable (req : Proxy.Request) : Proxy.Response + Proxy.RoundTripError :=
  inr (Proxy.Unreachable "connection refused").
Definition timesOut (req : Proxy.Request) : Proxy.Response + Proxy.RoundTripError :=
  inr (Proxy.TimedOut "context deadline exceeded").

Definition origin : URL :=
  {| Scheme := "https"; Host := "thanos:9090"; RequestPath := EmptyString |}.
Definition bypass : URL :=
  {| Scheme := "https"; Host := "bypass:9090"; RequestPath := EmptyString |}.

Definition request (authorization : string) : Proxy.Request :=
  {| Proxy.Authorization := authorization;
     Proxy.URL_ := {| Scheme := EmptyString; Host := EmptyString;
                      RequestPath := "/api/v1/query?query=up" |};
     Proxy.Host_ := "proxy:8080";
     Proxy.RequestURI := "/api/v1/query?query=up" |}.

(** The request that the handler below sends upstream for the
    bearer [good]. *)
Definition sentForGood : Proxy.Request :=
  {| Proxy.Authorization := "Bearer sa-token";
     Proxy.URL_ := {| Scheme := "https"; Host := "thanos:9090";
                      RequestPath := "/api/v1/query?namespace=team-a&query=up" |};
     Proxy.Host_ := "thanos:9090";
     Proxy.RequestURI := EmptyString |}.

Definition handler (Do : Proxy.Request → Proxy.Response + Proxy.RoundTripError)
  : Proxy.Request → Proxy.Run :=
  Proxy.configureProxy ParseWithClaims Getenv GetLabelsFromRoleBindings
    ServiceAccountToken URLString Parse Do DoTokenExchange
    bypass "namespace" origin.

End Stub.

(** ** The branches of the handler of [main.go] *)
Module ProxyPaths.
Import GoStrings neturl Proxy.

Section Paths.
Variable ParseWithClaims : string → option Token * KeycloakToken.
Variable Getenv : string → string.

(** The request passes the checks of the handler up to the test of
    the first group: its bearer parses to the valid [token] with the
    claims [keycloakToken], whose first group is [group]. *)
Definition authenticated (req : Request) (token : Token)
    (keycloakToken : KeycloakToken) (group : string) : Prop :=
  Authorization req ≠ EmptyString
  ∧ ∃ tokenString,
      sliceFrom (Authorization req) 7 = Some tokenString
      ∧ ParseWithClaims tokenString = (Some token, keycloakToken)
      ∧ Valid token = true
      ∧ Groups keycloakToken !! 0%nat = Some group.

(** The condition of the token exchange. *)
Definition exchanges (group : string) : Prop :=
  group = Getenv "ADMIN_GROUP" ∧ ToLower (Getenv "TOKEN_EXCHANGE") = "true".

End Paths.

(** The run did not end in a panic. *)
Definition survived (run : Run) : Prop :=
  ∀ reason, result run ≠ Panic reason.

End ProxyPaths.

(** *** An [enforce] that tells the parameter names apart *)
Module WordStub.

(** The request is left as it is when the closure asks for the
    parameter [query], and refused for every other name. *)
Definition enforce (req : Routes.Request) (provider : Routes.ConfigMapProvider)
  : Routes.Enforced :=
  if bool_decide (Routes.matchWord req = "query") then Routes.Rewritten (Routes.r req)
  else Routes.Refused 400 (Routes.matchWord req).

End WordStub.

(** *** An environment with an admin group and a token exchange *)
Module AdminStub.
Import neturl.

(** The bearer [root] is the valid token of a user whose groups are
    ops and dev, the bearer [lone] the valid token of a user without
    groups, the bearer [nobody] that of a user of the group dev for
    whom no label is found; the bearer [torn] does not parse to a
    token. Every other bearer is the user alice of the group dev. *)
Definition ParseWithClaims (tokenString : string) : option Proxy.Token * KeycloakToken :=
  let valid := Some {| Proxy.Raw := tokenString; Proxy.Valid := true |} in
  if bool_decide (tokenString = "root") then
    (valid, {| PreferredUsername := "root"; Email := EmptyString; Groups := ["ops"; "dev"] |})
  else if bool_decide (tokenString = "lone") then
    (valid, {| PreferredUsername := "lone"; Email := EmptyString; Groups := [] |})
  else if bool_decide (tokenString = "nobody") then
    (valid, {| PreferredUsername := "nobody"; Email := EmptyString; Groups := ["dev"] |})
  else if bool_decide (tokenString = "torn") then
    (None, {| PreferredUsername := EmptyString; Email := EmptyString; Groups := [] |})
  else
    (valid, {| PreferredUsername := "alice"; Email := EmptyString; Groups := ["dev"] |}).

Definition Getenv (name : string) : string :=
  if bool_decide (name = "ADMIN_GROUP") then "ops"
  else if bool_decide (name = "TOKEN_EXCHANGE") then "True"
  else if bool_decide (name = "CLIENT_SECRET") then "s3cret"
  else EmptyString.

Definition GetLabelsFromRoleBindings (username : string) : list string :=
  if bool_decide (username = "nobody") then [] else ["team-a"; "team-b"].

Definition DoTokenExchange (params : list (string * string)) : option string :=
  Some "exchanged".

Definition answers (req : Proxy.Request) : Proxy.Response + Proxy.RoundTripError :=
  inl {| Proxy.StatusCode := 200; Proxy.Header := []; Proxy.Body := "{}" |}.

Definition request (authorization path : string) : Proxy.Request :=
  {| Proxy.Authorization := authorization;
     Proxy.URL_ := {| Scheme := EmptyString; Host := EmptyString; RequestPath := path |};
     Proxy.Host_ := "proxy:8080";
     Proxy.RequestURI := path |}.

Definition handler : Proxy.Request → Proxy.Run :=
  Proxy.configureProxy ParseWithClaims Getenv GetLabelsFromRoleBindings
    Stub.ServiceAccountToken Stub.URLString Stub.Parse answers DoTokenExchange
    Stub.bypass "namespace" Stub.origin.

End AdminStub.

(** ** The start-up and the reload of the configuration *)

(** The levels of [zapcore] that [getZapLevel] returns. *)
Module zapcore.
Inductive Level :=
| DebugLevel
| InfoLevel
| WarnLevel
| ErrorLevel
| FatalLevel.
End zapcore.

(** The fields of [mysql.Config] and of [tls.Config] that the sources
    set. A certificate pool is the list of the PEM texts appended to
    it, a certificate the text that [tls.LoadX509KeyPair] returns. *)
Module mysql.
Record Config := {
  User : string;
  Passwd : string;
  Net : string;
  AllowNativePasswords : bool;
  Addr : string;
  DBName : string;
}.
End mysql.

Module tls.
Record Config := {
  InsecureSkipVerify : bool;
  RootCAs : list string;
  Certificates : list string;
}.
End tls.

Module Setup.
Import GoStrings.

(** The fields of [Config] that the sources read; the struct itself
    is declared outside of them. *)
Module Log.
Record Config := { Level : string }.
End Log.

Module Web.
Record Config := {
  TrustedRootCaPath : string;
  InsecureSkipVerify : bool;
  JwksCertURL : string;
}.
End Web.

Module Dev.
Record Config := {
  Enabled : bool;
  ServiceAccountToken : string;
}.
End Dev.

Module Db.
Record Config := {
  Enabled : bool;
  User : string;
  PasswordPath : string;
  Host : string;
  Port : Z;
  DbName : string;
}.
End Db.

Module Upstream.
Record Config := {
  Cert : string;
  Key : string;
}.
End Upstream.

Record Config := {
  Log : Log.Config;
  Web : Web.Config;
  Dev : Dev.Config;
  Db : Db.Config;
  Loki : Upstream.Config;
  Thanos : Upstream.Config;
  TenantProvider : string;
}.

(** [Config{}]: every field has its zero value. *)
Definition zero : Config :=
  {| Log := {| Log.Level := EmptyString |};
     Web := {| Web.TrustedRootCaPath := EmptyString; Web.InsecureSkipVerify := false;
               Web.JwksCertURL := EmptyString |};
     Dev := {| Dev.Enabled := false; Dev.ServiceAccountToken := EmptyString |};
     Db := {| Db.Enabled := false; Db.User := EmptyString; Db.PasswordPath := EmptyString;
              Db.Host := EmptyString; Db.Port := 0; Db.DbName := EmptyString |};
     Loki := {| Upstream.Cert := EmptyString; Upstream.Key := EmptyString |};
     Thanos := {| Upstream.Cert := EmptyString; Upstream.Key := EmptyString |};
     TenantProvider := EmptyString |}.

(** The [*viper.Viper] instance [V] is the list of the calls made on
    it, the oldest first: what a call returns is a function of the
    calls before it. *)
Inductive ViperCall :=
| SetConfigName (name : string)
| SetConfigType (type : string)
| AddConfigPath (path : string)
| MergeInConfig
| Unmarshal
| OnConfigChange
| WatchConfig.

Definition Viper : Type := list ViperCall.

(** The two functions that [GetLabelsFunc] is set to. *)
Inductive LabelsFunc :=
| GetLabelsCM
| GetLabelsDB.

(** The package variables, and the TLS configuration of the default
    transport. [Jwks] is the URL that the key set was created from,
    [DB] the configuration that the handle was opened with. *)
Record State := {
  Cfg : Config;
  V : Viper;
  atomicLevel : zapcore.Level;
  ServiceAccountToken : string;
  GetLabelsFunc : option LabelsFunc;
  Jwks : option string;
  DB : option mysql.Config;
  TLSClientConfig : option tls.Config;
}.

Definition setCfg (cfg : Config) (st : State) : State :=
  {| Cfg := cfg; V := V st; atomicLevel := atomicLevel st;
     ServiceAccountToken := ServiceAccountToken st; GetLabelsFunc := GetLabelsFunc st;
     Jwks := Jwks st; DB := DB st; TLSClientConfig := TLSClientConfig st |}.

Definition setV (v : Viper) (st : State) : State :=
  {| Cfg := Cfg st; V := v; atomicLevel := atomicLevel st;
     ServiceAccountToken := ServiceAccountToken st; GetLabelsFunc := GetLabelsFunc st;
     Jwks := Jwks st; DB := DB st; TLSClientConfig := TLSClientConfig st |}.

Definition setAtomicLevel (level : zapcore.Level) (st : State) : State :=
  {| Cfg := Cfg st; V := V st; atomicLevel := level;
     ServiceAccountToken := ServiceAccountToken st; GetLabelsFunc := GetLabelsFunc st;
     Jwks := Jwks st; DB := DB st; TLSClientConfig := TLSClientConfig st |}.

Definition setServiceAccountToken (token : string) (st : State) : State :=
  {| Cfg := Cfg st; V := V st; atomicLevel := atomicLevel st;
     ServiceAccountToken := token; GetLabelsFunc := GetLabelsFunc st;
     Jwks := Jwks st; DB := DB st; TLSClientConfig := TLSClientConfig st |}.

Definition setGetLabelsFunc (f : LabelsFunc) (st : State) : State :=
  {| Cfg := Cfg st; V := V st; atomicLevel := atomicLevel st;
     ServiceAccountToken := ServiceAccountToken st; GetLabelsFunc := Some f;
     Jwks := Jwks st; DB := DB st; TLSClientConfig := TLSClientConfig st |}.

Definition setJwks (jwksURL : string) (st : State) : State :=
  {| Cfg := Cfg st; V := V st; atomicLevel := atomicLevel st;
     ServiceAccountToken := ServiceAccountToken st; GetLabelsFunc := GetLabelsFunc st;
     Jwks := Some jwksURL; DB := DB st; TLSClientConfig := TLSClientConfig st |}.

Definition setDB (cfg : mysql.Config) (st : State) : State :=
  {| Cfg := Cfg st; V := V st; atomicLevel := atomicLevel st;
     ServiceAccountToken := ServiceAccountToken st; GetLabelsFunc := GetLabelsFunc st;
     Jwks := Jwks st; DB := Some cfg; TLSClientConfig := TLSClientConfig st |}.

Definition setTLSClientConfig (config : tls.Config) (st : State) : State :=
  {| Cfg := Cfg st; V := V st; atomicLevel := atomicLevel st;
     ServiceAccountToken := ServiceAccountToken st; GetLabelsFunc := GetLabelsFunc st;
     Jwks := Jwks st; DB := DB st; TLSClientConfig := Some config |}.

(** A function of the package: it runs on the package variables, and
    it returns or panics; the variables keep what was assigned before
    a panic. *)
Definition M (A : Type) : Type := State → outcome A * State.

Definition ret {A : Type} (a : A) : M A := λ st, (Ok a, st).

Definition bind {A B : Type} (m : M A) (k : A → M B) : M B :=
  λ st,
    match m st with
    | (Ok a, st') => k a st'
    | (Err e, st') => (Err e, st')
    | (Panic reason, st') => (Panic reason, st')
    end.

Definition get : M State := λ st, (Ok st, st).

Definition modify (f : State → State) : M unit := λ st, (Ok tt, f st).

(** [Logger.Panic] and [panic]. *)
Definition raise {A : Type} (reason : string) : M A := λ st, (Panic reason, st).

Definition when (b : bool) (m : M unit) : M unit := if b then m else ret tt.

Fixpoint forEach {A : Type} (items : list A) (body : A → M unit) : M unit :=
  match items with
  | [] => ret tt
  | item :: rest => bind (body item) (λ _, forEach rest body)
  end.

(** [strings.HasSuffix] and [strings.Contains]. *)
Definition HasSuffix (s suffix : string) : bool :=
  String.prefix (String.rev suffix) (String.rev s).

Fixpoint Contains (s substr : string) : bool :=
  String.prefix substr s
  || match s with
     | EmptyString => false
     | String _ s' => Contains s' substr
     end.

Definition newline : string := String (ascii_of_nat 10) EmptyString.

(** [fmt.Sprintf("%d", n)] for a port number. *)
Definition digit (n : Z) : ascii := ascii_of_nat (48 + Z.to_nat n).

Fixpoint decimal (fuel : nat) (n : Z) (acc : string) : string :=
  match fuel with
  | O => acc
  | S fuel' =>
      let acc' := String (digit (n mod 10)) acc in
      if (n / 10 =? 0)%Z then acc' else decimal fuel' (n / 10) acc'
  end.

Definition Itoa (n : Z) : string :=
  if (n <? 0)%Z then "-" +:+ decimal (Z.to_nat (- n)) (- n) EmptyString
  else decimal (S (Z.to_nat n)) n EmptyString.

Definition getZapLevel (level : string) : zapcore.Level :=
  if bool_decide (level = "debug") then zapcore.DebugLevel
  else if bool_decide (level = "info") then zapcore.InfoLevel
  else if bool_decide (level = "warn") then zapcore.WarnLevel
  else if bool_decide (level = "error") then zapcore.ErrorLevel
  else if bool_decide (level = "fatal") then zapcore.FatalLevel
  else zapcore.InfoLevel.

(** An entry that [filepath.Walk] hands to its callback: the path,
    [info.Name()], [info.IsDir()] and the error of the walk at this
    entry. *)
Record WalkEntry := {
  path : string;
  name : string;
  isDir : bool;
  err : option string;
}.

Section Environment.
(** [V.MergeInConfig]: its error, from the calls made on [V] before. *)
Variable mergeInConfig : Viper → option string.
(** [V.Unmarshal(Cfg)]: the configuration that it leaves in [Cfg], or
    its error. *)
Variable unmarshal : Viper → Config → Config + string.
(** [os.Args[0]] and [os.ReadFile]. *)
Variable Args0 : string.
Variable ReadFile : string → string + string.
(** [keyfunc.Get], [sql.Open] after [FormatDSN]: the error, if any. *)
Variable keyfuncGet : string → option string.
Variable sqlOpen : mysql.Config → option string.
(** [x509.SystemCertPool], nil when there is none; the entries that
    [filepath.Walk] visits under a root, in its order, as long as the
    callback returns nil; [tls.LoadX509KeyPair]. *)
Variable SystemCertPool : option (list string).
Variable Walk : string → list WalkEntry.
Variable LoadX509KeyPair : string → string → string + string.

Definition call (c : ViperCall) : M unit := modify (λ st, setV (V st ++ [c]) st).

(** [err := V.MergeInConfig()] with the panic on an error. *)
Definition mergeOrPanic : M unit :=
  bind get (λ st,
  bind (call MergeInConfig) (λ _,
  match mergeInConfig (V st) with
  | Some _ => raise "Error while reading config file"
  | None => ret tt
  end)).

(** [err = V.Unmarshal(Cfg)] with the panic on an error. *)
Definition unmarshalOrPanic : M unit :=
  bind get (λ st,
  bind (call Unmarshal) (λ _,
  match unmarshal (V st) (Cfg st) with
  | inr _ => raise "Error while unmarshalling config file"
  | inl cfg => modify (setCfg cfg)
  end)).

Definition updateLogLevel : M unit :=
  bind get (λ st,
  modify (setAtomicLevel (getZapLevel (ToLower (Log.Level (Log (Cfg st))))))).

(** The callback of [filepath.Walk] in [initTLSConfig], run over the
    entries of the walk: the pool, and the error that ends the walk. *)
Fixpoint walkTrusted (entries : list WalkEntry) (rootCAs : list string)
  : list string * option string :=
  match entries with
  | [] => (rootCAs, None)
  | entry :: rest =>
      match err entry with
      | Some e => (rootCAs, Some e)
      | None =>
          if isDir entry || Contains (name entry) ".." then walkTrusted rest rootCAs
          else
            match ReadFile (path entry) with
            | inr e => (rootCAs, Some e)
            | inl certs => walkTrusted rest (rootCAs ++ [certs +:+ newline])
            end
      end
  end.

(** [initTLSConfig]: the errors of the walk and of the two key pairs
    are logged, and the function goes on. *)
Definition initTLSConfig : M unit :=
  bind get (λ st,
  let rootCAs := default [] SystemCertPool in
  let rootCAs :=
    if bool_decide (Web.TrustedRootCaPath (Web (Cfg st)) ≠ EmptyString) then
      (walkTrusted (Walk (Web.TrustedRootCaPath (Web (Cfg st)))) rootCAs).1
    else rootCAs in
  let certificates := [] in
  let certificates :=
    match LoadX509KeyPair (Upstream.Cert (Loki (Cfg st))) (Upstream.Key (Loki (Cfg st))) with
    | inr _ => certificates
    | inl lokiCert => certificates ++ [lokiCert]
    end in
  let certificates :=
    match LoadX509KeyPair (Upstream.Cert (Thanos (Cfg st)))
            (Upstream.Key (Thanos (Cfg st))) with
    | inr _ => certificates
    | inl thanosCert => certificates ++ [thanosCert]
    end in
  modify (setTLSClientConfig
            {| tls.InsecureSkipVerify := Web.InsecureSkipVerify (Web (Cfg st));
               tls.RootCAs := rootCAs;
               tls.Certificates := certificates |})).

Definition initJWKS : M unit :=
  bind get (λ st,
  let jwksURL := Web.JwksCertURL (Web (Cfg st)) in
  match keyfuncGet jwksURL with
  | Some _ => raise "Error init jwks"
  | None => modify (setJwks jwksURL)
  end).

Definition initDB : M unit :=
  bind get (λ st,
  match ReadFile (Db.PasswordPath (Db (Cfg st))) with
  | inr _ => raise "Could not read db password"
  | inl password =>
      let cfg :=
        {| mysql.User := Db.User (Db (Cfg st));
           mysql.Passwd := password;
           mysql.Net := "tcp";
           mysql.AllowNativePasswords := true;
           mysql.Addr := Db.Host (Db (Cfg st)) +:+ ":" +:+ Itoa (Db.Port (Db (Cfg st)));
           mysql.DBName := Db.DbName (Db (Cfg st)) |} in
      match sqlOpen cfg with
      | Some _ => raise "Error opening DB connection"
      | None => modify (setDB cfg)
      end
  end).

(** [loadConfig]; the log calls of this and of the following functions
    write to the log only and are left out. *)
Definition loadConfig (configName : string) : M unit :=
  bind (call (SetConfigName configName)) (λ _,
  bind (call (SetConfigType "yaml")) (λ _,
  bind (call (AddConfigPath ("/etc/config/" +:+ configName +:+ "/"))) (λ _,
  bind (call (AddConfigPath "./configs")) (λ _,
  bind mergeOrPanic (λ _,
  bind unmarshalOrPanic (λ _,
  bind (call OnConfigChange) (λ _,
  call WatchConfig))))))).

Definition initConfig : M unit :=
  bind (modify (setCfg zero)) (λ _,
  bind (modify (setV [])) (λ _,
  bind (loadConfig "config") (λ _,
  bind get (λ st,
  when (bool_decide (TenantProvider (Cfg st) = "configmap")) (loadConfig "labels"))))).

(** [onConfigChange]; the event [e] is logged and not read
    otherwise. *)
Definition onConfigChange : M unit :=
  bind (modify (setCfg zero)) (λ _,
  bind get (λ st,
  let configs :=
    if bool_decide (TenantProvider (Cfg st) = "configmap") then ["config"; "labels"]
    else ["config"] in
  bind (forEach configs (λ name,
          bind (call (SetConfigName name)) (λ _,
          bind mergeOrPanic (λ _,
          unmarshalOrPanic)))) (λ _,
  bind updateLogLevel (λ _,
  bind initTLSConfig (λ _,
  initJWKS))))).

(** [initLogging]: the level is set to info; the logger is built from
    a constant configuration. *)
Definition initLogging : M unit :=
  modify (setAtomicLevel (getZapLevel "info")).

(** [init] of the package that holds the configuration. *)
Definition init : M unit :=
  bind initLogging (λ _,
  bind initConfig (λ _,
  bind updateLogLevel (λ _,
  bind initTLSConfig (λ _,
  bind get (λ st,
  bind (modify (setServiceAccountToken (Dev.ServiceAccountToken (Dev (Cfg st))))) (λ _,
  bind (if negb (HasSuffix Args0 ".test") then
          bind initJWKS (λ _,
          bind get (λ st,
          when (negb (Dev.Enabled (Dev (Cfg st))))
            match ReadFile "/run/secrets/kubernetes.io/serviceaccount/token" with
            | inr _ => raise "Error while reading service account token"
            | inl sa => modify (setServiceAccountToken sa)
            end))
        else
          bind get (λ st,
          when (Dev.Enabled (Dev (Cfg st)))
            (raise "Dev mode is not supported in test mode"))) (λ _,
  bind get (λ st,
  bind (when (Db.Enabled (Db (Cfg st))) initDB) (λ _,
  bind get (λ st,
  bind (when (bool_decide (TenantProvider (Cfg st) = "configmap"))
          (modify (setGetLabelsFunc GetLabelsCM))) (λ _,
  bind (when (bool_decide (TenantProvider (Cfg st) = "mysql"))
          (modify (setGetLabelsFunc GetLabelsDB))) (λ _,
  bind get (λ st,
  match GetLabelsFunc st with
  | None => raise "Tenant provider not supported"
  | Some _ => ret tt
  end))))))))))))).

End Environment.

(** The function leaves the observation [f] of the package variables
    as it was, however it ends. *)
Definition keeps {A X : Type} (f : State → X) (m : M A) : Prop :=
  ∀ st, f (m st).2 = f st.

(** The names of the configuration files that [MergeInConfig] was
    called for, in the order of the calls: for each call the name
    that the last [SetConfigName] before it has set, [config] when
    there was none. *)
Fixpoint merged (name : string) (calls : Viper) : list string :=
  match calls with
  | [] => []
  | SetConfigName name' :: rest => merged name' rest
  | MergeInConfig :: rest => name :: merged name rest
  | _ :: rest => merged name rest
  end.

Fixpoint nameAfter (name : string) (calls : Viper) : string :=
  match calls with
  | [] => name
  | SetConfigName name' :: rest => nameAfter name' rest
  | _ :: rest => nameAfter name rest
  end.

Definition mergedNames (v : Viper) : list string := merged "config" v.

(** The entry ends the walk: it carries an error, or it is a file
    that the callback reads and that cannot be read. *)
Definition endsWalk (ReadFile : string → string + string) (entry : WalkEntry) : Prop :=
  is_Some (err entry)
  ∨ (isDir entry || Contains (name entry) ".." = false
     ∧ ∃ e, ReadFile (path entry) = inr e).

End Setup.

(** *** An environment for the start-up *)
Module SetupStub.
Import Setup.

Definition configured : Config :=
  {| Log := {| Log.Level := "WARN" |};
     Web := {| Web.TrustedRootCaPath := "/etc/ca"; Web.InsecureSkipVerify := false;
               Web.JwksCertURL := "https://sso/certs" |};
     Dev := {| Dev.Enabled := false; Dev.ServiceAccountToken := "dev-token" |};
     Db := {| Db.Enabled := false; Db.User := EmptyString; Db.PasswordPath := EmptyString;
              Db.Host := EmptyString; Db.Port := 0; Db.DbName := EmptyString |};
     Loki := {| Upstream.Cert := "loki.crt"; Upstream.Key := "loki.key" |};
     Thanos := {| Upstream.Cert := "thanos.crt"; Upstream.Key := "thanos.key" |};
     TenantProvider := "configmap" |}.

Definition mergeInConfig (v : Viper) : option string := None.
Definition unmarshal (v : Viper) (cfg : Config) : Config + string := inl configured.

(** The token of the service account and the first of the CA files
    can be read, nothing else. *)
Definition ReadFile (path : string) : string + string :=
  if bool_decide (path = "/run/secrets/kubernetes.io/serviceaccount/token")
  then inl "sa-token"
  else if bool_decide (path = "/etc/ca/a.pem") then inl "A"
  else inr "no such file".

Definition keyfuncGet (jwksURL : string) : option string := None.
Definition sqlOpen (cfg : mysql.Config) : option string := None.
Definition SystemCertPool : option (list string) := None.

Definition entry (path name : string) : WalkEntry :=
  {| path := path; name := name; isDir := false; err := None |}.

Definition Walk (root : string) : list WalkEntry :=
  [ {| path := "/etc/ca"; name := "ca"; isDir := true; err := None |};
    entry "/etc/ca/a.pem" "a.pem";
    entry "/etc/ca/b.pem" "b.pem";
    entry "/etc/ca/c.pem" "c.pem" ].

(** The same walk with other entries behind the one that cannot be
    read. *)
Definition WalkOther (root : string) : list WalkEntry :=
  [ {| path := "/etc/ca"; name := "ca"; isDir := true; err := None |};
    entry "/etc/ca/a.pem" "a.pem";
    entry "/etc/ca/b.pem" "b.pem" ].

Definition LoadX509KeyPair (certFile keyFile : string) : string + string :=
  if bool_decide (certFile = "loki.crt") then inl "loki certificate"
  else inr "no such file".

(** The package variables before [init] has run. *)
Definition start : State :=
  {| Cfg := zero; V := []; atomicLevel := zapcore.InfoLevel;
     ServiceAccountToken := EmptyString; GetLabelsFunc := None;
     Jwks := None; DB := None; TLSClientConfig := None |}.

Definition init : M unit :=
  Setup.init mergeInConfig unmarshal "/bin/proxy" ReadFile keyfuncGet sqlOpen
    SystemCertPool Walk LoadX509KeyPair.

Definition onConfigChange : M unit :=
  Setup.onConfigChange mergeInConfig unmarshal ReadFile keyfuncGet
    SystemCertPool Walk LoadX509KeyPair.

End SetupStub.

(** ** The selectors that the enforcer rewrites *)
Module Selectors.
Import labels parser injectproxy.

(** The matcher lists that [EnforceNode] hands to [EnforceMatchers], in
    the order it reaches them: of an aggregation those of the
    aggregated expression and not those of its parameter, of a matrix
    selector the list of the vector selector it wraps. *)
Fixpoint enforcedSelectors (e : Expr) : list (list Matcher) :=
  match e with
  | AggregateExpr _ e _ => enforcedSelectors e
  | BinaryExpr _ l r => enforcedSelectors l ++ enforcedSelectors r
  | Call _ args => concat (List.map enforcedSelectors args)
  | MatrixSelector vs _ =>
      match vs with
      | VectorSelector _ ms => [ms]
      | _ => []
      end
  | SubqueryExpr e _ | ParenExpr e | UnaryExpr _ e => enforcedSelectors e
  | NumberLiteral _ | StringLiteral _ => []
  | VectorSelector _ ms => [ms]
  end.

(** What [EnforceMatchers] keeps of the targets [ms] when it enforces
    the matcher [m] on [label] and refuses none of them: the matchers
    on other labels where the release drops a target on [label], all
    of [ms] where it keeps it. *)
Definition keptTargets (release : Release) (label : string) (m : Matcher)
    (ms : list Matcher) : list Matcher :=
  if drops release m then Observe.others label ms else ms.

(** The outcome is a result or an error, not a panic. *)
Definition noPanic {A : Type} (o : outcome A) : Prop :=
  ∀ reason, o ≠ Panic reason.

(** The number of bytes [c] in [s]. *)
Fixpoint CountByte (s : string) (c : ascii) : nat :=
  match s with
  | EmptyString => 0
  | String d s' => (if Ascii.eqb d c then 1 else 0) + CountByte s' c
  end.

End Selectors.

(** * Properties *)

(** ** Facts about [Split] and [Join] *)
Module GoStringsFacts.
Import GoStrings.

Lemma Split_nonempty s sep : Split s sep ≠ [].
Proof.
  destruct s as [|c s]; simpl; [done|].
  destruct (Ascii.eqb c sep); [done|].
  destruct (Split s sep); done.
Qed.

Lemma Join_cons e f rest sep :
  Join (e :: f :: rest) sep = e +:+ sep +:+ Join (f :: rest) sep.
Proof. reflexivity. Qed.

(** Joining the fields of a split gives the string back. *)
Lemma Join_Split s sep :
  Join (Split s sep) (String sep EmptyString) = s.
Proof.
  induction s as [|c s IH]; simpl; [done|].
  destruct (Ascii.eqb_spec c sep) as [->|Hne].
  - pose proof (Split_nonempty s sep) as Hn.
    destruct (Split s sep) as [|f fs] eqn:E; [done|].
    rewrite Join_cons, IH. reflexivity.
  - pose proof (Split_nonempty s sep) as Hn.
    destruct (Split s sep) as [|f fs] eqn:E; [done|].
    destruct fs as [|g fs].
    + simpl in *. by rewrite IH.
    + rewrite <- IH. reflexivity.
Qed.




(** The fields of a split never hold the separator. *)
Lemma Split_fields_no_sep s sep :
  Forall (λ e, ContainsByte e sep = false) (Split s sep).
Proof.
  induction s as [|c s IH]; simpl.
  - by repeat constructor.
  - destruct (Ascii.eqb c sep) eqn:Hc.
    + by constructor.
    + destruct (Split s sep) as [|f fs]; [by repeat constructor; simpl; rewrite Hc|].
      inversion_clear IH. constructor; [|done]. simpl. by rewrite Hc.
Qed.


End GoStringsFacts.

(** ** Facts about the traversals *)
Module ParserFacts.
Import labels parser injectproxy.

Lemma Inspect_Children {S} (f : Expr → S → S) node s :
  Inspect f node s = foldl (λ s c, Inspect f c s) (f node s) (Children node).
Proof.
  destruct node as [op e [q|]| | f' args | | | | | | |]; try reflexivity.
  simpl. generalize (f (Call f' args) s). clear s.
  induction args as [|a rest IH]; intros s; simpl; [done|]. apply IH.
Qed.

Lemma EnforceNode_Call ms f args :
  EnforceNode ms (Call f args) = (args' ← EnforceNodes ms args; Ok (Call f args')).
Proof.
  simpl. f_equal. induction args as [|a rest IH]; simpl; [done|].
  by rewrite IH.
Qed.

End ParserFacts.

Module TraversalFacts.
Import labels parser injectproxy Observe ParserFacts.

(** A callback that folds [g] over the matchers of each vector
    selector, and does nothing at other nodes, sees the matchers of
    the tree in one pass. *)
Lemma Inspect_selectorMatchers {S} (h : Expr → S → S) (g : S → Matcher → S) :
  (∀ node s, h node s = match node with
                        | VectorSelector _ ms => foldl g s ms
                        | _ => s
                        end) →
  ∀ e s, Inspect h e s = foldl g s (selectorMatchers e).
Proof.
  intros Hh e.
  induction e as [op e p IHe IHp|op l r IHl IHr|f args IH|vs r IH|e r IH|v
                 |e IH|v|op e IH|n ms] using Expr_nested_ind;
    intros s; simpl; rewrite Hh; try done.
  - rewrite IHe, foldl_app. destruct p as [q|]; [|done]. by rewrite (IHp q).
  - by rewrite IHl, IHr, foldl_app.
  - revert s. induction IH as [|a rest Ha Hrest IHrest]; intros s; simpl; [done|].
    by rewrite Ha, IHrest, foldl_app.
Qed.

Lemma foldl_snoc {A} (ms seen : list A) :
  foldl (λ acc m, acc ++ [m]) seen ms = seen ++ ms.
Proof.
  revert seen. induction ms as [|m ms IH]; intros seen; simpl.
  - by rewrite app_nil_r.
  - by rewrite IH, <- app_assoc.
Qed.

Lemma visited_selectorMatchers e : visited e = selectorMatchers e.
Proof.
  unfold visited.
  rewrite (Inspect_selectorMatchers _ (λ acc m, acc ++ [m])).
  - apply foldl_snoc.
  - intros [] seen; try done. by rewrite foldl_snoc.
Qed.

End TraversalFacts.

(** ** [enforcer_promql.go]: the subset check and the enforced matcher *)
Module EnforcerFacts.
Import GoStrings GoStringsFacts labels parser injectproxy Observe Selectors.
Import ParserFacts TraversalFacts EnforcerPromql.

Section WithConfig.
Variable TenantLabel : string.
Variable MapKeysToArray : gmap string bool → list string.
Variable ParseExpr : string → outcome Expr.
Variable ExprString : Expr → string.
Variable release : Release.

Local Abbreviation checkLabels := (EnforcerPromql.checkLabels TenantLabel).
Local Abbreviation enforceLabels := (EnforcerPromql.enforceLabels TenantLabel MapKeysToArray).
Local Abbreviation enforcedMatcher := (EnforcerPromql.enforcedMatcher TenantLabel).
Local Abbreviation createEnforcer := (EnforcerPromql.createEnforcer TenantLabel release).
Local Abbreviation enforceExpr :=
  (EnforcerPromql.enforceExpr TenantLabel MapKeysToArray release).
Local Abbreviation promqlEnforcer :=
  (EnforcerPromql.promqlEnforcer TenantLabel MapKeysToArray ParseExpr ExprString release).

(** *** The collected map *)

Lemma extract_selectorMatchers e l :
  Inspect collect e l
  = foldl (λ l m, <[Name m := Value m]> l) l (selectorMatchers e).
Proof. apply Inspect_selectorMatchers. by intros []. Qed.

Lemma lastValue_snoc name ms m :
  lastValue name (ms ++ [m])
  = if bool_decide (Name m = name) then Some (Value m) else lastValue name ms.
Proof.
  unfold lastValue. rewrite List.filter_app. simpl.
  destruct (bool_decide (Name m = name)).
  - by rewrite last_snoc.
  - by rewrite app_nil_r.
Qed.


Lemma lookup_foldl_insert (l : gmap string string) ms name :
  foldl (λ l m, <[Name m := Value m]> l) l ms !! name
  = match lastValue name ms with
    | Some v => Some v
    | None => l !! name
    end.
Proof.
  induction ms as [|m ms IH] using rev_ind; [done|].
  rewrite foldl_app, lastValue_snoc. simpl.
  case_bool_decide as Hn.
  - subst. by rewrite lookup_insert_eq.
  - by rewrite lookup_insert_ne.
Qed.

Lemma extract_lookup e name :
  (Inspect collect e ∅ : gmap string string) !! name = lastValue name (visited e).
Proof.
  rewrite extract_selectorMatchers, lookup_foldl_insert, visited_selectorMatchers.
  rewrite lookup_empty. by destruct (lastValue _ _).
Qed.

(** *** The loop of [checkLabels] *)

Lemma checkEach_all tl qls rest :
  Forall (λ q, is_Some (tl !! q)) rest → checkEach tl qls rest = (true, qls).
Proof.
  induction 1 as [|q rest [b Hq] _ IH]; simpl; [done|]. by rewrite Hq.
Qed.

Lemma checkEach_first tl qls pre q post :
  Forall (λ p, is_Some (tl !! p)) pre → tl !! q = None →
  checkEach tl qls (pre ++ q :: post) = (false, [q]).
Proof.
  intros Hpre Hq. induction Hpre as [|p pre [b Hp] _ IH]; simpl.
  - by rewrite Hq.
  - by rewrite Hp.
Qed.

(** Either every field is a key of [tl], or there is a first one
    that is not. *)
Lemma fields_split (tl : gmap string bool) (qls : list string) :
  Forall (λ q, is_Some (tl !! q)) qls
  ∨ ∃ pre q post, qls = pre ++ q :: post
      ∧ Forall (λ p, is_Some (tl !! p)) pre ∧ tl !! q = None.
Proof.
  induction qls as [|q qls IH]; [by left|].
  destruct (tl !! q) as [b|] eqn:Hq.
  - destruct IH as [IH|(pre & q' & post & -> & Hpre & Hq')].
    + left. constructor; eauto.
    + right. exists (q :: pre), q', post. split_and!; [done| |done].
      constructor; eauto.
  - right. by exists [], q, qls.
Qed.

Lemma enforceLabels_accepts l tl v :
  l !! TenantLabel = Some v →
  Forall (λ q, is_Some (tl !! q)) (Split v pipe) →
  enforceLabels l tl = Ok (Split v pipe).
Proof.
  intros Hl Hall. unfold EnforcerPromql.enforceLabels, EnforcerPromql.checkLabels.
  rewrite Hl. simpl. by rewrite checkEach_all.
Qed.

Lemma enforceLabels_rejects l tl v pre q post :
  l !! TenantLabel = Some v →
  Split v pipe = pre ++ q :: post →
  Forall (λ p, is_Some (tl !! p)) pre → tl !! q = None →
  enforceLabels l tl = Err (errorString ("user not allowed with namespace " +:+ q)).
Proof.
  intros Hl Hsplit Hpre Hq.
  unfold EnforcerPromql.enforceLabels, EnforcerPromql.checkLabels.
  rewrite Hl. simpl. rewrite Hsplit. by rewrite checkEach_first.
Qed.

Lemma enforceLabels_default l tl :
  l !! TenantLabel = None → enforceLabels l tl = Ok (MapKeysToArray tl).
Proof. intros Hl. unfold EnforcerPromql.enforceLabels. by rewrite Hl. Qed.

(** With the empty tenant set [enforceLabels] refuses every query
    that carries a matcher on the tenant label, and returns the
    enumeration of the empty set for a query without one: turning
    the empty set away is left to the caller of the enforcer. *)
Lemma enforceLabels_empty_tenant_set l :
  (∀ v, l !! TenantLabel = Some v →
     ∃ q, enforceLabels l ∅
          = Err (errorString ("user not allowed with namespace " +:+ q)))
  ∧ (l !! TenantLabel = None → enforceLabels l ∅ = Ok (MapKeysToArray ∅)).
Proof.
  split; [|apply enforceLabels_default].
  intros v Hl. pose proof (Split_nonempty v pipe) as Hne.
  destruct (Split v pipe) as [|q post] eqn:Hsplit; [done|].
  exists q. by apply (enforceLabels_rejects l ∅ v [] q post).
Qed.

(** [enforceLabels] never takes the index-out-of-range path of
    [tenantLabels[0]]. *)
Lemma enforceLabels_no_panic l tl reason : enforceLabels l tl ≠ Panic reason.
Proof.
  destruct (l !! TenantLabel) as [v|] eqn:Hl.
  - destruct (fields_split tl (Split v pipe)) as [Hall|(pre & q & post & Hs & Hpre & Hq)].
    + by rewrite (enforceLabels_accepts l tl v).
    + by rewrite (enforceLabels_rejects l tl v pre q post).
  - by rewrite enforceLabels_default.
Qed.

(** *** Matcher types do not reach the collected map *)

Lemma selectorMatchers_retype f e :
  selectorMatchers (retype f e) = retypeMatcher f <$> selectorMatchers e.
Proof.
  induction e as [op e p IHe IHp|op l r IHl IHr|fn args IH|vs r IH|e r IH|v
                 |e IH|v|op e IH|n ms] using Expr_nested_ind; simpl; try done.
  - rewrite fmap_app, IHe. f_equal. destruct p as [q|]; simpl; [|done].
    by apply IHp.
  - by rewrite fmap_app, IHl, IHr.
  - induction IH as [|a rest Ha Hrest IHrest]; simpl; [done|].
    by rewrite fmap_app, Ha, IHrest.
Qed.

Lemma foldl_insert_retype f ms (l : gmap string string) :
  foldl (λ l m, <[Name m := Value m]> l) l (retypeMatcher f <$> ms)
  = foldl (λ l m, <[Name m := Value m]> l) l ms.
Proof. revert l. induction ms as [|m ms IH]; intros l; simpl; [done|]. apply IH. Qed.

Lemma extract_retype f e :
  extractLabelsAndValues (retype f e) = extractLabelsAndValues e.
Proof.
  unfold extractLabelsAndValues. f_equal.
  by rewrite !extract_selectorMatchers, selectorMatchers_retype, foldl_insert_retype.
Qed.

Lemma promqlEnforcer_parsed query expr tl :
  ParseExpr query = Ok expr →
  promqlEnforcer query tl
  = (tenantLabels ← enforceLabels (Inspect collect expr ∅) tl;
     expr' ← EnforceNode (createEnforcer tenantLabels) expr;
     Ok (ExprString expr')).
Proof. intros Hparse. unfold EnforcerPromql.promqlEnforcer. by rewrite Hparse. Qed.

Lemma promqlEnforcer_parse_error query tl e :
  ParseExpr query = Err e → promqlEnforcer query tl = Err e.
Proof. intros Hparse. unfold EnforcerPromql.promqlEnforcer. by rewrite Hparse. Qed.

(** *** The claims on the subset check *)

(** C9. The subset check does not look at matcher types: replacing
    the type of every matcher of a query, by any choice [f], leaves
    the collected map unchanged, and so the outcome of
    [enforceLabels]; in particular a not-equal or regex matcher on
    the tenant label is split and checked like an equality value.
    And the collected map holds, for each label name, the value of
    the last matcher of that name that [Inspect] visits: earlier
    matchers of the name take no part in the check. *)
Theorem subset_check_ignores_types_last_matcher_wins :
  (∀ f expr, extractLabelsAndValues (retype f expr) = extractLabelsAndValues expr)
  ∧ (∀ f expr tl,
       (l ← extractLabelsAndValues (retype f expr); enforceLabels l tl)
       = (l ← extractLabelsAndValues expr; enforceLabels l tl))
  ∧ (∀ expr, ∃ l : gmap string string,
       extractLabelsAndValues expr = Ok l
       ∧ (∀ name, l !! name = lastValue name (visited expr))
       ∧ checkLabels l
         = λ tl, let qls := Split (default EmptyString
                                     (lastValue TenantLabel (visited expr))) pipe in
                 checkEach tl qls qls).
Proof.
  split_and!.
  - apply extract_retype.
  - intros f expr tl. by rewrite extract_retype.
  - intros expr. eexists. split; [reflexivity|]. split.
    + intros name. apply extract_lookup.
    + unfold EnforcerPromql.checkLabels. by rewrite extract_lookup.
Qed.

(** *** The enforcer that [createEnforcer] builds *)

Lemma createEnforcer_labelMatchers tenantLabels :
  labelMatchers (createEnforcer tenantLabels)
  = {[TenantLabel := enforcedMatcher tenantLabels]}.
Proof. reflexivity. Qed.

Lemma createEnforcer_lookup tenantLabels name :
  labelMatchers (createEnforcer tenantLabels) !! name
  = if bool_decide (name = TenantLabel) then Some (enforcedMatcher tenantLabels) else None.
Proof.
  rewrite createEnforcer_labelMatchers. case_bool_decide as Hn.
  - subst. apply lookup_singleton_eq.
  - by apply lookup_singleton_ne.
Qed.

Local Abbreviation others := (Observe.others TenantLabel).
Local Abbreviation agrees := (Observe.agrees TenantLabel).
Local Abbreviation keptTargets := (Selectors.keptTargets release TenantLabel).

Lemma keepTargets_cons ms target rest res :
  keepTargets ms (target :: rest) res
  = match labelMatchers ms !! Name target with
    | Some matcher =>
        if errorOnReplace ms && negb (bool_decide (matcher = target))
        then Err (ErrIllegalLabelMatcher target matcher)
        else if drops (enforcerRelease ms) matcher then keepTargets ms rest res
        else keepTargets ms rest (res ++ [target])
    | None => keepTargets ms rest (res ++ [target])
    end.
Proof. reflexivity. Qed.

(** One step of the loop for the enforcer of [createEnforcer]. *)
Lemma keepTargets_step tenantLabels t targets res :
  keepTargets (createEnforcer tenantLabels) (t :: targets) res
  = if bool_decide (Name t = TenantLabel) then
      if bool_decide (enforcedMatcher tenantLabels = t) then
        if drops release (enforcedMatcher tenantLabels)
        then keepTargets (createEnforcer tenantLabels) targets res
        else keepTargets (createEnforcer tenantLabels) targets (res ++ [t])
      else Err (ErrIllegalLabelMatcher t (enforcedMatcher tenantLabels))
    else keepTargets (createEnforcer tenantLabels) targets (res ++ [t]).
Proof.
  rewrite keepTargets_cons, createEnforcer_lookup.
  change (errorOnReplace (createEnforcer tenantLabels)) with true.
  change (enforcerRelease (createEnforcer tenantLabels)) with release.
  case_bool_decide; [|done]. simpl. by case_bool_decide.
Qed.

Lemma keptTargets_cons m t targets :
  keptTargets m (t :: targets)
  = if bool_decide (Name t = TenantLabel) && drops release m
    then keptTargets m targets else t :: keptTargets m targets.
Proof.
  unfold Selectors.keptTargets, Observe.others. simpl.
  destruct (drops release m); [|by rewrite andb_false_r].
  rewrite andb_true_r. by case_bool_decide.
Qed.

Lemma keptTargets_nil m : keptTargets m [] = [].
Proof. unfold Selectors.keptTargets. by destruct (drops release m). Qed.

Lemma keepTargets_Ok tenantLabels targets res kept :
  keepTargets (createEnforcer tenantLabels) targets res = Ok kept →
  kept = res ++ keptTargets (enforcedMatcher tenantLabels) targets
  ∧ agrees (enforcedMatcher tenantLabels) targets.
Proof.
  unfold Observe.agrees.
  revert res. induction targets as [|t targets IH]; intros res.
  - simpl. intros [= <-]. rewrite keptTargets_nil, app_nil_r. by split.
  - rewrite keepTargets_step, keptTargets_cons.
    case_bool_decide as Hn; simpl.
    + case_bool_decide as Ht; [|done].
      destruct (drops release (enforcedMatcher tenantLabels)).
      * intros [-> Hag]%IH. split; [done|]. constructor; [by intros _|apply Hag].
      * intros [-> Hag]%IH. split; [by rewrite <- app_assoc|].
        constructor; [by intros _|apply Hag].
    + intros [-> Hag]%IH. split; [by rewrite <- app_assoc|].
      constructor; [done|apply Hag].
Qed.

Lemma keepTargets_agrees tenantLabels targets res :
  agrees (enforcedMatcher tenantLabels) targets →
  keepTargets (createEnforcer tenantLabels) targets res
  = Ok (res ++ keptTargets (enforcedMatcher tenantLabels) targets).
Proof.
  unfold Observe.agrees. intros Hag. revert res.
  induction Hag as [|t targets Ht _ IH]; intros res.
  - simpl. by rewrite keptTargets_nil, app_nil_r.
  - rewrite keepTargets_step, keptTargets_cons.
    case_bool_decide as Hn; simpl.
    + rewrite bool_decide_true by (symmetry; auto).
      destruct (drops release (enforcedMatcher tenantLabels)); rewrite IH; [done|].
      by rewrite <- app_assoc.
    + rewrite IH. by rewrite <- app_assoc.
Qed.

(** What the loop returns when it refuses. *)
Lemma keepTargets_Err tenantLabels targets res e :
  keepTargets (createEnforcer tenantLabels) targets res = Err e →
  ∃ target,
    target ∈ targets ∧ Name target = TenantLabel
    ∧ target ≠ enforcedMatcher tenantLabels
    ∧ e = ErrIllegalLabelMatcher target (enforcedMatcher tenantLabels).
Proof.
  revert res. induction targets as [|t targets IH]; intros res; [done|].
  rewrite keepTargets_step.
  assert (∀ res', keepTargets (createEnforcer tenantLabels) targets res' = Err e →
            ∃ target,
              target ∈ t :: targets ∧ Name target = TenantLabel
              ∧ target ≠ enforcedMatcher tenantLabels
              ∧ e = ErrIllegalLabelMatcher target (enforcedMatcher tenantLabels)) as Hrest.
  { intros res' (target & Hin & Hrest)%IH. exists target.
    split; [by apply list_elem_of_further|done]. }
  case_bool_decide as Hn; [|apply Hrest].
  case_bool_decide as Ht.
  - destruct (drops release (enforcedMatcher tenantLabels)); apply Hrest.
  - intros [= <-]. exists t. split; [apply list_elem_of_here|]. split; [done|].
    split; [congruence|done].
Qed.

Lemma keepTargets_no_panic le targets res : noPanic (keepTargets le targets res).
Proof.
  revert res. induction targets as [|t targets IH]; intros res reason; simpl; [done|].
  destruct (labelMatchers le !! Name t); [|apply IH].
  destruct (errorOnReplace le && negb (bool_decide (_ = t))); [done|].
  destruct (drops _ _); apply IH.
Qed.

Lemma EnforceMatchers_Ok tenantLabels targets enforced :
  EnforceMatchers (createEnforcer tenantLabels) targets = Ok enforced ↔
  enforced = keptTargets (enforcedMatcher tenantLabels) targets
             ++ [enforcedMatcher tenantLabels]
  ∧ agrees (enforcedMatcher tenantLabels) targets.
Proof.
  unfold EnforceMatchers. rewrite createEnforcer_labelMatchers, map_to_list_singleton.
  split.
  - destruct (keepTargets _ _ _) as [kept| |] eqn:Hk; simpl; try done.
    intros [= <-]. apply keepTargets_Ok in Hk as [-> Hag]. done.
  - intros [-> Hag]. by rewrite keepTargets_agrees.
Qed.

Lemma EnforceMatchers_Err tenantLabels targets e :
  EnforceMatchers (createEnforcer tenantLabels) targets = Err e →
  ∃ target,
    target ∈ targets ∧ Name target = TenantLabel
    ∧ target ≠ enforcedMatcher tenantLabels
    ∧ e = ErrIllegalLabelMatcher target (enforcedMatcher tenantLabels).
Proof.
  unfold EnforceMatchers.
  destruct (keepTargets _ _ _) as [kept| |] eqn:Hk; simpl; try done.
  intros [= <-]. by apply keepTargets_Err in Hk.
Qed.






(** *** Enforcing a tree *)

Ltac bind_ok H :=
  match type of H with
  | context [mbind _ ?m] =>
      let E := fresh "E" in
      destruct m eqn:E; simpl in H; [|discriminate H..]
  end.

Lemma noPanic_bind {A B} (m : outcome A) (f : A → outcome B) :
  noPanic m → (∀ a, noPanic (f a)) → noPanic (m ≫= f).
Proof.
  intros Hm Hf reason. destruct m as [a|e|r]; simpl; [apply Hf|done|].
  intros [= ->]. by apply (Hm reason).
Qed.

Lemma noPanic_Ok {A} (a : A) : noPanic (Ok a).
Proof. by intros reason. Qed.

Lemma EnforceMatchers_no_panic le targets : noPanic (EnforceMatchers le targets).
Proof.
  unfold EnforceMatchers. apply noPanic_bind; [apply keepTargets_no_panic|].
  intros res. apply noPanic_Ok.
Qed.

Lemma EnforceNodes_no_panic le args :
  Forall (λ e, noPanic (EnforceNode le e)) args → noPanic (EnforceNodes le args).
Proof.
  induction 1 as [|a rest Ha _ IH]; simpl; [apply noPanic_Ok|].
  apply noPanic_bind; [done|]. intros a'.
  apply noPanic_bind; [done|]. intros rest'. apply noPanic_Ok.
Qed.

Lemma EnforceNode_no_panic le e : noPanic (EnforceNode le e).
Proof.
  induction e as [op e p IHe IHp|op l r IHl IHr|fn args IH|vs r IH|e r IH|v
                 |e IH|v|op e IH|n ms] using Expr_nested_ind;
    try rewrite EnforceNode_Call; simpl.
  - apply noPanic_bind; [done|]. intros e'. apply noPanic_Ok.
  - apply noPanic_bind; [done|]. intros l'.
    apply noPanic_bind; [done|]. intros r'. apply noPanic_Ok.
  - apply noPanic_bind; [by apply EnforceNodes_no_panic|]. intros args'. apply noPanic_Ok.
  - destruct vs; try apply noPanic_Ok.
    apply noPanic_bind; [apply EnforceMatchers_no_panic|]. intros lm. apply noPanic_Ok.
  - apply noPanic_bind; [done|]. intros e'. apply noPanic_Ok.
  - apply noPanic_Ok.
  - apply noPanic_bind; [done|]. intros e'. apply noPanic_Ok.
  - apply noPanic_Ok.
  - apply noPanic_bind; [done|]. intros e'. apply noPanic_Ok.
  - apply noPanic_bind; [apply EnforceMatchers_no_panic|]. intros lm. apply noPanic_Ok.
Qed.






(** *** The selectors that the enforcer reaches *)

Lemma EnforceNodes_selectors le m args :
  Forall (λ e, ∀ e', EnforceNode le e = Ok e' →
            Forall (agrees m) (enforcedSelectors e)
            ∧ enforcedSelectors e'
              = (λ ms, keptTargets m ms ++ [m]) <$> enforcedSelectors e) args →
  ∀ args', EnforceNodes le args = Ok args' →
    Forall (agrees m) (concat (List.map enforcedSelectors args))
    ∧ concat (List.map enforcedSelectors args')
      = (λ ms, keptTargets m ms ++ [m]) <$> concat (List.map enforcedSelectors args).
Proof.
  induction 1 as [|a rest Ha _ IH]; intros args' H; simpl in H.
  - injection H as <-. by split.
  - bind_ok H. bind_ok H. injection H as <-. simpl.
    destruct (Ha _ eq_refl) as [Hag Hsel]. destruct (IH _ eq_refl) as [Hags Hsels].
    split; [by apply Forall_app|]. by rewrite fmap_app, Hsel, Hsels.
Qed.

Lemma EnforceNode_selectors tenantLabels e : ∀ e',
  EnforceNode (createEnforcer tenantLabels) e = Ok e' →
  Forall (agrees (enforcedMatcher tenantLabels)) (enforcedSelectors e)
  ∧ enforcedSelectors e'
    = (λ ms, keptTargets (enforcedMatcher tenantLabels) ms
             ++ [enforcedMatcher tenantLabels]) <$> enforcedSelectors e.
Proof.
  pose proof (EnforceMatchers_Ok tenantLabels) as Hms.
  revert Hms. generalize (enforcedMatcher tenantLabels) (createEnforcer tenantLabels).
  intros m le Hms.
  induction e as [op e p IHe IHp|op l r IHl IHr|fn args IH|vs r IH|e r IH|v
                 |e IH|v|op e IH|n ms] using Expr_nested_ind; intros e' H.
  - simpl in H. bind_ok H. injection H as <-. simpl. by apply IHe.
  - simpl in H. bind_ok H. bind_ok H. injection H as <-. simpl.
    destruct (IHl _ eq_refl) as [Hl Hsl]. destruct (IHr _ eq_refl) as [Hr Hsr].
    split; [by apply Forall_app|]. by rewrite fmap_app, Hsl, Hsr.
  - rewrite EnforceNode_Call in H. bind_ok H. injection H as <-. simpl.
    by apply (EnforceNodes_selectors le m args IH).
  - destruct vs; simpl in H; try (injection H as <-; by split).
    bind_ok H. injection H as <-. simpl.
    apply Hms in E as [-> Hag]. split; [by repeat constructor|done].
  - simpl in H. bind_ok H. injection H as <-. simpl. by apply IH.
  - injection H as <-. by split.
  - simpl in H. bind_ok H. injection H as <-. simpl. by apply IH.
  - injection H as <-. by split.
  - simpl in H. bind_ok H. injection H as <-. simpl. by apply IH.
  - simpl in H. bind_ok H. injection H as <-. simpl.
    apply Hms in E as [-> Hag]. split; [by repeat constructor|done].
Qed.

Lemma EnforceNodes_succeeds le m args :
  Forall (λ e, Forall (agrees m) (enforcedSelectors e) →
            ∃ e', EnforceNode le e = Ok e') args →
  Forall (agrees m) (concat (List.map enforcedSelectors args)) →
  ∃ args', EnforceNodes le args = Ok args'.
Proof.
  induction 1 as [|a rest Ha _ IH]; simpl; [by eexists|].
  intros [Hag Hags]%Forall_app.
  destruct (Ha Hag) as [a' ->]. destruct (IH Hags) as [rest' ->]. by eexists.
Qed.

Lemma EnforceNode_succeeds tenantLabels e :
  Forall (agrees (enforcedMatcher tenantLabels)) (enforcedSelectors e) →
  ∃ e', EnforceNode (createEnforcer tenantLabels) e = Ok e'.
Proof.
  pose proof (EnforceMatchers_Ok tenantLabels) as Hms.
  revert Hms. generalize (enforcedMatcher tenantLabels) (createEnforcer tenantLabels).
  intros m le Hms.
  induction e as [op e p IHe IHp|op l r IHl IHr|fn args IH|vs r IH|e r IH|v
                 |e IH|v|op e IH|n ms] using Expr_nested_ind; intros Hag;
    simpl in Hag; try rewrite EnforceNode_Call; simpl.
  - destruct (IHe Hag) as [e' ->]. by eexists.
  - apply Forall_app in Hag as [Hl Hr].
    destruct (IHl Hl) as [l' ->]. destruct (IHr Hr) as [r' ->]. by eexists.
  - destruct (EnforceNodes_succeeds le m args IH Hag) as [args' ->]. by eexists.
  - destruct vs; try by eexists.
    inversion_clear Hag as [|? ? Hone _].
    rewrite (proj2 (Hms LabelMatchers _) (conj eq_refl Hone)). by eexists.
  - destruct (IH Hag) as [e' ->]. by eexists.
  - by eexists.
  - destruct (IH Hag) as [e' ->]. by eexists.
  - by eexists.
  - destruct (IH Hag) as [e' ->]. by eexists.
  - inversion_clear Hag as [|? ? Hone _].
    rewrite (proj2 (Hms ms _) (conj eq_refl Hone)). by eexists.
Qed.

(** An error of [EnforceNode] is the refusal of a target. *)
Lemma EnforceNodes_Err le (P : error → Prop) args :
  Forall (λ e, ∀ err, EnforceNode le e = Err err → P err) args →
  ∀ err, EnforceNodes le args = Err err → P err.
Proof.
  induction 1 as [|a rest Ha _ IH]; intros err H; simpl in H; [done|].
  destruct (EnforceNode le a) as [a'|e|r] eqn:Ea; simpl in H; [|by injection H as <-; apply Ha|done].
  destruct (EnforceNodes le rest) as [rest'|e|r] eqn:Er; simpl in H; [done| |done].
  injection H as <-. by apply IH.
Qed.

Lemma EnforceNode_Err tenantLabels e err :
  EnforceNode (createEnforcer tenantLabels) e = Err err →
  ∃ target,
    Name target = TenantLabel ∧ target ≠ enforcedMatcher tenantLabels
    ∧ err = ErrIllegalLabelMatcher target (enforcedMatcher tenantLabels).
Proof.
  assert (∀ targets err,
            EnforceMatchers (createEnforcer tenantLabels) targets = Err err →
            ∃ target,
              Name target = TenantLabel ∧ target ≠ enforcedMatcher tenantLabels
              ∧ err = ErrIllegalLabelMatcher target (enforcedMatcher tenantLabels)) as Hms.
  { intros targets err' (target & _ & Hrest)%EnforceMatchers_Err. by exists target. }
  revert Hms. generalize (enforcedMatcher tenantLabels) (createEnforcer tenantLabels).
  intros m le Hms. revert err.
  induction e as [op e p IHe IHp|op l r IHl IHr|fn args IH|vs r IH|e r IH|v
                 |e IH|v|op e IH|n ms] using Expr_nested_ind; intros err H;
    try rewrite EnforceNode_Call in H; simpl in H.
  - destruct (EnforceNode le e) eqn:E; simpl in H; try done.
    injection H as <-. by apply IHe.
  - destruct (EnforceNode le l) eqn:El; simpl in H; [|by injection H as <-; apply IHl|done].
    destruct (EnforceNode le r) eqn:Er; simpl in H; try done.
    injection H as <-. by apply IHr.
  - destruct (EnforceNodes le args) eqn:E; simpl in H; try done.
    injection H as <-.
    by apply (EnforceNodes_Err le
                (λ err, ∃ target, Name target = TenantLabel ∧ target ≠ m
                                  ∧ err = ErrIllegalLabelMatcher target m) args IH).
  - destruct vs; try done. simpl in H.
    destruct (EnforceMatchers le LabelMatchers) eqn:E; simpl in H; try done.
    injection H as <-. by apply (Hms LabelMatchers).
  - destruct (EnforceNode le e) eqn:E; simpl in H; try done.
    injection H as <-. by apply IH.
  - done.
  - destruct (EnforceNode le e) eqn:E; simpl in H; try done.
    injection H as <-. by apply IH.
  - done.
  - destruct (EnforceNode le e) eqn:E; simpl in H; try done.
    injection H as <-. by apply IH.
  - destruct (EnforceMatchers le ms) eqn:E; simpl in H; try done.
    injection H as <-. by apply (Hms ms).
Qed.


Lemma enforceLabels_Ok_inbound l tl v tenantLabels :
  l !! TenantLabel = Some v →
  enforceLabels l tl = Ok tenantLabels →
  tenantLabels = Split v pipe ∧ Forall (λ q, is_Some (tl !! q)) tenantLabels.
Proof.
  intros Hl Hok.
  destruct (fields_split tl (Split v pipe)) as [Hall|(pre & q & post & Hs & Hpre & Hq)].
  - rewrite (enforceLabels_accepts l tl v Hl Hall) in Hok. by injection Hok as <-.
  - by rewrite (enforceLabels_rejects l tl v pre q post Hl Hs Hpre Hq) in Hok.
Qed.


(** C4, as amended. The matcher that [createEnforcer] hands to the
    enforcer is on the tenant label, its value is the effective
    tenant list joined by ['|'] in the order the list is held, with
    no sorting, and its type is regex-match when the list has more
    than one member and equal when it has one or none. For an
    accepted inbound tenant matcher the list is the fields of its
    value in inbound order, so the enforced value is the inbound
    value itself. The output for such a query does not depend on
    the order in which the keys of the tenant set are enumerated;
    for a query without a tenant matcher it is the same for two
    invocations that enumerate the keys in the same order. *)
Theorem enforced_matcher_in_held_order :
  (∀ tenantLabels,
     labelMatchers (createEnforcer tenantLabels)
     = {[TenantLabel := enforcedMatcher tenantLabels]}
     ∧ Name (enforcedMatcher tenantLabels) = TenantLabel
     ∧ Value (enforcedMatcher tenantLabels) = Join tenantLabels (String pipe EmptyString)
     ∧ (1 < length tenantLabels → Type_ (enforcedMatcher tenantLabels) = MatchRegexp)
     ∧ (length tenantLabels ≤ 1 → Type_ (enforcedMatcher tenantLabels) = MatchEqual))
  ∧ (∀ l tl v tenantLabels,
       l !! TenantLabel = Some v →
       enforceLabels l tl = Ok tenantLabels →
       tenantLabels = Split v pipe ∧ Value (enforcedMatcher tenantLabels) = v)
  ∧ (∀ keys query expr tl,
       ParseExpr query = Ok expr →
       is_Some (lastValue TenantLabel (visited expr)) →
       EnforcerPromql.promqlEnforcer TenantLabel keys ParseExpr ExprString release query tl
       = promqlEnforcer query tl)
  ∧ (∀ keys query tl,
       keys tl = MapKeysToArray tl →
       EnforcerPromql.promqlEnforcer TenantLabel keys ParseExpr ExprString release query tl
       = promqlEnforcer query tl).
Proof.
  split_and!.
  - intros tenantLabels. split_and!; try done.
    + intros Hlen. unfold EnforcerPromql.enforcedMatcher. simpl.
      by rewrite decide_True.
    + intros Hlen. unfold EnforcerPromql.enforcedMatcher. simpl.
      rewrite decide_False; [done|lia].
  - intros l tl v tenantLabels Hl Hok.
    destruct (enforceLabels_Ok_inbound l tl v tenantLabels Hl Hok) as [-> _].
    split; [done|]. apply Join_Split.
  - intros keys query expr tl Hparse [v Hv].
    unfold EnforcerPromql.promqlEnforcer. rewrite Hparse. simpl.
    unfold EnforcerPromql.enforceLabels.
    by rewrite extract_lookup, Hv.
  - intros keys query tl Hkeys.
    unfold EnforcerPromql.promqlEnforcer, EnforcerPromql.enforceLabels.
    by rewrite Hkeys.
Qed.

(** C1, as amended. For a query that carries a matcher on the tenant
    label (the collected map [l] holds a value [v] for it) and every
    tenant set [tl]: the value is split on ['|'] into [Q]. When every
    field of [Q] is a key of [tl], [enforceLabels] returns [Q] as the
    effective tenant list, and [promqlEnforcer] goes on to enforce
    the matcher built from [Q]; the rewrite then succeeds when every
    matcher on the tenant label, in every selector that the enforcer
    reaches, is that matcher, in name, type and value, and else it
    returns the error of the library that names a matcher which is
    not. When not every field of [Q] is a key of [tl], there is a
    first field of [Q] that is not, and [enforceLabels] and with it
    [promqlEnforcer] return the error that names this field. The
    query is not narrowed to the allowed fields. *)
Theorem subset_check_then_enforcement query expr l tl v :
  ParseExpr query = Ok expr →
  extractLabelsAndValues expr = Ok l →
  l !! TenantLabel = Some v →
  (Forall (λ q, is_Some (tl !! q)) (Split v pipe) →
     enforceLabels l tl = Ok (Split v pipe)
     ∧ promqlEnforcer query tl
       = (expr' ← EnforceNode (createEnforcer (Split v pipe)) expr;
          Ok (ExprString expr'))
     ∧ (Forall (agrees (enforcedMatcher (Split v pipe))) (enforcedSelectors expr) →
        ∃ expr', promqlEnforcer query tl = Ok (ExprString expr'))
     ∧ (¬ Forall (agrees (enforcedMatcher (Split v pipe))) (enforcedSelectors expr) →
        ∃ target,
          Name target = TenantLabel ∧ target ≠ enforcedMatcher (Split v pipe)
          ∧ promqlEnforcer query tl
            = Err (ErrIllegalLabelMatcher target (enforcedMatcher (Split v pipe)))))
  ∧ (¬ Forall (λ q, is_Some (tl !! q)) (Split v pipe) →
     ∃ pre q post,
       Split v pipe = pre ++ q :: post
       ∧ Forall (λ p, is_Some (tl !! p)) pre ∧ tl !! q = None
       ∧ enforceLabels l tl
         = Err (errorString ("user not allowed with namespace " +:+ q))
       ∧ promqlEnforcer query tl
         = Err (errorString ("user not allowed with namespace " +:+ q))).
Proof.
  intros Hparse Hextract Hl. split.
  - intros Hall. pose proof (enforceLabels_accepts l tl v Hl Hall) as Hok.
    injection Hextract as <-.
    assert (promqlEnforcer query tl
            = (expr' ← EnforceNode (createEnforcer (Split v pipe)) expr;
               Ok (ExprString expr'))) as Hrun
      by (by rewrite (promqlEnforcer_parsed _ _ _ Hparse), Hok).
    split; [done|]. split; [done|]. rewrite Hrun. split.
    + intros [expr' ->]%EnforceNode_succeeds. by exists expr'.
    + intros Hnot.
      destruct (EnforceNode (createEnforcer (Split v pipe)) expr) as [expr'|err|reason]
        eqn:Hnode; simpl.
      * by apply EnforceNode_selectors in Hnode as [Hag _].
      * apply EnforceNode_Err in Hnode as (target & Hname & Hne & ->). by exists target.
      * by apply EnforceNode_no_panic in Hnode.
  - intros Hnot.
    destruct (fields_split tl (Split v pipe))
      as [Hall|(pre & q & post & Hs & Hpre & Hq)]; [done|].
    pose proof (enforceLabels_rejects l tl v pre q post Hl Hs Hpre Hq) as Herr.
    exists pre, q, post. split_and!; try done.
    injection Hextract as <-.
    by rewrite (promqlEnforcer_parsed _ _ _ Hparse), Herr.
Qed.


End WithConfig.
End EnforcerFacts.

(** ** The enforcer on query texts *)
Module EnforcerExamples.
Import GoStrings labels parser injectproxy Observe.

Ltac by_decide :=
  match goal with
  | |- ?P => apply (@bool_decide_unpack P _); vm_compute; exact I
  end.

(** The scenarios 1 to 4 of the specification. *)
Example simple_rewrite :
  Reference.promqlEnforcer "up" (Reference.tenants ["team-a"])
  = Ok (Reference.onNamespace "up" "=" "team-a").
Proof. vm_compute. reflexivity. Qed.

Example multi_tenant_regex :
  Reference.ExprString <$>
    (match Reference.enforceExpr
             (Call "rate"
                [MatrixSelector
                   (VectorSelector "http_requests_total"
                      [{| Name := MetricName; Type_ := MatchEqual;
                          Value := "http_requests_total" |}]) "5m"])
             (Reference.tenants ["team-a"; "team-b"])
     with Ok e => Some e | _ => None end)
  = Some ("rate(" +:+ Reference.onNamespace "http_requests_total" "=~" "team-a|team-b"
          +:+ "[5m])").
Proof. vm_compute. reflexivity. Qed.

Example inbound_accepted :
  Reference.promqlEnforcer (Reference.onNamespace "up" "=~" "a|b")
    (Reference.tenants ["a"; "b"; "c"])
  = Ok (Reference.onNamespace "up" "=~" "a|b").
Proof. vm_compute. reflexivity. Qed.

Example inbound_rejected :
  Reference.promqlEnforcer (Reference.onNamespace "up" "=" "c")
    (Reference.tenants ["a"; "b"])
  = Err (errorString "user not allowed with namespace c").
Proof. vm_compute. reflexivity. Qed.

(** The claim C1 as written fails: for [up{namespace=~"a"}] and the
    one tenant a, every field of the inbound value is a tenant, and
    the rewrite does not succeed. The enforced matcher for a list of
    one member is the equal matcher [namespace="a"], and the library
    refuses the regex matcher of the query, which differs from it in
    type. So it is at either release of the library. *)
Lemma accepted_subset_refused_counterexample :
  let query := Reference.onNamespace "up" "=~" "a" in
  let inbound := {| Name := "namespace"; Type_ := MatchRegexp; Value := "a" |} in
  let enforced := {| Name := "namespace"; Type_ := MatchEqual; Value := "a" |} in
  let expr :=
    VectorSelector "up"
      [inbound; {| Name := MetricName; Type_ := MatchEqual; Value := "up" |}] in
  let tl := Reference.tenants ["a"] in
  Reference.ParseExpr query = Ok expr
  ∧ Forall (λ q, is_Some (tl !! q)) (Split "a" pipe)
  ∧ Reference.enforceLabels (Inspect EnforcerPromql.collect expr ∅) tl = Ok ["a"]
  ∧ ∀ release,
      Reference.promqlEnforcerAt release query tl
      = Err (ErrIllegalLabelMatcher inbound enforced).
Proof.
  intros query inbound enforced expr tl.
  split; [vm_compute; reflexivity|]. split; [by_decide|].
  split; [vm_compute; reflexivity|]. intros []; vm_compute; reflexivity.
Qed.

(** The amended C1 at [up{namespace=~"a|b"}]: for the tenants a, b
    and c the list is accepted and the rewrite succeeds, the matcher
    of the query being the enforced regex matcher; for the tenant a
    alone it is refused, naming b. *)
Lemma subset_check_then_enforcement_witness :
  let query := Reference.onNamespace "up" "=~" "a|b" in
  let expr :=
    VectorSelector "up"
      [{| Name := "namespace"; Type_ := MatchRegexp; Value := "a|b" |};
       {| Name := MetricName; Type_ := MatchEqual; Value := "up" |}] in
  let l : gmap string string := <["__name__" := "up"]> {["namespace" := "a|b"]} in
  Reference.ParseExpr query = Ok expr
  ∧ EnforcerPromql.extractLabelsAndValues expr = Ok l
  ∧ l !! Reference.TenantLabel = Some "a|b"
  ∧ Reference.enforceLabels l (Reference.tenants ["a"; "b"; "c"]) = Ok ["a"; "b"]
  ∧ (∃ expr',
       Reference.promqlEnforcer query (Reference.tenants ["a"; "b"; "c"])
       = Ok (Reference.ExprString expr'))
  ∧ ∃ pre q post,
      Split "a|b" pipe = pre ++ q :: post
      ∧ Reference.promqlEnforcer query (Reference.tenants ["a"])
        = Err (errorString ("user not allowed with namespace " +:+ q)).
Proof.
  intros query expr l.
  assert (Reference.ParseExpr query = Ok expr) as Hparse by (vm_compute; reflexivity).
  assert (EnforcerPromql.extractLabelsAndValues expr = Ok l) as Hextract
    by (vm_compute; reflexivity).
  assert (l !! Reference.TenantLabel = Some "a|b") as Hl by (vm_compute; reflexivity).
  split; [exact Hparse|]. split; [exact Hextract|]. split; [exact Hl|].
  destruct (EnforcerFacts.subset_check_then_enforcement
              Reference.TenantLabel Reference.MapKeysToArray
              Reference.ParseExpr Reference.ExprString injectproxy.DropsTarget
              query expr l (Reference.tenants ["a"; "b"; "c"]) "a|b" Hparse Hextract Hl)
    as [Hacc _].
  destruct Hacc as (Hok & _ & Hagree & _); [by_decide|].
  split; [exact Hok|]. split.
  - apply Hagree. by_decide.
  - destruct (EnforcerFacts.subset_check_then_enforcement
                Reference.TenantLabel Reference.MapKeysToArray
                Reference.ParseExpr Reference.ExprString injectproxy.DropsTarget
                query expr l (Reference.tenants ["a"]) "a|b" Hparse Hextract Hl)
      as [_ Hrej].
    destruct Hrej as (pre & q & post & Hs & _ & _ & _ & Herr).
    + by_decide.
    + exists pre, q, post. split; [exact Hs|exact Herr].
Defined.

(** The claim C4 as written fails: for the inbound matcher
    [namespace=~"b|a"] and the tenants a and b the effective list is
    b, a; it has more than one member, and the enforced value is
    [b|a], not the sorted join [a|b]. *)
Lemma sorted_join_counterexample :
  Reference.enforceLabels {["namespace" := "b|a"]} (Reference.tenants ["a"; "b"])
  = Ok ["b"; "a"]
  ∧ 1 < length ["b"; "a"]
  ∧ Value (Reference.enforcedMatcher ["b"; "a"]) = "b|a"
  ∧ Join (sortStrings ["b"; "a"]) (String pipe EmptyString) = "a|b"
  ∧ Value (Reference.enforcedMatcher ["b"; "a"])
    ≠ Join (sortStrings ["b"; "a"]) (String pipe EmptyString)
  ∧ Reference.promqlEnforcer (Reference.onNamespace "up" "=~" "b|a")
      (Reference.tenants ["a"; "b"])
    = Ok (Reference.onNamespace "up" "=~" "b|a").
Proof.
  split; [vm_compute; reflexivity|]. split; [simpl; lia|].
  split; [vm_compute; reflexivity|]. split; [vm_compute; reflexivity|].
  split; [vm_compute; discriminate|]. vm_compute; reflexivity.
Qed.

(** The amended C4 at the same input, with a second enumeration of
    the keys in the opposite order. *)
Lemma enforced_matcher_in_held_order_witness :
  let l : gmap string string := {["namespace" := "b|a"]} in
  let tl := Reference.tenants ["a"; "b"] in
  let query := Reference.onNamespace "up" "=~" "b|a" in
  let keys := λ tl : gmap string bool, reverse (Reference.MapKeysToArray tl) in
  (["b"; "a"] = Split "b|a" pipe ∧ Value (Reference.enforcedMatcher ["b"; "a"]) = "b|a")
  ∧ EnforcerPromql.promqlEnforcer Reference.TenantLabel keys
      Reference.ParseExpr Reference.ExprString injectproxy.DropsTarget query tl
    = Reference.promqlEnforcer query tl
  ∧ EnforcerPromql.promqlEnforcer Reference.TenantLabel Reference.MapKeysToArray
      Reference.ParseExpr Reference.ExprString injectproxy.DropsTarget "up" tl
    = Reference.promqlEnforcer "up" tl.
Proof.
  intros l tl query keys.
  destruct (EnforcerFacts.enforced_matcher_in_held_order
              Reference.TenantLabel Reference.MapKeysToArray
              Reference.ParseExpr Reference.ExprString injectproxy.DropsTarget)
    as (_ & Hinbound & Hquery & Hkeys).
  split; [|split].
  - apply (Hinbound l tl); vm_compute; reflexivity.
  - apply (Hquery keys query
             (VectorSelector "up"
                [{| Name := "namespace"; Type_ := MatchRegexp; Value := "b|a" |};
                 {| Name := MetricName; Type_ := MatchEqual; Value := "up" |}]) tl).
    + vm_compute. reflexivity.
    + exists "b|a". vm_compute. reflexivity.
  - apply Hkeys. reflexivity.
Defined.



End EnforcerExamples.

(** ** [main.go]: what the handler answers *)
Module ProxyFacts.
Import GoStrings neturl Proxy.

Lemma sliceFrom_short s n : String.length s < n → sliceFrom s n = None.
Proof.
  revert n. induction s as [|c s IH]; intros [|n] Hlen; simpl in *; try lia; [done|].
  apply IH. lia.
Qed.

Lemma sliceFrom_long s n : n ≤ String.length s → is_Some (sliceFrom s n).
Proof.
  revert n. induction s as [|c s IH]; intros [|n] Hlen; simpl in *; try lia; eauto.
  apply IH. lia.
Qed.

Section WithEnvironment.
Variable ParseWithClaims : string → option Token * KeycloakToken.
Variable Getenv : string → string.
Variable GetLabelsFromRoleBindings : string → list string.
Variable ServiceAccountToken : string.
Variable URLString : URL → string.
Variable Parse : string → option URL.
Variable Do : Request → Response + RoundTripError.
Variable DoTokenExchange : list (string * string) → option string.
Variables (originBypassServerURL originServerURL : URL) (tenantLabel : string).

Local Abbreviation proxyRequest := (Proxy.proxyRequest Do).
Local Abbreviation handler :=
  (Proxy.configureProxy ParseWithClaims Getenv GetLabelsFromRoleBindings
     ServiceAccountToken URLString Parse Do DoTokenExchange
     originBypassServerURL tenantLabel originServerURL).

Lemma proxyRequest_events events req :
  Proxy.events (proxyRequest events req) = events ++ [Sent (cleared req)].
Proof. unfold Proxy.proxyRequest. by destruct (Do _). Qed.

Lemma proxyRequest_response events req resp :
  Do (cleared req) = inl resp →
  result (proxyRequest events req)
  = Ok {| status := StatusOK; header := []; body := Body resp |}.
Proof. intros HDo. unfold Proxy.proxyRequest. by rewrite HDo. Qed.

Lemma proxyRequest_error events req err :
  Do (cleared req) = inr err →
  result (proxyRequest events req)
  = Ok {| status := StatusInternalServerError; header := []; body := Error err |}.
Proof. intros HDo. unfold Proxy.proxyRequest. by rewrite HDo. Qed.

(** A run of the handler that sends a request upstream ends in
    [proxyRequest], and sends nothing before. *)
Lemma handler_sends req sent :
  Sent sent ∈ events (handler req) →
  ∃ before forwarded,
    handler req = proxyRequest before forwarded
    ∧ noneSent before ∧ sent = cleared forwarded.
Proof.
  unfold Proxy.configureProxy.
  assert (∀ before forwarded, noneSent before →
            Sent sent ∈ events (proxyRequest before forwarded) →
            ∃ before' forwarded',
              proxyRequest before forwarded = proxyRequest before' forwarded'
              ∧ noneSent before' ∧ sent = cleared forwarded') as Hsend.
  { intros before forwarded Hnone Hin. exists before, forwarded.
    split; [done|]. split; [done|].
    rewrite proxyRequest_events in Hin.
    apply elem_of_app in Hin as [Hin|Hin]; [by apply Hnone in Hin|].
    apply list_elem_of_singleton in Hin. by injection Hin. }
  assert (noneSent []) as Hnil by (intros s Hs; by apply not_elem_of_nil in Hs).
  assert (∀ e, (∀ s, e ≠ Sent s) → noneSent [e]) as Hone.
  { intros e He s Hs. apply list_elem_of_singleton in Hs. by apply (He s). }
  repeat (case_match; simpl; try (by intros ?%not_elem_of_nil));
    try (intros Hin; apply list_elem_of_singleton in Hin; discriminate Hin);
    apply Hsend; apply Hone; done.
Qed.


(** C7, as amended. When the upstream answers the request that
    the handler sent, the handler writes status 200 and, as the
    body, the bytes read from the upstream response; it sets no
    header. The status code and the header of the upstream
    response are not relayed. *)
Theorem upstream_body_relayed_with_status_200 req sent resp :
  Sent sent ∈ events (handler req) →
  Do sent = inl resp →
  result (handler req) = Ok {| status := 200; header := []; body := Body resp |}.
Proof.
  intros (before & forwarded & -> & _ & ->)%handler_sends HDo.
  by apply proxyRequest_response.
Qed.

(** C8, as amended. When the round trip of the request that the
    handler sent fails, because the upstream cannot be reached or
    because it times out, the handler writes status 500 and the
    text of the error as the body. *)
Theorem failed_round_trip_answered_500 req sent err :
  Sent sent ∈ events (handler req) →
  Do sent = inr err →
  result (handler req) = Ok {| status := 500; header := []; body := Error err |}.
Proof.
  intros (before & forwarded & -> & _ & ->)%handler_sends HDo.
  by apply proxyRequest_error.
Qed.

(** C10. A request whose Authorization header is present and
    shorter than 7 bytes makes the slice [[7:]] of the header value
    go out of range: the handler panics, before it has done
    anything else, and writes no response. *)
Theorem short_authorization_header_panics req :
  Authorization req ≠ EmptyString →
  String.length (Authorization req) < 7 →
  handler req = panic [] "slice bounds out of range".
Proof.
  intros Hauth Hlen. unfold Proxy.configureProxy.
  rewrite bool_decide_false by done. by rewrite sliceFrom_short.
Qed.

End WithEnvironment.
End ProxyFacts.

(** ** The handler in the stub environment *)
Module ProxyExamples.
Import GoStrings neturl Proxy.



(** The claim C7 as written fails: the upstream answers 404 with a
    Content-Type header; the client gets status 200 and no header
    of the upstream, with the upstream's body. *)
Lemma upstream_status_counterexample :
  Stub.handler Stub.notFound (Stub.request "Bearer good")
  = respond [ResolvedLabels "alice"; Sent Stub.sentForGood] 200 "not found"
  ∧ Stub.notFound Stub.sentForGood
    = inl {| StatusCode := 404; Header := [("Content-Type", "text/plain")];
             Body := "not found" |}
  ∧ statusOf (Stub.handler Stub.notFound (Stub.request "Bearer good")) ≠ Some 404%Z.
Proof.
  split; [vm_compute; reflexivity|]. split; [reflexivity|]. vm_compute; discriminate.
Qed.

Lemma upstream_body_relayed_with_status_200_witness :
  Sent Stub.sentForGood ∈ events (Stub.handler Stub.notFound (Stub.request "Bearer good"))
  ∧ result (Stub.handler Stub.notFound (Stub.request "Bearer good"))
    = Ok {| status := 200; header := []; body := "not found" |}.
Proof.
  assert (Sent Stub.sentForGood
          ∈ events (Stub.handler Stub.notFound (Stub.request "Bearer good"))) as Hsent.
  { vm_compute. apply list_elem_of_further, list_elem_of_here. }
  split; [exact Hsent|].
  apply (ProxyFacts.upstream_body_relayed_with_status_200
           Stub.ParseWithClaims Stub.Getenv Stub.GetLabelsFromRoleBindings
           Stub.ServiceAccountToken Stub.URLString Stub.Parse Stub.notFound
           Stub.DoTokenExchange Stub.bypass Stub.origin "namespace"
           (Stub.request "Bearer good") Stub.sentForGood
           {| StatusCode := 404; Header := [("Content-Type", "text/plain")];
              Body := "not found" |} Hsent).
  reflexivity.
Defined.

(** The claim C8 as written fails: for an upstream that cannot be
    reached and for one that times out the status is 500, not 502
    and 504. *)
Lemma round_trip_status_counterexample :
  (Stub.handler Stub.unreachable (Stub.request "Bearer good")
   = respond [ResolvedLabels "alice"; Sent Stub.sentForGood] 500 "connection refused"
   ∧ statusOf (Stub.handler Stub.unreachable (Stub.request "Bearer good")) ≠ Some 502%Z)
  ∧ (Stub.handler Stub.timesOut (Stub.request "Bearer good")
     = respond [ResolvedLabels "alice"; Sent Stub.sentForGood] 500 "context deadline exceeded"
     ∧ statusOf (Stub.handler Stub.timesOut (Stub.request "Bearer good")) ≠ Some 504%Z).
Proof.
  split; (split; [vm_compute; reflexivity|vm_compute; discriminate]).
Qed.

Lemma failed_round_trip_answered_500_witness :
  Sent Stub.sentForGood ∈ events (Stub.handler Stub.timesOut (Stub.request "Bearer good"))
  ∧ result (Stub.handler Stub.timesOut (Stub.request "Bearer good"))
    = Ok {| status := 500; header := []; body := "context deadline exceeded" |}.
Proof.
  assert (Sent Stub.sentForGood
          ∈ events (Stub.handler Stub.timesOut (Stub.request "Bearer good"))) as Hsent.
  { vm_compute. apply list_elem_of_further, list_elem_of_here. }
  split; [exact Hsent|].
  apply (ProxyFacts.failed_round_trip_answered_500
           Stub.ParseWithClaims Stub.Getenv Stub.GetLabelsFromRoleBindings
           Stub.ServiceAccountToken Stub.URLString Stub.Parse Stub.timesOut
           Stub.DoTokenExchange Stub.bypass Stub.origin "namespace"
           (Stub.request "Bearer good") Stub.sentForGood
           (TimedOut "context deadline exceeded") Hsent).
  reflexivity.
Defined.

(** C10 at the header value [Bearer], of six bytes. *)
Lemma short_authorization_header_panics_witness :
  "Bearer" ≠ EmptyString
  ∧ String.length "Bearer" < 7
  ∧ Stub.handler Stub.notFound (Stub.request "Bearer")
    = panic [] "slice bounds out of range".
Proof.
  split; [discriminate|]. split; [simpl; lia|].
  apply (ProxyFacts.short_authorization_header_panics
           Stub.ParseWithClaims Stub.Getenv Stub.GetLabelsFromRoleBindings
           Stub.ServiceAccountToken Stub.URLString Stub.Parse Stub.notFound
           Stub.DoTokenExchange Stub.bypass Stub.origin "namespace"
           (Stub.request "Bearer")).
  - discriminate.
  - simpl. lia.
Defined.

End ProxyExamples.

(** ** [routes.go]: which enforcer and which upstream a route gets *)
Module RoutesFacts.
Import GoStrings neturl Routes.

Section WithEnvironment.
Variable Parse : string → URL + string.
Variable enforce : Request → ConfigMapProvider → Enforced.
Variable loopvar : LoopVar.

Local Abbreviation NewRoutes := (Routes.NewRoutes Parse enforce loopvar).
Local Abbreviation lokiHandler := (Routes.lokiHandler enforce).
Local Abbreviation thanosHandler := (Routes.thanosHandler enforce).
Local Abbreviation register := (Routes.register enforce loopvar).

(** The route that a closure reads is a route of the table, and
    where the closures share the loop variable it is the last one,
    whose parameter name is [query]. *)
Lemma captured_in_routes route : route ∈ routes → captured loopvar route ∈ routes.
Proof.
  destruct loopvar; simpl; [|done]. intros _.
  unfold routes. repeat first [apply list_elem_of_here | apply list_elem_of_further].
Qed.

Lemma captured_MatchWord route :
  MatchWord (captured loopvar route)
  = match loopvar with PerLoop => "query" | PerIteration => MatchWord route end.
Proof. by destruct loopvar. Qed.

Lemma NewRoutes_Ok aCfg Cfg e i :
  NewRoutes aCfg Cfg = Ok (e, i) →
  ∃ lokiUrl thanosUrl,
    Parse (URL_ (Loki aCfg)) = inl lokiUrl
    ∧ Parse (URL_ (Thanos aCfg)) = inl thanosUrl
    ∧ e = register Cfg lokiUrl thanosUrl.
Proof.
  unfold Routes.NewRoutes.
  destruct (Parse (URL_ (Loki aCfg))) as [lokiUrl|]; [|done].
  destruct (Parse (URL_ (Thanos aCfg))) as [thanosUrl|]; [|done].
  intros [= <- <-]. by exists lokiUrl, thanosUrl.
Qed.

(** C3 on the code. Under [/loki] the handler rewrites with the
    LogQL enforcer and then calls the upstream with the URL and
    the mutual-TLS flag of Thanos; under [/] it rewrites with the
    PromQL enforcer and then calls the upstream with the URL and
    the flag of Loki. The two upstreams are exchanged. So it is
    whether the closures share the loop variable or not. *)
Theorem upstreams_exchanged aCfg Cfg e i :
  NewRoutes aCfg Cfg = Ok (e, i) →
  ∃ lokiUrl thanosUrl,
    Parse (URL_ (Loki aCfg)) = inl lokiUrl
    ∧ Parse (URL_ (Thanos aCfg)) = inl thanosUrl
    ∧ (∀ req, Path req = "/loki/api/v1/query" →
         ∃ h, Match e (Path req) = Some h
           ∧ h req
             = match enforce {| matchWord := "query"; r := req; ql := LogQLEnforcer |}
                       {| Users := ∅; Groups_ := ∅ |} with
               | Rewritten req' =>
                   callUpstream thanosUrl (UseMutualTLS (Thanos Cfg)) req'
               | Refused status body => Responded status body
               | Panicked reason => Aborted reason
               end)
    ∧ (∀ req, Path req = "/api/v1/query" →
         ∃ h, Match e (Path req) = Some h
           ∧ h req
             = match enforce {| matchWord := "query"; r := req; ql := PromQLRequest |}
                       {| Users := ∅; Groups_ := ∅ |} with
               | Rewritten req' =>
                   callUpstream lokiUrl (UseMutualTLS (Loki Cfg)) req'
               | Refused status body => Responded status body
               | Panicked reason => Aborted reason
               end).
Proof.
  intros (lokiUrl & thanosUrl & Hloki & Hthanos & ->)%NewRoutes_Ok.
  exists lokiUrl, thanosUrl. split; [done|]. split; [done|]. split.
  - intros req ->. eexists. split; [reflexivity|].
    unfold Routes.lokiHandler. rewrite captured_MatchWord. simpl.
    by destruct loopvar, (enforce _ _).
  - intros req ->. eexists. split; [reflexivity|].
    unfold Routes.thanosHandler. rewrite captured_MatchWord. simpl.
    by destruct loopvar, (enforce _ _).
Qed.

(** Every handler on the public router is one of the two closures,
    for the route that it reads of the loop variable. *)
Lemma registered_closures Cfg lokiUrl thanosUrl template h :
  (template, h) ∈ register Cfg lokiUrl thanosUrl →
  ∃ route, route ∈ routes
    ∧ (template = "/loki" +:+ Url route
       ∧ h = lokiHandler Cfg thanosUrl (captured loopvar route)
       ∨ template = Url route
         ∧ h = thanosHandler Cfg lokiUrl (captured loopvar route)).
Proof.
  unfold Routes.register. intros [Hin|Hin]%elem_of_app.
  - apply list_elem_of_fmap in Hin as (route & [= -> ->] & Hroute). eauto.
  - apply list_elem_of_fmap in Hin as (route & [= -> ->] & Hroute). eauto.
Qed.

Lemma registered_handlers Cfg lokiUrl thanosUrl template h :
  (template, h) ∈ register Cfg lokiUrl thanosUrl →
  ∃ route, route ∈ routes
    ∧ (h = lokiHandler Cfg thanosUrl route ∨ h = thanosHandler Cfg lokiUrl route).
Proof.
  intros (route & Hroute & [[_ ->]|[_ ->]])%registered_closures;
    exists (captured loopvar route); (split; [by apply captured_in_routes|auto]).
Qed.

End WithEnvironment.

(** *** With the pipeline of the specification *)
Section WithPipeline.
Variable Parse : string → URL + string.
Variable GetLabels : ConfigMapProvider → option KeycloakToken → Pipeline.Resolution.
Variable enforcer : EnforceQL → string → gmap string bool → outcome string.
Variable errorResponse : error → Z * string.
Variable loopvar : LoopVar.

Local Abbreviation enforce := (Pipeline.enforce GetLabels enforcer errorResponse).

Lemma enforce_no_tenants req provider :
  GetLabels provider (ctxToken (r req)) = Pipeline.Tenants ∅ →
  enforce req provider = Refused 403 "no tenants".
Proof. intros Hempty. unfold Pipeline.enforce. by rewrite Hempty. Qed.

(** C2. With [Request.enforce] as the specification describes it
    ([Pipeline.enforce]): when the provider resolves the caller to the
    empty tenant set, every handler that [NewRoutes] registers on the
    public router answers with status 403 and the body [no tenants],
    whatever the query; the enforcer is not run and [callUpstream] is
    not reached. *)
Theorem empty_tenant_set_refused aCfg Cfg e i template h req :
  Routes.NewRoutes Parse enforce loopvar aCfg Cfg = Ok (e, i) →
  (template, h) ∈ e →
  GetLabels {| Users := ∅; Groups_ := ∅ |} (ctxToken req) = Pipeline.Tenants ∅ →
  h req = Responded 403 "no tenants".
Proof.
  intros (lokiUrl & thanosUrl & _ & _ & ->)%NewRoutes_Ok Hin Hempty.
  apply registered_handlers in Hin as (route & _ & [-> | ->]).
  - unfold Routes.lokiHandler. by rewrite enforce_no_tenants.
  - unfold Routes.thanosHandler. by rewrite enforce_no_tenants.
Qed.

End WithPipeline.
End RoutesFacts.

(** ** The router in the stub environment *)
Module RoutesExamples.
Import GoStrings neturl Routes.

(** The route [/loki/api/v1/query] of the router built from the stub
    configuration calls the upstream with the URL and the flag of
    Thanos. *)
Lemma upstreams_exchanged_witness :
  ∃ e i,
    NewRoutes Stub.ParseURL Stub.passAll PerLoop Stub.Cfg Stub.Cfg = Ok (e, i)
    ∧ ∃ h, Match e "/loki/api/v1/query" = Some h
        ∧ h (Stub.get "/loki/api/v1/query" "up")
          = callUpstream
              {| Scheme := "https"; Host := "thanos:9090"; RequestPath := EmptyString |}
              false (Stub.get "/loki/api/v1/query" "up").
Proof.
  eexists _, _. split; [reflexivity|].
  destruct (RoutesFacts.upstreams_exchanged Stub.ParseURL Stub.passAll PerLoop
              Stub.Cfg Stub.Cfg _ _ eq_refl)
    as (lokiUrl & thanosUrl & Hloki & Hthanos & Hunder_loki & _).
  destruct (Hunder_loki (Stub.get "/loki/api/v1/query" "up") eq_refl)
    as (h & Hmatch & Hh).
  exists h. split; [exact Hmatch|].
  rewrite Hh. injection Hthanos as <-. reflexivity.
Defined.

(** With a provider that resolves every caller to the empty tenant
    set, the handler of [/loki/api/v1/query] answers 403. *)
Lemma empty_tenant_set_refused_witness :
  ∃ e i h,
    NewRoutes Stub.ParseURL
      (Pipeline.enforce Stub.noTenants Stub.enforcer Stub.errorResponse)
      PerLoop Stub.Cfg Stub.Cfg = Ok (e, i)
    ∧ ("/loki/api/v1/query", h) ∈ e
    ∧ h (Stub.get "/loki/api/v1/query" "up") = Responded 403 "no tenants".
Proof.
  eexists _, _, _. split; [reflexivity|].
  assert (("/loki/api/v1/query",
           lokiHandler (Pipeline.enforce Stub.noTenants Stub.enforcer Stub.errorResponse)
             Stub.Cfg
             {| Scheme := "https"; Host := "thanos:9090"; RequestPath := EmptyString |}
             (captured PerLoop {| Url := "/api/v1/query"; MatchWord := "query" |}))
          ∈ register (Pipeline.enforce Stub.noTenants Stub.enforcer Stub.errorResponse)
              PerLoop Stub.Cfg
              {| Scheme := "https"; Host := "loki:3100"; RequestPath := EmptyString |}
              {| Scheme := "https"; Host := "thanos:9090"; RequestPath := EmptyString |})
    as Hin by apply list_elem_of_here.
  split; [exact Hin|].
  apply (RoutesFacts.empty_tenant_set_refused Stub.ParseURL Stub.noTenants
           Stub.enforcer Stub.errorResponse PerLoop Stub.Cfg Stub.Cfg _ _ _ _ _ eq_refl Hin).
  reflexivity.
Defined.

End RoutesExamples.

(** ** [enforcer_promql.go]: further properties *)
Module EnforcerMore.
Import GoStrings GoStringsFacts labels parser injectproxy Observe Selectors.
Import ParserFacts TraversalFacts EnforcerPromql EnforcerFacts.

Lemma length_Split s sep : length (Split s sep) = S (CountByte s sep).
Proof.
  induction s as [|c s IH]; simpl; [done|].
  destruct (Ascii.eqb c sep); simpl; [by rewrite IH|].
  destruct (Split s sep) as [|f fs]; simpl in *; lia.
Qed.

Lemma CountByte_ContainsByte s c : 0 < CountByte s c ↔ ContainsByte s c = true.
Proof.
  induction s as [|d s IH]; simpl; [split; [lia|done]|].
  destruct (Ascii.eqb d c); simpl; [split; [done|lia]|]. apply IH.
Qed.

Section WithConfig.
Variable TenantLabel : string.
Variable MapKeysToArray : gmap string bool → list string.
Variable ParseExpr : string → outcome Expr.
Variable ExprString : Expr → string.
Variable release : Release.

Local Abbreviation checkLabels := (EnforcerPromql.checkLabels TenantLabel).
Local Abbreviation enforceLabels := (EnforcerPromql.enforceLabels TenantLabel MapKeysToArray).
Local Abbreviation enforcedMatcher := (EnforcerPromql.enforcedMatcher TenantLabel).
Local Abbreviation createEnforcer := (EnforcerPromql.createEnforcer TenantLabel release).
Local Abbreviation enforceExpr :=
  (EnforcerPromql.enforceExpr TenantLabel MapKeysToArray release).
Local Abbreviation promqlEnforcer :=
  (EnforcerPromql.promqlEnforcer TenantLabel MapKeysToArray ParseExpr ExprString release).
Local Abbreviation others := (Observe.others TenantLabel).
Local Abbreviation agrees := (Observe.agrees TenantLabel).
Local Abbreviation keptTargets := (Selectors.keptTargets release TenantLabel).

(** X1. Whatever [enforceLabels] returns without an error is made of
    keys of the tenant map, provided the enumeration of the map is:
    the effective tenant list never holds a tenant that the caller
    lacks. For a query with a tenant matcher the list is not empty. *)
Theorem effective_tenants_are_allowed l tl tenantLabels :
  Forall (λ k, is_Some (tl !! k)) (MapKeysToArray tl) →
  enforceLabels l tl = Ok tenantLabels →
  Forall (λ q, is_Some (tl !! q)) tenantLabels
  ∧ (is_Some (l !! TenantLabel) → tenantLabels ≠ []).
Proof.
  intros Hkeys Hok. destruct (l !! TenantLabel) as [v|] eqn:Hl.
  - destruct (enforceLabels_Ok_inbound _ _ l tl v tenantLabels Hl Hok) as [-> Hall].
    split; [done|]. intros _. apply Split_nonempty.
  - rewrite (enforceLabels_default _ _ l tl Hl) in Hok. injection Hok as <-.
    split; [done|]. by intros [? ?].
Qed.

Lemma checkEach_keys (tl tl' : gmap string bool) qls rest :
  (∀ k, is_Some (tl !! k) ↔ is_Some (tl' !! k)) →
  checkEach tl qls rest = checkEach tl' qls rest.
Proof.
  intros Hdom. induction rest as [|q rest IH]; simpl; [done|].
  destruct (tl !! q) as [b|] eqn:Hq.
  - destruct (proj1 (Hdom q)) as [b' ->]; [by eexists|]. done.
  - destruct (tl' !! q) as [b'|] eqn:Hq'; [|done].
    destruct (proj2 (Hdom q)) as [b Hb]; [by eexists|]. congruence.
Qed.

(** X2. The subset check looks at the keys of the tenant map only,
    not at the booleans stored under them: two maps with the same
    keys give the same result, so a tenant stored with the value
    false is accepted like one stored with true. *)
Theorem subset_check_reads_keys_only l (tl tl' : gmap string bool) :
  (∀ k, is_Some (tl !! k) ↔ is_Some (tl' !! k)) →
  checkLabels l tl = checkLabels l tl'
  ∧ (is_Some (l !! TenantLabel) → enforceLabels l tl = enforceLabels l tl').
Proof.
  intros Hdom.
  assert (checkLabels l tl = checkLabels l tl') as Hcheck
    by (unfold EnforcerPromql.checkLabels; by apply checkEach_keys).
  split; [done|]. intros [v Hv].
  unfold EnforcerPromql.enforceLabels. by rewrite Hv, Hcheck.
Qed.

(** X3. For an accepted inbound tenant matcher the type of the
    enforced matcher is read off the inbound value alone: regex-match
    when the value contains a ['|'], equal when it does not. The type
    of the inbound matcher plays no part. *)
Theorem enforced_type_follows_inbound_value l tl v tenantLabels :
  l !! TenantLabel = Some v →
  enforceLabels l tl = Ok tenantLabels →
  Type_ (enforcedMatcher tenantLabels)
  = if ContainsByte v pipe then MatchRegexp else MatchEqual.
Proof.
  intros Hl Hok.
  destruct (enforceLabels_Ok_inbound _ _ l tl v tenantLabels Hl Hok) as [-> _].
  unfold EnforcerPromql.enforcedMatcher. simpl. rewrite length_Split.
  destruct (ContainsByte v pipe) eqn:Hc.
  - apply CountByte_ContainsByte in Hc. rewrite decide_True; [done|lia].
  - rewrite decide_False; [done|]. intros Hlt.
    assert (0 < CountByte v pipe) as Hpos%CountByte_ContainsByte by lia. congruence.
Qed.

Lemma lastValue_Some name ms v :
  lastValue name ms = Some v → ∃ m, m ∈ ms ∧ Name m = name ∧ Value m = v.
Proof.
  unfold lastValue. destruct (last _) as [m|] eqn:Hlast; simpl; [|done].
  intros [= <-]. exists m.
  apply last_Some_elem_of in Hlast. apply list_elem_of_In, List.filter_In in Hlast.
  destruct Hlast as [Hin Hname]. apply bool_decide_eq_true in Hname.
  by rewrite list_elem_of_In.
Qed.

Lemma lastValue_is_Some name ms m :
  m ∈ ms → Name m = name → is_Some (lastValue name ms).
Proof.
  intros Hin Hname. unfold lastValue.
  assert (m ∈ List.filter (λ m, bool_decide (Name m = name)) ms) as Hf.
  { apply list_elem_of_In, List.filter_In. split; [by apply list_elem_of_In|].
    by apply bool_decide_eq_true. }
  destruct (List.filter _ ms) as [|x xs] using rev_ind.
  - by apply not_elem_of_nil in Hf.
  - rewrite last_snoc. by eexists.
Qed.

(** The map that [extractLabelsAndValues] returns has an entry for
    a label name exactly when some matcher that [Inspect] visits has
    that name, and every value in it is the value of such a matcher:
    nothing is invented and no visited name is dropped. *)
Lemma collected_map_holds_visited_names expr :
  ∃ l : gmap string string,
    extractLabelsAndValues expr = Ok l
    ∧ (∀ name v, l !! name = Some v →
         ∃ m, m ∈ visited expr ∧ Name m = name ∧ Value m = v)
    ∧ (∀ m, m ∈ visited expr → is_Some (l !! Name m)).
Proof.
  eexists. split; [reflexivity|]. split.
  - intros name v. rewrite extract_lookup. apply lastValue_Some.
  - intros m Hin. rewrite extract_lookup. by apply (lastValue_is_Some _ _ m).
Qed.

Ltac bind_ok H :=
  match type of H with
  | context [mbind _ ?m] =>
      let E := fresh "E" in
      destruct m eqn:E; simpl in H; [|discriminate H..]
  end.

(** *** The enforcer does not panic *)

(** [promqlEnforcer] does not panic unless the parser does: the
    enforcer reports conflicts as errors. *)
Lemma promqlEnforcer_does_not_panic query tl :
  noPanic (ParseExpr query) → noPanic (promqlEnforcer query tl).
Proof.
  intros Hparse. unfold EnforcerPromql.promqlEnforcer.
  apply noPanic_bind; [done|]. intros expr.
  apply noPanic_bind; [apply noPanic_Ok|]. intros l.
  apply noPanic_bind.
  { intros reason. apply enforceLabels_no_panic. }
  intros tenantLabels.
  apply noPanic_bind; [apply EnforceNode_no_panic|]. intros expr'. apply noPanic_Ok.
Qed.

Lemma checkEach_refusal tl qls rest fields :
  checkEach tl qls rest = (false, fields) →
  ∃ q, fields = [q] ∧ q ∈ rest ∧ tl !! q = None.
Proof.
  induction rest as [|q rest IH]; simpl; [done|].
  destruct (tl !! q) as [b|] eqn:Hq.
  - intros (q' & -> & Hin & Hq')%IH. exists q'. split; [done|]. split; [|done].
    by apply list_elem_of_further.
  - intros [= <-]. exists q. split; [done|]. split; [apply list_elem_of_here|done].
Qed.

(** X4. When [checkLabels] refuses, it returns exactly one field, a
    field of the inbound value that is not a key of the tenant map:
    the index [tenantLabels[0]] that [enforceLabels] reads for its
    error message is always in range, and [enforceLabels] never
    panics. *)
Theorem refusal_names_one_field l tl :
  (∀ fields, checkLabels l tl = (false, fields) →
     ∃ q, fields = [q]
       ∧ q ∈ Split (default EmptyString (l !! TenantLabel)) pipe
       ∧ tl !! q = None)
  ∧ noPanic (enforceLabels l tl).
Proof.
  split.
  - intros fields. unfold EnforcerPromql.checkLabels. apply checkEach_refusal.
  - intros reason. apply enforceLabels_no_panic.
Qed.

(** *** What the rewrite does to the selectors *)

Lemma others_app ms1 ms2 : others (ms1 ++ ms2) = others ms1 ++ others ms2.
Proof. apply List.filter_app. Qed.

Lemma others_idemp ms : others (others ms) = others ms.
Proof.
  unfold Observe.others. induction ms as [|m ms IH]; simpl; [done|].
  destruct (negb (bool_decide (Name m = TenantLabel))) eqn:Hm; simpl; [|done].
  by rewrite Hm, IH.
Qed.

Lemma others_enforcedMatcher tenantLabels ms :
  others (ms ++ [enforcedMatcher tenantLabels]) = others ms.
Proof.
  rewrite others_app. unfold Observe.others at 2. simpl.
  rewrite bool_decide_true by done. simpl. by rewrite app_nil_r.
Qed.

Lemma EnforceNodes_others le args :
  Forall (λ e, ∀ e', EnforceNode le e = Ok e' →
            others (selectorMatchers e') = others (selectorMatchers e)) args →
  ∀ args', EnforceNodes le args = Ok args' →
    others (concat (List.map selectorMatchers args'))
    = others (concat (List.map selectorMatchers args)).
Proof.
  induction 1 as [|a rest Ha _ IH]; intros args' H; simpl in H.
  - by injection H as <-.
  - bind_ok H. bind_ok H. injection H as <-. simpl.
    by rewrite !others_app, (Ha _ eq_refl), (IH _ eq_refl).
Qed.

Lemma EnforceNode_others tenantLabels e : ∀ e',
  EnforceNode (createEnforcer tenantLabels) e = Ok e' →
  others (selectorMatchers e') = others (selectorMatchers e).
Proof.
  assert (∀ ms ms', EnforceMatchers (createEnforcer tenantLabels) ms = Ok ms' →
                    others ms' = others ms) as Hms.
  { intros ms ms' [-> _]%EnforceMatchers_Ok.
    rewrite others_enforcedMatcher. unfold Selectors.keptTargets.
    destruct (drops release _); [apply others_idemp|done]. }
  revert Hms. generalize (createEnforcer tenantLabels). intros le Hms.
  induction e as [op e p IHe IHp|op l r IHl IHr|fn args IH|vs r IH|e r IH|v
                 |e IH|v|op e IH|n ms] using Expr_nested_ind; intros e' H.
  - simpl in H. bind_ok H. injection H as <-. simpl.
    by rewrite !others_app, (IHe _ eq_refl).
  - simpl in H. bind_ok H. bind_ok H. injection H as <-. simpl.
    by rewrite !others_app, (IHl _ eq_refl), (IHr _ eq_refl).
  - rewrite EnforceNode_Call in H. bind_ok H. injection H as <-. simpl.
    by apply (EnforceNodes_others le args IH).
  - destruct vs; simpl in H; try (by injection H as <-).
    bind_ok H. injection H as <-. simpl. by apply Hms.
  - simpl in H. bind_ok H. injection H as <-. simpl. by apply IH.
  - by injection H as <-.
  - simpl in H. bind_ok H. injection H as <-. simpl. by apply IH.
  - by injection H as <-.
  - simpl in H. bind_ok H. injection H as <-. simpl. by apply IH.
  - simpl in H. bind_ok H. injection H as <-. simpl. by apply Hms.
Qed.

(** X5. A successful rewrite keeps every matcher on a label other
    than the tenant label, in the order of the query: it adds none,
    drops none and reorders none. *)
Theorem rewrite_keeps_other_matchers expr tl expr' :
  enforceExpr expr tl = Ok expr' →
  others (visited expr') = others (visited expr).
Proof.
  unfold EnforcerPromql.enforceExpr. simpl. intros H.
  destruct (EnforcerPromql.enforceLabels _ _ _ tl) as [tenantLabels| |]; simpl in H;
    try done.
  rewrite !visited_selectorMatchers. by apply (EnforceNode_others tenantLabels).
Qed.



Lemma EnforceNodes_unchanged le args :
  Forall (λ e, enforcedSelectors e = [] → EnforceNode le e = Ok e) args →
  concat (List.map enforcedSelectors args) = [] →
  EnforceNodes le args = Ok args.
Proof.
  induction 1 as [|a rest Ha _ IH]; simpl; [done|].
  intros [Hnil Hnils]%app_eq_nil. by rewrite (Ha Hnil), (IH Hnils).
Qed.

Lemma EnforceNode_unchanged le e :
  enforcedSelectors e = [] → EnforceNode le e = Ok e.
Proof.
  induction e as [op e p IHe IHp|op l r IHl IHr|fn args IH|vs r IH|e r IH|v
                 |e IH|v|op e IH|n ms] using Expr_nested_ind; intros Hnil;
    simpl in Hnil; try rewrite EnforceNode_Call; simpl; try done.
  - by rewrite (IHe Hnil).
  - apply app_eq_nil in Hnil as [Hl Hr]. by rewrite (IHl Hl), (IHr Hr).
  - by rewrite (EnforceNodes_unchanged le args IH Hnil).
  - by destruct vs.
  - by rewrite (IH Hnil).
  - by rewrite (IH Hnil).
  - by rewrite (IH Hnil).
Qed.

(** X8. A query in which the enforcer reaches no selector, and which
    has no matcher on the tenant label anywhere, is returned as it
    is for every tenant map, the empty one too: nothing restricts
    it. *)
Theorem query_without_selectors_unchanged expr tl :
  enforcedSelectors expr = [] →
  lastValue TenantLabel (visited expr) = None →
  enforceExpr expr tl = Ok expr.
Proof.
  intros Hnil Hnone. unfold EnforcerPromql.enforceExpr. simpl.
  rewrite (enforceLabels_default TenantLabel MapKeysToArray); [|by rewrite extract_lookup].
  simpl. by apply EnforceNode_unchanged.
Qed.

End WithConfig.
End EnforcerMore.

(** ** [main.go]: further properties of the handler *)
Module ProxyMore.
Import GoStrings neturl Proxy ProxyPaths ProxyFacts.

Lemma append_cons c s t : String c s +:+ t = String c (s +:+ t).
Proof. reflexivity. Qed.

Lemma append_assoc (a b c : string) : (a +:+ b) +:+ c = a +:+ (b +:+ c).
Proof.
  induction a as [|x a IH]; [reflexivity|]. rewrite !append_cons. f_equal. exact IH.
Qed.

Lemma length_append_one p c :
  String.length (p +:+ String c EmptyString) = S (String.length p).
Proof.
  induction p as [|d p IH]; [reflexivity|]. rewrite append_cons. simpl. by rewrite IH.
Qed.

Lemma sliceTo_append p q : sliceTo (p +:+ q) (String.length p) = Some p.
Proof.
  induction p as [|c p IH]; [by destruct q|]. rewrite append_cons. simpl. by rewrite IH.
Qed.

Lemma sliceFrom_append p q : sliceFrom (p +:+ q) (String.length p) = Some q.
Proof.
  induction p as [|c p IH]; [by destruct q|]. rewrite append_cons. simpl. exact IH.
Qed.

Lemma IndexByte_absent s c : ContainsByte s c = false → IndexByte s c = (-1)%Z.
Proof.
  induction s as [|d s IH]; simpl; [done|].
  destruct (Ascii.eqb d c); simpl; [done|]. intros H. by rewrite (IH H).
Qed.

Lemma IndexByte_present s c :
  ContainsByte s c = true →
  ∃ p rest, s = p +:+ String c rest ∧ ContainsByte p c = false
            ∧ IndexByte s c = Z.of_nat (String.length p).
Proof.
  induction s as [|d s IH]; simpl; [done|].
  destruct (Ascii.eqb d c) eqn:Hd; simpl.
  - intros _. apply Ascii.eqb_eq in Hd as ->. by exists EmptyString, s.
  - intros (p & rest & -> & Hp & ->)%IH. exists (String d p), rest.
    split; [done|]. split; [simpl; by rewrite Hd|].
    destruct (Z.ltb_spec (Z.of_nat (String.length p)) 0); simpl; lia.
Qed.

(** The two slices [URL[:quIn]] and [URL[quIn:]] at
    [quIn = strings.Index(URL, c) + 1] are always in range. They cut
    the text right behind its first [c], or in front of the whole
    text when it has no [c]. *)
Lemma cut_behind_first s c :
  ∃ before after,
    sliceTo s (Z.to_nat (IndexByte s c + 1)) = Some before
    ∧ sliceFrom s (Z.to_nat (IndexByte s c + 1)) = Some after
    ∧ s = before +:+ after
    ∧ (ContainsByte s c = false ∧ before = EmptyString
       ∨ ∃ p, ContainsByte p c = false ∧ before = p +:+ String c EmptyString).
Proof.
  destruct (ContainsByte s c) eqn:Hc.
  - destruct (IndexByte_present s c Hc) as (p & rest & -> & Hp & ->).
    exists (p +:+ String c EmptyString), rest.
    replace (Z.to_nat (Z.of_nat (String.length p) + 1))
      with (String.length (p +:+ String c EmptyString)).
    2:{ rewrite length_append_one. lia. }
    replace (p +:+ String c rest) with ((p +:+ String c EmptyString) +:+ rest)
      by (by rewrite append_assoc).
    rewrite sliceTo_append, sliceFrom_append.
    split; [done|]. split; [done|]. split; [done|]. right. eauto.
  - rewrite (IndexByte_absent s c Hc). simpl. exists EmptyString, s.
    split; [by destruct s|]. split; [by destruct s|]. split; [reflexivity|]. by left.
Qed.

Section WithEnvironment.
Variable ParseWithClaims : string → option Token * KeycloakToken.
Variable Getenv : string → string.
Variable GetLabelsFromRoleBindings : string → list string.
Variable ServiceAccountToken : string.
Variable URLString : URL → string.
Variable Parse : string → option URL.
Variable Do : Request → Response + RoundTripError.
Variable DoTokenExchange : list (string * string) → option string.
Variables (originBypassServerURL originServerURL : URL) (tenantLabel : string).

Local Abbreviation proxyRequest := (Proxy.proxyRequest Do).
Local Abbreviation handler :=
  (Proxy.configureProxy ParseWithClaims Getenv GetLabelsFromRoleBindings
     ServiceAccountToken URLString Parse Do DoTokenExchange
     originBypassServerURL tenantLabel originServerURL).
Local Abbreviation authenticated := (ProxyPaths.authenticated ParseWithClaims).
Local Abbreviation exchanges := (ProxyPaths.exchanges Getenv).

(** The handler on a request that passes the checks, as the branch
    on the first group. *)
Lemma handler_authenticated req token keycloakToken group :
  authenticated req token keycloakToken group →
  handler req
  = if bool_decide (group = Getenv "ADMIN_GROUP")
       && bool_decide (ToLower (Getenv "TOKEN_EXCHANGE") = "true")
    then
      let params :=
        [ ("client_id", "grafana");
          ("client_secret", Getenv "CLIENT_SECRET");
          ("subject_token", Raw token);
          ("requested_issuer", "openshift");
          ("grant_type", "urn:ietf:params:oauth:grant-type:token-exchange");
          ("audience", "grafana") ] in
      match DoTokenExchange params with
      | None =>
          panic [ExchangedToken params]
            "invalid memory address or nil pointer dereference"
      | Some accessToken =>
          proxyRequest [ExchangedToken params]
            (retarget req (URL_ req) originBypassServerURL ("Bearer " +:+ accessToken))
      end
    else
      let username := PreferredUsername keycloakToken in
      let URL := URLString (URL_ req) in
      let quIn := Z.to_nat (IndexByte URL "?" + 1) in
      match sliceTo URL quIn, sliceFrom URL quIn with
      | Some before, Some after =>
          match Parse (before +:+ labelsEnforcer tenantLabel
                                    (GetLabelsFromRoleBindings username) +:+ after) with
          | None =>
              panic [ResolvedLabels username]
                "invalid memory address or nil pointer dereference"
          | Some u =>
              proxyRequest [ResolvedLabels username]
                (retarget req u originServerURL ("Bearer " +:+ ServiceAccountToken))
          end
      | _, _ => panic [ResolvedLabels username] "slice bounds out of range"
      end.
Proof.
  intros (Hauth & tokenString & Hslice & Hparse & Hvalid & Hgroup).
  unfold Proxy.configureProxy.
  rewrite bool_decide_false by done. rewrite Hslice, Hparse, Hvalid. simpl.
  by rewrite Hgroup.
Qed.

Lemma not_exchanges group :
  ¬ exchanges group →
  bool_decide (group = Getenv "ADMIN_GROUP")
  && bool_decide (ToLower (Getenv "TOKEN_EXCHANGE") = "true") = false.
Proof.
  intros Hnot. apply not_true_is_false. intros [H1 H2]%andb_true_iff.
  apply Hnot. split; by eapply bool_decide_eq_true_1.
Qed.

(** X9. For a caller outside the token exchange the two slices of
    the URL text never go out of range, and the label parameters
    [tenantLabel=label&], one for each label of the caller in the
    order of the provider, are put right behind the first question
    mark of the URL text; when the text has no question mark they
    are put in front of the whole text. The result is what
    [url.Parse] gets; the request is then sent to the origin server
    with the token of the service account. *)
Theorem labels_put_behind_first_question_mark req token keycloakToken group :
  authenticated req token keycloakToken group →
  ¬ exchanges group →
  ∃ before after,
    URLString (URL_ req) = before +:+ after
    ∧ (ContainsByte (URLString (URL_ req)) "?" = false ∧ before = EmptyString
       ∨ ∃ p, ContainsByte p "?" = false ∧ before = p +:+ "?")
    ∧ handler req
      = match Parse (before
                     +:+ labelsEnforcer tenantLabel
                           (GetLabelsFromRoleBindings (PreferredUsername keycloakToken))
                     +:+ after) with
        | None =>
            panic [ResolvedLabels (PreferredUsername keycloakToken)]
              "invalid memory address or nil pointer dereference"
        | Some u =>
            proxyRequest [ResolvedLabels (PreferredUsername keycloakToken)]
              (retarget req u originServerURL ("Bearer " +:+ ServiceAccountToken))
        end.
Proof.
  intros Hauth Hnot.
  destruct (cut_behind_first (URLString (URL_ req)) "?")
    as (before & after & Hto & Hfrom & Hcut & Hshape).
  exists before, after. split; [done|]. split; [done|].
  rewrite (handler_authenticated _ _ _ _ Hauth), (not_exchanges _ Hnot). simpl.
  by rewrite Hto, Hfrom.
Qed.

(** X10. A caller outside the token exchange for whom the provider
    finds no label is not refused: the URL text goes to [url.Parse]
    unchanged, and the request is sent to the origin server with the
    token of the service account and without any tenant
    restriction. *)
Theorem caller_without_labels_is_forwarded_unrestricted req token keycloakToken group :
  authenticated req token keycloakToken group →
  ¬ exchanges group →
  GetLabelsFromRoleBindings (PreferredUsername keycloakToken) = [] →
  handler req
  = match Parse (URLString (URL_ req)) with
    | None =>
        panic [ResolvedLabels (PreferredUsername keycloakToken)]
          "invalid memory address or nil pointer dereference"
    | Some u =>
        proxyRequest [ResolvedLabels (PreferredUsername keycloakToken)]
          (retarget req u originServerURL ("Bearer " +:+ ServiceAccountToken))
    end.
Proof.
  intros Hauth Hnot Hnone.
  destruct (cut_behind_first (URLString (URL_ req)) "?")
    as (before & after & Hto & Hfrom & Hcut & _).
  rewrite (handler_authenticated _ _ _ _ Hauth), (not_exchanges _ Hnot). simpl.
  rewrite Hto, Hfrom, Hnone. simpl.
  change (EmptyString +:+ after) with after. by rewrite <- Hcut.
Qed.

(** What the handler does at all, by cases. *)
Lemma handler_cases req :
  handler req = respond [] StatusForbidden "No Authorization header found"
  ∨ handler req = respond [] StatusForbidden "error while parsing token"
  ∨ (∃ reason, handler req = panic [] reason)
  ∨ ∃ token keycloakToken group,
      authenticated req token keycloakToken group
      ∧ ((exchanges group
          ∧ ∃ params,
              ("subject_token", Raw token) ∈ params
              ∧ match DoTokenExchange params with
                | None => ∃ reason, handler req = panic [ExchangedToken params] reason
                | Some accessToken =>
                    handler req
                    = proxyRequest [ExchangedToken params]
                        (retarget req (URL_ req) originBypassServerURL
                           ("Bearer " +:+ accessToken))
                end)
         ∨ (¬ exchanges group
            ∧ ((∃ reason,
                  handler req
                  = panic [ResolvedLabels (PreferredUsername keycloakToken)] reason)
               ∨ ∃ u,
                   handler req
                   = proxyRequest [ResolvedLabels (PreferredUsername keycloakToken)]
                       (retarget req u originServerURL
                          ("Bearer " +:+ ServiceAccountToken))))).
Proof.
  destruct (decide (Authorization req = EmptyString)) as [Hauth|Hauth].
  { left. unfold Proxy.configureProxy. by rewrite bool_decide_true. }
  destruct (sliceFrom (Authorization req) 7) as [tokenString|] eqn:Hslice.
  2:{ right; right; left. unfold Proxy.configureProxy.
      rewrite bool_decide_false by done. rewrite Hslice. eauto. }
  destruct (ParseWithClaims tokenString) as [[token|] keycloakToken] eqn:Hparse.
  2:{ right; right; left. unfold Proxy.configureProxy.
      rewrite bool_decide_false by done. rewrite Hslice, Hparse. eauto. }
  destruct (Valid token) eqn:Hvalid.
  2:{ right; left. unfold Proxy.configureProxy.
      rewrite bool_decide_false by done. by rewrite Hslice, Hparse, Hvalid. }
  destruct (Groups keycloakToken !! 0%nat) as [group|] eqn:Hgroup.
  2:{ right; right; left. unfold Proxy.configureProxy.
      rewrite bool_decide_false by done. rewrite Hslice, Hparse, Hvalid. simpl.
      rewrite Hgroup. eauto. }
  right; right; right. exists token, keycloakToken, group.
  assert (authenticated req token keycloakToken group) as Hok.
  { split; [done|]. by exists tokenString. }
  split; [done|]. rewrite (handler_authenticated _ _ _ _ Hok).
  destruct (decide (exchanges group)) as [Hex|Hnot].
  - left. split; [done|]. destruct Hex as [Hg Ht].
    rewrite !bool_decide_true by done. simpl.
    match goal with |- context [DoTokenExchange ?ps] => exists ps end.
    split; [do 2 apply list_elem_of_further; apply list_elem_of_here|].
    destruct (DoTokenExchange _); [reflexivity|eauto].
  - right. split; [done|]. rewrite (not_exchanges _ Hnot). simpl.
    repeat case_match; eauto.
Qed.

Lemma elem_of_proxyRequest e before forwarded :
  e ∈ events (proxyRequest before forwarded) ↔ e ∈ before ∨ e = Sent (cleared forwarded).
Proof.
  rewrite proxyRequest_events, elem_of_app, list_elem_of_singleton. tauto.
Qed.

(** X11. Whatever the handler sends upstream carries a bearer that
    the proxy has chosen: the request URI is cleared, and either
    the request goes to the host and the scheme of the origin server
    with the token of the service account as its bearer, after the
    labels of the caller were resolved, or it goes to the host and the
    scheme of the bypass server, with the path and the query of the
    inbound request and the token that the exchange returned as its
    bearer. *)
Theorem sent_request_carries_proxy_credentials req sent :
  Sent sent ∈ events (handler req) →
  RequestURI sent = EmptyString
  ∧ Host_ sent = Host (URL_ sent)
  ∧ ((Authorization sent = "Bearer " +:+ ServiceAccountToken
      ∧ Host_ sent = Host originServerURL
      ∧ Scheme (URL_ sent) = Scheme originServerURL
      ∧ ∃ username, ResolvedLabels username ∈ events (handler req))
     ∨ (∃ params accessToken,
          DoTokenExchange params = Some accessToken
          ∧ ExchangedToken params ∈ events (handler req)
          ∧ Authorization sent = "Bearer " +:+ accessToken
          ∧ Host_ sent = Host originBypassServerURL
          ∧ Scheme (URL_ sent) = Scheme originBypassServerURL
          ∧ RequestPath (URL_ sent) = RequestPath (URL_ req))).
Proof.
  destruct (handler_cases req)
    as [->|[->|[[reason ->]|(token & kt & group & _ & [[_ Hex]|[_ Hlab]])]]];
    try (by intros ?%not_elem_of_nil).
  - destruct Hex as (params & _ & Hex).
    destruct (DoTokenExchange params) as [accessToken|] eqn:Hdo.
    + rewrite Hex. intros [Hin|[= ->]]%elem_of_proxyRequest.
      { apply list_elem_of_singleton in Hin. discriminate Hin. }
      split; [done|]. split; [done|]. right. exists params, accessToken.
      split_and!; try done. apply elem_of_proxyRequest. left. apply list_elem_of_here.
    + destruct Hex as [reason ->]. simpl. intros Hin.
      apply list_elem_of_singleton in Hin. discriminate Hin.
  - destruct Hlab as [[reason ->]|[u ->]].
    + simpl. intros Hin. apply list_elem_of_singleton in Hin. discriminate Hin.
    + intros [Hin|[= ->]]%elem_of_proxyRequest.
      { apply list_elem_of_singleton in Hin. discriminate Hin. }
      split; [done|]. split; [done|]. left. split_and!; try done.
      eexists. apply elem_of_proxyRequest. left. apply list_elem_of_here.
Qed.

(** X12. The token exchange is reserved to the admin group: it is
    called only for a request whose bearer parses to a valid token,
    when the first group of the claims, and no other, is the value
    of [ADMIN_GROUP] and [TOKEN_EXCHANGE] is [true] in any letter
    case. The token of the caller is the subject token of the exchange,
    and the labels of the caller are not resolved. *)
Theorem token_exchange_only_for_first_group_admin req params :
  ExchangedToken params ∈ events (handler req) →
  (∃ token keycloakToken group,
     authenticated req token keycloakToken group
     ∧ exchanges group
     ∧ ("subject_token", Raw token) ∈ params)
  ∧ ∀ username, ResolvedLabels username ∉ events (handler req).
Proof.
  destruct (handler_cases req)
    as [->|[->|[[reason ->]|(token & kt & group & Hok & [[Hadmin Hex]|[_ Hlab]])]]];
    try (by intros ?%not_elem_of_nil).
  - destruct Hex as (params' & Hsubject & Hex).
    assert (events (handler req) = [ExchangedToken params']
            ∨ ∃ forwarded, events (handler req)
                           = [ExchangedToken params'] ++ [Sent forwarded]) as Hev.
    { destruct (DoTokenExchange params').
      - right. rewrite Hex, proxyRequest_events. eauto.
      - left. by destruct Hex as [reason ->]. }
    assert (∀ e, e ∈ events (handler req) → (∀ sent, e ≠ Sent sent) →
                 e = ExchangedToken params') as Hone.
    { intros e He Hnot. destruct Hev as [Hev|[forwarded Hev]]; rewrite Hev in He.
      - by apply list_elem_of_singleton in He.
      - apply elem_of_app in He as [He|He]; apply list_elem_of_singleton in He;
          [done|by apply Hnot in He]. }
    intros Hin. apply Hone in Hin as [= ->]; [|done].
    split; [by exists token, kt, group|].
    intros username Hin. by apply Hone in Hin.
  - intros Hin. exfalso. destruct Hlab as [[reason Hrun]|[u Hrun]]; rewrite Hrun in Hin.
    + simpl in Hin. apply list_elem_of_singleton in Hin. discriminate Hin.
    + apply elem_of_proxyRequest in Hin as [Hin|Hin]; [|discriminate Hin].
      apply list_elem_of_singleton in Hin. discriminate Hin.
Qed.

(** X13. Two requests that get past the check of the header crash the
    handler before it resolves labels, exchanges a token or sends
    anything: one whose bearer the parser returns no token for, at the
    read of [token.Valid], and one whose valid token has claims without
    a group, at the read of [Groups[0]]. No response is written. *)
Theorem nil_token_or_no_group_panics req tokenString token keycloakToken :
  Authorization req ≠ EmptyString →
  sliceFrom (Authorization req) 7 = Some tokenString →
  (ParseWithClaims tokenString = (None, keycloakToken) →
     handler req = panic [] "invalid memory address or nil pointer dereference")
  ∧ (ParseWithClaims tokenString = (Some token, keycloakToken) →
     Valid token = true →
     Groups keycloakToken = [] →
     handler req = panic [] "index out of range [0] with length 0").
Proof.
  intros Hauth Hslice. unfold Proxy.configureProxy.
  rewrite bool_decide_false by done. rewrite Hslice. split.
  - by intros ->.
  - intros -> Hvalid Hnone. rewrite Hvalid, Hnone. done.
Qed.

(** X14. When the handler writes a response, it sets no header, and
    the status is 403, with nothing else done, or it is 200 or 500
    and the last thing the handler did before was to send one request
    upstream, the only one of the run. *)
Theorem written_status_is_403_200_or_500 req written :
  result (handler req) = Ok written →
  header written = []
  ∧ ((status written = StatusForbidden ∧ events (handler req) = [])
     ∨ ((status written = StatusOK ∨ status written = StatusInternalServerError)
        ∧ ∃ before sent,
            events (handler req) = before ++ [Sent sent] ∧ noneSent before)).
Proof.
  assert (∀ before forwarded, (∃ e, before = [e] ∧ ∀ sent, e ≠ Sent sent) →
            result (proxyRequest before forwarded) = Ok written →
            header written = []
            ∧ ((status written = StatusForbidden
                ∧ events (proxyRequest before forwarded) = [])
               ∨ ((status written = StatusOK
                   ∨ status written = StatusInternalServerError)
                  ∧ ∃ before' sent,
                      events (proxyRequest before forwarded) = before' ++ [Sent sent]
                      ∧ noneSent before'))) as Hproxy.
  { intros before forwarded (e & -> & He) Hres.
    rewrite proxyRequest_events. split.
    - unfold Proxy.proxyRequest in Hres. destruct (Do _); by injection Hres as <-.
    - right. split.
      + unfold Proxy.proxyRequest in Hres. destruct (Do _); injection Hres as <-; eauto.
      + exists [e], (cleared forwarded). split; [done|].
        intros sent Hin. apply list_elem_of_singleton in Hin. by apply (He sent). }
  destruct (handler_cases req)
    as [->|[->|[[reason ->]|(token & kt & group & _ & [[_ Hex]|[_ Hlab]])]]].
  - intros [= <-]. split; [done|]. by left.
  - intros [= <-]. split; [done|]. by left.
  - done.
  - destruct Hex as (params & _ & Hex). destruct (DoTokenExchange params).
    + rewrite Hex. apply Hproxy. eauto.
    + by destruct Hex as [reason ->].
  - destruct Hlab as [[reason ->]|[u ->]]; [done|]. apply Hproxy. eauto.
Qed.

(** X15. The handler never panics once it has sent a request
    upstream: a run that ends in a panic has sent nothing. *)
Theorem panicking_run_sent_nothing req reason :
  result (handler req) = Panic reason →
  noneSent (events (handler req)).
Proof.
  assert (∀ before forwarded, result (proxyRequest before forwarded) ≠ Panic reason)
    as Hproxy.
  { intros before forwarded. unfold Proxy.proxyRequest. by destruct (Do _). }
  assert (∀ e, (∀ sent, e ≠ Sent sent) → noneSent [e]) as Hone.
  { intros e He sent Hin. apply list_elem_of_singleton in Hin. by apply (He sent). }
  destruct (handler_cases req)
    as [->|[->|[[reason' ->]|(token & kt & group & _ & [[_ Hex]|[_ Hlab]])]]];
    try done.
  - intros _ sent Hin. by apply not_elem_of_nil in Hin.
  - destruct Hex as (params & _ & Hex). destruct (DoTokenExchange params).
    + rewrite Hex. by intros ?%Hproxy.
    + destruct Hex as [reason' ->]. intros _. by apply Hone.
  - destruct Hlab as [[reason' ->]|[u ->]].
    + intros _. by apply Hone.
    + by intros ?%Hproxy.
Qed.

End WithEnvironment.
End ProxyMore.

(** ** [routes.go]: further properties of the router *)
Module RoutesMore.
Import GoStrings neturl Routes RoutesFacts.

Lemma Match_cons_no {H : Type} template (h : H) rest path :
  templateMatches template path = false →
  Match ((template, h) :: rest) path = Match rest path.
Proof. intros Hno. simpl. by rewrite Hno. Qed.

Lemma Match_cons_yes {H : Type} template (h : H) rest path :
  templateMatches template path = true →
  Match ((template, h) :: rest) path = Some h.
Proof. intros Hyes. simpl. by rewrite Hyes. Qed.

Lemma Match_Some {H : Type} (router : list (string * H)) path h :
  Match router path = Some h →
  ∃ template, (template, h) ∈ router ∧ templateMatches template path = true.
Proof.
  induction router as [|[template h'] rest IH]; simpl; [done|].
  destruct (templateMatches template path) eqn:Hmatch.
  - intros [= ->]. exists template. split; [apply list_elem_of_here|done].
  - intros (template' & Hin & Hyes)%IH. exists template'.
    split; [by apply list_elem_of_further|done].
Qed.

(** The segments of a path that matches the template of the label
    values: the variable segment is not empty. *)
Lemma label_values_segments prefix path :
  segmentsMatch (prefix ++ [ "api"; "v1"; "label"; "{label}"; "values" ]) (Split path "/")
  = true →
  Forall (λ t, isVariable t = false) prefix →
  ∃ x, Split path "/" = prefix ++ [ "api"; "v1"; "label"; x; "values" ]
       ∧ x ≠ EmptyString.
Proof.
  generalize (Split path "/") as segments. clear path.
  induction prefix as [|t prefix IH]; intros segments Hmatch Hprefix.
  - simpl in Hmatch.
    repeat (destruct segments as [|? segments]; [done|];
            apply andb_true_iff in Hmatch as [?%bool_decide_eq_true_1 Hmatch]
            || (apply andb_true_iff in Hmatch as [Hvar Hmatch]));
      subst.
    destruct segments as [|? segments]; [|done].
    eexists. split; [reflexivity|].
    unfold segmentMatches in Hvar. simpl in Hvar.
    apply negb_true_iff, bool_decide_eq_false_1 in Hvar. done.
  - inversion_clear Hprefix as [|? ? Ht Hrest].
    destruct segments as [|s segments]; [done|]. simpl in Hmatch.
    apply andb_true_iff in Hmatch as [Hseg Hmatch].
    unfold segmentMatches in Hseg. rewrite Ht in Hseg.
    apply bool_decide_eq_true_1 in Hseg as <-.
    destruct (IH _ Hmatch Hrest) as (x & -> & Hx). by exists x.
Qed.

Section WithEnvironment.
Variable Parse : string → URL + string.
Variable enforce : Request → ConfigMapProvider → Enforced.
Variable loopvar : LoopVar.

Local Abbreviation NewRoutes := (Routes.NewRoutes Parse enforce loopvar).
Local Abbreviation lokiHandler := (Routes.lokiHandler enforce).
Local Abbreviation thanosHandler := (Routes.thanosHandler enforce).

(** X16. Of the two routes with the template of the label values,
    [/api/v1/label/{name}/values] with the parameter name [query] and
    [/api/v1/label/{label}/values] with [match[]], only the first is
    ever chosen: every path that matches the second template, under
    [/loki] and under the empty prefix, gets the handler that rewrites
    the values of [query]. So it is whether the closures share the
    loop variable or not. *)
Theorem label_values_path_gets_query_handler aCfg Cfg e i path :
  NewRoutes aCfg Cfg = Ok (e, i) →
  templateMatches "/loki/api/v1/label/{label}/values" path = true
  ∨ templateMatches "/api/v1/label/{label}/values" path = true →
  ∃ h, Match e path = Some h
    ∧ ∀ req, ∃ ql upstream useMutualTLS,
        h req
        = match enforce {| matchWord := "query"; r := req; ql := ql |}
                  {| Users := ∅; Groups_ := ∅ |} with
          | Rewritten req' => callUpstream upstream useMutualTLS req'
          | Refused status body => Responded status body
          | Panicked reason => Aborted reason
          end.
Proof.
  intros (lokiUrl & thanosUrl & _ & _ & ->)%NewRoutes_Ok [Hloki|Hthanos].
  - destruct (label_values_segments [EmptyString; "loki"] path Hloki) as (x & Hsplit & Hx).
    { by repeat constructor. }
    assert (∀ t, templateMatches t path
                 = segmentsMatch (Split t "/")
                     [EmptyString; "loki"; "api"; "v1"; "label"; x; "values"]) as Htm.
    { intros t. unfold templateMatches. by rewrite Hsplit. }
    exists (lokiHandler Cfg thanosUrl
              (captured loopvar {| Url := "/api/v1/label/{name}/values";
                                   MatchWord := "query" |})).
    split.
    + unfold Routes.register, routes. cbn [fmap list_fmap app Url].
      do 2 (rewrite Match_cons_no by (rewrite Htm; vm_compute; reflexivity)).
      apply Match_cons_yes. rewrite Htm.
      change (Split ("/loki" +:+ "/api/v1/label/{name}/values") "/")
        with [EmptyString; "loki"; "api"; "v1"; "label"; "{name}"; "values"].
      simpl. unfold segmentMatches. simpl. by rewrite bool_decide_false.
    + intros req. exists LogQLEnforcer, thanosUrl, (UseMutualTLS (Thanos Cfg)).
      unfold Routes.lokiHandler. rewrite captured_MatchWord. simpl.
      by destruct loopvar, (enforce _ _).
  - destruct (label_values_segments [EmptyString] path Hthanos) as (x & Hsplit & Hx).
    { by repeat constructor. }
    assert (∀ t, templateMatches t path
                 = segmentsMatch (Split t "/")
                     [EmptyString; "api"; "v1"; "label"; x; "values"]) as Htm.
    { intros t. unfold templateMatches. by rewrite Hsplit. }
    exists (thanosHandler Cfg lokiUrl
              (captured loopvar {| Url := "/api/v1/label/{name}/values";
                                   MatchWord := "query" |})).
    split.
    + unfold Routes.register, routes. cbn [fmap list_fmap app Url].
      do 13 (rewrite Match_cons_no by (rewrite Htm; vm_compute; reflexivity)).
      apply Match_cons_yes. rewrite Htm.
      change (Split "/api/v1/label/{name}/values" "/")
        with [EmptyString; "api"; "v1"; "label"; "{name}"; "values"].
      simpl. unfold segmentMatches. simpl. by rewrite bool_decide_false.
    + intros req. exists PromQLRequest, lokiUrl, (UseMutualTLS (Loki Cfg)).
      unfold Routes.thanosHandler. rewrite captured_MatchWord. simpl.
      by destruct loopvar, (enforce _ _).
Qed.

(** X17. No route of the public router reaches an upstream around
    [enforce]: when the handler that the router finds for a path calls
    [callUpstream], the path matches the template of a route of the
    table, [enforce] has returned without an error, and the request
    that is forwarded is the one that [enforce] left. The parameter
    name that [enforce] was called for is the one that the closure
    reads of the loop variable: the name of that route where each
    iteration has a variable of its own, and [query], the name of the
    last route of the table, where the closures share one variable,
    also for the routes whose own name is [match[]]. *)
Theorem upstream_called_only_after_enforce aCfg Cfg e i path h req upstream tls req' :
  NewRoutes aCfg Cfg = Ok (e, i) →
  Match e path = Some h →
  h req = callUpstream upstream tls req' →
  ∃ route ql,
    route ∈ routes
    ∧ (templateMatches ("/loki" +:+ Url route) path = true ∧ ql = LogQLEnforcer
       ∨ templateMatches (Url route) path = true ∧ ql = PromQLRequest)
    ∧ enforce {| matchWord := match loopvar with
                              | PerLoop => "query"
                              | PerIteration => MatchWord route
                              end;
                 r := req; ql := ql |}
        {| Users := ∅; Groups_ := ∅ |}
      = Rewritten req'.
Proof.
  intros (lokiUrl & thanosUrl & _ & _ & ->)%NewRoutes_Ok
         (template & Hin & Hyes)%Match_Some Hcall.
  apply registered_closures in Hin as (route & Hroute & [[-> ->]|[-> ->]]).
  - exists route, LogQLEnforcer. split; [done|]. split; [by left|].
    unfold Routes.lokiHandler in Hcall. rewrite captured_MatchWord in Hcall.
    simpl in Hcall. destruct (enforce _ _); [|done..]. by injection Hcall as _ _ ->.
  - exists route, PromQLRequest. split; [done|]. split; [by right|].
    unfold Routes.thanosHandler in Hcall. rewrite captured_MatchWord in Hcall.
    simpl in Hcall. destruct (enforce _ _); [|done..]. by injection Hcall as _ _ ->.
Qed.

End WithEnvironment.
End RoutesMore.

(** ** The start-up and the reload of the configuration *)
Module SetupFacts.
Import GoStrings Setup.

Lemma merged_app name a b :
  merged name (a ++ b) = merged name a ++ merged (nameAfter name a) b.
Proof.
  revert name. induction a as [|c a IH]; intros name; simpl; [done|].
  destruct c; simpl; by rewrite IH.
Qed.

Lemma nameAfter_app name a b :
  nameAfter name (a ++ b) = nameAfter (nameAfter name a) b.
Proof.
  revert name. induction a as [|c a IH]; intros name; simpl; [done|].
  by destruct c.
Qed.

Lemma bind_Ok {A B : Type} (m : M A) (k : A → M B) st b st' :
  bind m k st = (Ok b, st') →
  ∃ a st1, m st = (Ok a, st1) ∧ k a st1 = (Ok b, st').
Proof.
  unfold bind. destruct (m st) as [[a|e|reason] st1]; [eauto|done..].
Qed.

Lemma bind_ret_tt {B : Type} (m : M unit) (k : unit → M B) st :
  bind (bind m (λ _, ret tt)) k st = bind m k st.
Proof. unfold bind. by destruct (m st) as [[[]|e|reason] st1]. Qed.

Lemma when_Ok b (m : M unit) st st' :
  when b m st = (Ok tt, st') →
  if b then m st = (Ok tt, st') else st' = st.
Proof. destruct b; simpl; [done|]. by intros [= <-]. Qed.

Lemma keeps_ret {A X : Type} (f : State → X) (a : A) : keeps f (ret a).
Proof. done. Qed.

Lemma keeps_raise {A X : Type} (f : State → X) reason : keeps f (@raise A reason).
Proof. done. Qed.

Lemma keeps_get {X : Type} (f : State → X) : keeps f get.
Proof. done. Qed.

Lemma keeps_modify {X : Type} (f : State → X) g :
  (∀ st, f (g st) = f st) → keeps f (modify g).
Proof. intros Hg st. apply Hg. Qed.

Lemma keeps_bind {A B X : Type} (f : State → X) (m : M A) (k : A → M B) :
  keeps f m → (∀ a, keeps f (k a)) → keeps f (bind m k).
Proof.
  intros Hm Hk st. unfold bind. specialize (Hm st).
  destruct (m st) as [[a|e|reason] st1]; simpl in *; [|done..].
  by rewrite Hk.
Qed.

Lemma keeps_when {X : Type} (f : State → X) b m : keeps f m → keeps f (when b m).
Proof. intros Hm. destruct b; [done|apply keeps_ret]. Qed.

Local Ltac keeps_tac :=
  repeat first
    [ apply keeps_ret | apply keeps_raise | apply keeps_get
    | apply keeps_modify; done
    | apply keeps_when
    | apply keeps_bind; [|intros ?]
    | case_match ].

Section WithEnvironment.
Variable mergeInConfig : Viper → option string.
Variable unmarshal : Viper → Config → Config + string.
Variable Args0 : string.
Variable ReadFile : string → string + string.
Variable keyfuncGet : string → option string.
Variable sqlOpen : mysql.Config → option string.
Variable SystemCertPool : option (list string).
Variable Walk : string → list WalkEntry.
Variable LoadX509KeyPair : string → string → string + string.

Local Abbreviation mergeOrPanic := (Setup.mergeOrPanic mergeInConfig).
Local Abbreviation unmarshalOrPanic := (Setup.unmarshalOrPanic unmarshal).
Local Abbreviation initTLSConfig :=
  (Setup.initTLSConfig ReadFile SystemCertPool Walk LoadX509KeyPair).
Local Abbreviation initJWKS := (Setup.initJWKS keyfuncGet).
Local Abbreviation initDB := (Setup.initDB ReadFile sqlOpen).
Local Abbreviation loadConfig := (Setup.loadConfig mergeInConfig unmarshal).
Local Abbreviation initConfig := (Setup.initConfig mergeInConfig unmarshal).
Local Abbreviation onConfigChange :=
  (Setup.onConfigChange mergeInConfig unmarshal ReadFile keyfuncGet
     SystemCertPool Walk LoadX509KeyPair).
Local Abbreviation init :=
  (Setup.init mergeInConfig unmarshal Args0 ReadFile keyfuncGet sqlOpen
     SystemCertPool Walk LoadX509KeyPair).

(** *** What each function leaves alone *)

Lemma initTLSConfig_keeps {X : Type} (f : State → X) :
  (∀ config st, f (setTLSClientConfig config st) = f st) → keeps f initTLSConfig.
Proof. intros Hf st. unfold Setup.initTLSConfig, bind, get, modify. simpl. apply Hf. Qed.

Lemma initJWKS_keeps {X : Type} (f : State → X) :
  (∀ jwksURL st, f (setJwks jwksURL st) = f st) → keeps f initJWKS.
Proof.
  intros Hf st. unfold Setup.initJWKS, bind, get, modify, raise. simpl.
  destruct (keyfuncGet _); [done|]. apply Hf.
Qed.

Lemma initDB_keeps {X : Type} (f : State → X) :
  (∀ cfg st, f (setDB cfg st) = f st) → keeps f initDB.
Proof.
  intros Hf st. unfold Setup.initDB, bind, get, modify, raise. simpl.
  destruct (ReadFile _); [|done]. destruct (sqlOpen _); [done|]. apply Hf.
Qed.

Lemma updateLogLevel_keeps {X : Type} (f : State → X) :
  (∀ level st, f (setAtomicLevel level st) = f st) → keeps f updateLogLevel.
Proof. intros Hf st. unfold updateLogLevel, bind, get, modify. simpl. apply Hf. Qed.

Lemma loadConfig_keeps {X : Type} (f : State → X) configName :
  (∀ v st, f (setV v st) = f st) → (∀ cfg st, f (setCfg cfg st) = f st) →
  keeps f (loadConfig configName).
Proof.
  intros HV HCfg. unfold Setup.loadConfig, Setup.mergeOrPanic, Setup.unmarshalOrPanic, call.
  keeps_tac; intros st; simpl; done.
Qed.

Lemma initConfig_keeps {X : Type} (f : State → X) :
  (∀ v st, f (setV v st) = f st) → (∀ cfg st, f (setCfg cfg st) = f st) →
  keeps f initConfig.
Proof.
  intros HV HCfg. unfold Setup.initConfig.
  apply keeps_bind; [by apply keeps_modify|intros _].
  apply keeps_bind; [by apply keeps_modify|intros _].
  apply keeps_bind; [by apply loadConfig_keeps|intros _].
  apply keeps_bind; [apply keeps_get|intros st].
  apply keeps_when. by apply loadConfig_keeps.
Qed.

(** *** The reload *)

(** The reload, step by step: [Cfg] is reset, the one name [config]
    is merged and unmarshalled, and the three functions at the end
    run on the result. *)
Lemma onConfigChange_unfold st :
  onConfigChange st
  = bind (bind (call (SetConfigName "config")) (λ _,
          bind mergeOrPanic (λ _, unmarshalOrPanic))) (λ _,
    bind updateLogLevel (λ _,
    bind initTLSConfig (λ _, initJWKS))) (setCfg zero st).
Proof.
  unfold Setup.onConfigChange.
  change (bind (modify (setCfg zero)) ?k st) with (k tt (setCfg zero st)). cbv beta.
  change (bind get ?k (setCfg zero st)) with (k (setCfg zero st) (setCfg zero st)).
  cbv beta.
  change (bool_decide (TenantProvider (Cfg (setCfg zero st)) = "configmap")) with false.
  cbv iota. unfold forEach. apply bind_ret_tt.
Qed.

Lemma reload_calls st :
  let st1 := ((bind (call (SetConfigName "config")) (λ _,
               bind mergeOrPanic (λ _, unmarshalOrPanic))) (setCfg zero st)).2 in
  V st1 = V st ++ [SetConfigName "config"; MergeInConfig]
  ∨ V st1 = V st ++ [SetConfigName "config"; MergeInConfig; Unmarshal].
Proof.
  unfold Setup.mergeOrPanic, Setup.unmarshalOrPanic, bind, call, modify, get, raise, ret.
  simpl. repeat case_match; simplify_eq; simpl; rewrite <- ?app_assoc; simpl; auto.
Qed.

(** X18. A reload never reads the file of the labels. [onConfigChange]
    resets [Cfg] to the empty configuration before it tests the
    tenant provider, so the test fails whatever the provider was and
    whatever the reloaded file says: however the reload ends, the one
    file that it has merged is [config]. *)
Theorem reload_merges_config_file_only st :
  mergedNames (V (onConfigChange st).2) = mergedNames (V st) ++ ["config"].
Proof.
  rewrite onConfigChange_unfold.
  pose proof (reload_calls st) as Hcalls. simpl in Hcalls.
  set (load := bind (call (SetConfigName "config")) _) in *.
  assert (keeps V (bind updateLogLevel (λ _, bind initTLSConfig (λ _, initJWKS))))
    as Hrest.
  { apply keeps_bind; [by apply updateLogLevel_keeps|intros _].
    apply keeps_bind; [by apply initTLSConfig_keeps|intros _].
    by apply initJWKS_keeps. }
  assert (V (bind load (λ _, bind updateLogLevel (λ _, bind initTLSConfig (λ _, initJWKS)))
               (setCfg zero st)).2
          = V (load (setCfg zero st)).2) as ->.
  { unfold bind at 1. destruct (load (setCfg zero st)) as [[[]|e|reason] st1]; simpl; [|done..].
    apply Hrest. }
  unfold mergedNames.
  destruct Hcalls as [-> | ->]; rewrite merged_app; simpl; done.
Qed.

(** *** The log level *)

Lemma getZapLevel_names level :
  (getZapLevel level = zapcore.DebugLevel ↔ level = "debug")
  ∧ (getZapLevel level = zapcore.WarnLevel ↔ level = "warn")
  ∧ (getZapLevel level = zapcore.ErrorLevel ↔ level = "error")
  ∧ (getZapLevel level = zapcore.FatalLevel ↔ level = "fatal").
Proof.
  unfold getZapLevel.
  repeat case_bool_decide; subst; split_and!; split; intros; simplify_eq; done.
Qed.

(** X19. A reload that completes has set the log level from the
    reloaded configuration: the level is the one that [Log.Level]
    names in any letter case, among debug, warn, error and fatal,
    and info for every other text, the empty one too. *)
Theorem reload_sets_log_level_by_name st st' :
  onConfigChange st = (Ok tt, st') →
  let level := ToLower (Log.Level (Log (Cfg st'))) in
  (atomicLevel st' = zapcore.DebugLevel ↔ level = "debug")
  ∧ (atomicLevel st' = zapcore.WarnLevel ↔ level = "warn")
  ∧ (atomicLevel st' = zapcore.ErrorLevel ↔ level = "error")
  ∧ (atomicLevel st' = zapcore.FatalLevel ↔ level = "fatal")
  ∧ (level ∉ ["debug"; "warn"; "error"; "fatal"] → atomicLevel st' = zapcore.InfoLevel).
Proof.
  rewrite onConfigChange_unfold.
  intros ([] & s1 & _ & Hrest)%bind_Ok.
  apply bind_Ok in Hrest as ([] & s2 & Hlevel & Hrest).
  assert (Cfg st' = Cfg s2 ∧ atomicLevel st' = atomicLevel s2) as [HCfg Hkept].
  { assert (keeps (λ st, (Cfg st, atomicLevel st)) (bind initTLSConfig (λ _, initJWKS)))
      as Hkeeps.
    { apply keeps_bind; [by apply initTLSConfig_keeps|intros _]. by apply initJWKS_keeps. }
    specialize (Hkeeps s2). rewrite Hrest in Hkeeps. by injection Hkeeps. }
  unfold updateLogLevel, bind, get, modify in Hlevel. injection Hlevel as <-.
  simpl in *. rewrite HCfg, Hkept. clear.
  destruct (getZapLevel_names (ToLower (Log.Level (Log (Cfg s1)))))
    as (Hdebug & Hwarn & Herror & Hfatal).
  split_and!; try done.
  intros Hnot. unfold getZapLevel.
  repeat case_bool_decide; try reflexivity;
    match goal with H : ToLower _ = _ |- _ => exfalso; apply Hnot; rewrite H end;
    repeat first [apply list_elem_of_here | apply list_elem_of_further].
Qed.

(** *** The start-up *)

(** What [init] leaves when it completes. *)
Lemma init_Ok st st' :
  init st = (Ok tt, st') →
  (if HasSuffix Args0 ".test"
   then Dev.Enabled (Dev (Cfg st')) = false
        ∧ ServiceAccountToken st' = Dev.ServiceAccountToken (Dev (Cfg st'))
   else if Dev.Enabled (Dev (Cfg st'))
        then ServiceAccountToken st' = Dev.ServiceAccountToken (Dev (Cfg st'))
        else ReadFile "/run/secrets/kubernetes.io/serviceaccount/token"
             = inl (ServiceAccountToken st'))
  ∧ (if bool_decide (TenantProvider (Cfg st') = "mysql")
     then GetLabelsFunc st' = Some GetLabelsDB
     else if bool_decide (TenantProvider (Cfg st') = "configmap")
          then GetLabelsFunc st' = Some GetLabelsCM
          else GetLabelsFunc st' = GetLabelsFunc st ∧ is_Some (GetLabelsFunc st)).
Proof.
  unfold Setup.init.
  intros ([] & s1 & Hlog & H)%bind_Ok.
  apply bind_Ok in H as ([] & s2 & Hconfig & H).
  apply bind_Ok in H as ([] & s3 & Hlevel & H).
  apply bind_Ok in H as ([] & s4 & Htls & H).
  apply bind_Ok in H as (? & ? & [= <- <-] & H).
  apply bind_Ok in H as ([] & s5 & [= <-] & H).
  apply bind_Ok in H as ([] & s6 & Htoken & H).
  apply bind_Ok in H as (? & ? & [= <- <-] & H).
  apply bind_Ok in H as ([] & s7 & Hdb & H).
  apply bind_Ok in H as (? & ? & [= <- <-] & H).
  apply bind_Ok in H as ([] & s8 & Hcm & H).
  apply bind_Ok in H as ([] & s9 & Hmysql & H).
  apply bind_Ok in H as (? & ? & [= <- <-] & H).
  assert (st' = s9 ∧ is_Some (GetLabelsFunc s9)) as [-> Hset].
  { destruct (GetLabelsFunc s9) eqn:Hf; [|done]. injection H as <-. eauto. }
  clear H.
  (* the variables that each step leaves alone *)
  assert (GetLabelsFunc s4 = GetLabelsFunc st) as Hf4.
  { pose proof (initTLSConfig_keeps GetLabelsFunc (λ _ _, eq_refl) s3) as H4.
    pose proof (updateLogLevel_keeps GetLabelsFunc (λ _ _, eq_refl) s2) as H3.
    pose proof (initConfig_keeps GetLabelsFunc (λ _ _, eq_refl) (λ _ _, eq_refl) s1) as H2.
    rewrite Htls in H4. rewrite Hlevel in H3. rewrite Hconfig in H2.
    unfold initLogging, modify in Hlog. injection Hlog as <-.
    simpl in *. congruence. }
  set (s5 := setServiceAccountToken (Dev.ServiceAccountToken (Dev (Cfg s4))) s4) in *.
  assert (Cfg s6 = Cfg s4 ∧ GetLabelsFunc s6 = GetLabelsFunc st
          ∧ if HasSuffix Args0 ".test"
            then Dev.Enabled (Dev (Cfg s4)) = false
                 ∧ ServiceAccountToken s6 = Dev.ServiceAccountToken (Dev (Cfg s4))
            else if Dev.Enabled (Dev (Cfg s4))
                 then ServiceAccountToken s6 = Dev.ServiceAccountToken (Dev (Cfg s4))
                 else ReadFile "/run/secrets/kubernetes.io/serviceaccount/token"
                      = inl (ServiceAccountToken s6)) as (HCfg6 & Hf6 & Hsa).
  { destruct (HasSuffix Args0 ".test"); simpl in Htoken.
    - apply bind_Ok in Htoken as (? & ? & [= <- <-] & Htoken).
      apply when_Ok in Htoken. change (Cfg s5) with (Cfg s4) in Htoken.
      destruct (Dev.Enabled (Dev (Cfg s4))); [done|]. subst s6. done.
    - apply bind_Ok in Htoken as ([] & sj & Hjwks & Htoken).
      apply bind_Ok in Htoken as (? & ? & [= <- <-] & Htoken).
      pose proof (initJWKS_keeps
                    (λ st, (Cfg st, GetLabelsFunc st, ServiceAccountToken st))
                    (λ _ _, eq_refl) s5) as Hj.
      rewrite Hjwks in Hj. simpl in Hj. injection Hj as HCfgj Hfj Hsaj.
      apply when_Ok in Htoken. rewrite HCfgj in Htoken.
      destruct (Dev.Enabled (Dev (Cfg s4))); simpl in Htoken.
      + subst s6. split; [done|]. split; [congruence|done].
      + destruct (ReadFile "/run/secrets/kubernetes.io/serviceaccount/token")
          as [sa|] eqn:Hread; [|done].
        unfold modify in Htoken. injection Htoken as <-. simpl.
        split; [done|]. split; [congruence|done]. }
  assert (Cfg s7 = Cfg s4 ∧ GetLabelsFunc s7 = GetLabelsFunc st
          ∧ ServiceAccountToken s7 = ServiceAccountToken s6) as (HCfg7 & Hf7 & Hsa7).
  { apply when_Ok in Hdb. destruct (Db.Enabled (Db (Cfg s6))); [|by subst s7].
    pose proof (initDB_keeps
                  (λ st, (Cfg st, GetLabelsFunc st, ServiceAccountToken st))
                  (λ _ _, eq_refl) s6) as Hk.
    rewrite Hdb in Hk. simpl in Hk. injection Hk as -> -> ->. done. }
  apply when_Ok in Hcm. apply when_Ok in Hmysql.
  rewrite <- HCfg7 in Hsa. rewrite <- Hsa7 in Hsa.
  assert (Cfg s9 = Cfg s7 ∧ ServiceAccountToken s9 = ServiceAccountToken s7) as [HCfg9 Hsa9].
  { destruct (bool_decide (TenantProvider (Cfg s7) = "configmap")).
    - unfold modify in Hcm. injection Hcm as <-.
      simpl in Hmysql. destruct (bool_decide (TenantProvider (Cfg s7) = "mysql")).
      + unfold modify in Hmysql. by injection Hmysql as <-.
      + by subst s9.
    - subst s8. destruct (bool_decide (TenantProvider (Cfg s7) = "mysql")).
      + unfold modify in Hmysql. by injection Hmysql as <-.
      + by subst s9. }
  rewrite HCfg9, Hsa9. split; [exact Hsa|].
  destruct (bool_decide (TenantProvider (Cfg s7) = "mysql")).
  - unfold modify in Hmysql. by injection Hmysql as <-.
  - subst s9. destruct (bool_decide (TenantProvider (Cfg s7) = "configmap")).
    + unfold modify in Hcm. by injection Hcm as <-.
    + subst s8. rewrite Hf7 in *. done.
Qed.

(** X20. [init] completes only with a supported tenant provider:
    when no function for the labels was set before, a start-up that
    completes has read [mysql] or [configmap] as the provider and has
    set [GetLabelsFunc] to the function of that provider; with any
    other provider it does not complete. *)
Theorem init_completes_with_supported_provider st st' :
  GetLabelsFunc st = None →
  init st = (Ok tt, st') →
  (TenantProvider (Cfg st') = "configmap" ∧ GetLabelsFunc st' = Some GetLabelsCM)
  ∨ (TenantProvider (Cfg st') = "mysql" ∧ GetLabelsFunc st' = Some GetLabelsDB).
Proof.
  intros Hnil [_ Hprovider]%init_Ok.
  repeat case_bool_decide; [by right|by left|].
  destruct Hprovider as [_ [f Hf]]. congruence.
Qed.

(** X21. The token of the service account after a start-up that
    completes: outside of a test binary it is the content of the
    token file of the service account unless the development mode
    is on, and then the token of the configuration; in a test binary
    the development mode is off, and the token is the token of the
    configuration all the same. *)
Theorem init_service_account_token st st' :
  init st = (Ok tt, st') →
  if HasSuffix Args0 ".test"
  then Dev.Enabled (Dev (Cfg st')) = false
       ∧ ServiceAccountToken st' = Dev.ServiceAccountToken (Dev (Cfg st'))
  else if Dev.Enabled (Dev (Cfg st'))
       then ServiceAccountToken st' = Dev.ServiceAccountToken (Dev (Cfg st'))
       else ReadFile "/run/secrets/kubernetes.io/serviceaccount/token"
            = inl (ServiceAccountToken st').
Proof. by intros [Htoken _]%init_Ok. Qed.

End WithEnvironment.

(** *** The walk over the trusted CA files *)

Lemma walkTrusted_ends ReadFile pre bad post rootCAs :
  endsWalk ReadFile bad →
  walkTrusted ReadFile (pre ++ bad :: post) rootCAs
  = walkTrusted ReadFile (pre ++ [bad]) rootCAs.
Proof.
  intros Hbad. revert rootCAs. induction pre as [|entry pre IH]; intros rootCAs; simpl.
  - destruct Hbad as [[e ->]|[-> [e ->]]]; done.
  - destruct (err entry); [done|].
    destruct (isDir entry || Contains (name entry) ".."); [apply IH|].
    destruct (ReadFile (path entry)); [apply IH|done].
Qed.

(** X22. An entry of the walk over the trusted CA files that carries
    an error, or a file of it that cannot be read, ends the walk:
    what comes behind it is not looked at and not trusted, whatever
    it is. The failure is not fatal: [initTLSConfig] returns, and the
    TLS configuration of the transport is set. *)
Theorem unreadable_ca_file_ends_walk ReadFile SystemCertPool Walk Walk'
    LoadX509KeyPair st pre bad post post' :
  Web.TrustedRootCaPath (Web (Cfg st)) ≠ EmptyString →
  Walk (Web.TrustedRootCaPath (Web (Cfg st))) = pre ++ bad :: post →
  Walk' (Web.TrustedRootCaPath (Web (Cfg st))) = pre ++ bad :: post' →
  endsWalk ReadFile bad →
  initTLSConfig ReadFile SystemCertPool Walk LoadX509KeyPair st
  = initTLSConfig ReadFile SystemCertPool Walk' LoadX509KeyPair st
  ∧ (initTLSConfig ReadFile SystemCertPool Walk LoadX509KeyPair st).1 = Ok tt
  ∧ is_Some (TLSClientConfig
               (initTLSConfig ReadFile SystemCertPool Walk LoadX509KeyPair st).2).
Proof.
  intros Hroot Hwalk Hwalk' Hbad.
  unfold initTLSConfig, bind, get, modify. simpl.
  rewrite Hwalk, Hwalk'.
  rewrite (walkTrusted_ends ReadFile pre bad post _ Hbad).
  rewrite (walkTrusted_ends ReadFile pre bad post' _ Hbad).
  split; [done|]. split; [done|]. eauto.
Qed.

End SetupFacts.

(** ** The further properties at concrete inputs *)
Module MoreExamples.
Import GoStrings labels parser injectproxy Observe Selectors neturl.

Local Ltac by_decide :=
  match goal with
  | |- ?P => apply (@bool_decide_unpack P _); vm_compute; exact I
  end.

(** *** The enforcer *)

(** The inbound value [a|b] with the tenants a, b and c. *)
Lemma effective_tenants_are_allowed_witness :
  let l : gmap string string := {["namespace" := "a|b"]} in
  let tl := Reference.tenants ["a"; "b"; "c"] in
  Forall (λ k, is_Some (tl !! k)) (Reference.MapKeysToArray tl)
  ∧ Reference.enforceLabels l tl = Ok ["a"; "b"]
  ∧ Forall (λ q, is_Some (tl !! q)) ["a"; "b"]
  ∧ (is_Some (l !! Reference.TenantLabel) → ["a"; "b"] ≠ []).
Proof.
  intros l tl.
  assert (Forall (λ k, is_Some (tl !! k)) (Reference.MapKeysToArray tl)) as Hkeys
    by by_decide.
  assert (Reference.enforceLabels l tl = Ok ["a"; "b"]) as Hok
    by (vm_compute; reflexivity).
  split; [exact Hkeys|]. split; [exact Hok|].
  exact (EnforcerMore.effective_tenants_are_allowed
           Reference.TenantLabel Reference.MapKeysToArray l tl ["a"; "b"] Hkeys Hok).
Defined.

(** The tenant a stored with true and stored with false. *)
Lemma subset_check_reads_keys_only_witness :
  let l : gmap string string := {["namespace" := "a"]} in
  let tl : gmap string bool := <["a" := true]> ∅ in
  let tl' : gmap string bool := <["a" := false]> ∅ in
  (∀ k, is_Some (tl !! k) ↔ is_Some (tl' !! k))
  ∧ EnforcerPromql.checkLabels Reference.TenantLabel l tl
    = EnforcerPromql.checkLabels Reference.TenantLabel l tl'
  ∧ (is_Some (l !! Reference.TenantLabel) →
     Reference.enforceLabels l tl = Reference.enforceLabels l tl').
Proof.
  intros l tl tl'.
  assert (∀ k, is_Some (tl !! k) ↔ is_Some (tl' !! k)) as Hdom.
  { intros k. unfold tl, tl'. by rewrite !lookup_insert_is_Some'. }
  split; [exact Hdom|].
  exact (EnforcerMore.subset_check_reads_keys_only
           Reference.TenantLabel Reference.MapKeysToArray l tl tl' Hdom).
Defined.

(** The inbound value [a|b]: the enforced matcher is a regex
    matcher. *)
Lemma enforced_type_follows_inbound_value_witness :
  let l : gmap string string := {["namespace" := "a|b"]} in
  let tl := Reference.tenants ["a"; "b"] in
  l !! Reference.TenantLabel = Some "a|b"
  ∧ Reference.enforceLabels l tl = Ok ["a"; "b"]
  ∧ Type_ (Reference.enforcedMatcher ["a"; "b"])
    = if ContainsByte "a|b" pipe then MatchRegexp else MatchEqual.
Proof.
  intros l tl.
  assert (l !! Reference.TenantLabel = Some "a|b") as Hl by (vm_compute; reflexivity).
  assert (Reference.enforceLabels l tl = Ok ["a"; "b"]) as Hok
    by (vm_compute; reflexivity).
  split; [exact Hl|]. split; [exact Hok|].
  exact (EnforcerMore.enforced_type_follows_inbound_value
           Reference.TenantLabel Reference.MapKeysToArray l tl "a|b" ["a"; "b"] Hl Hok).
Defined.

(** The inbound value [a|c] with the tenant a alone: the check
    returns the one field c. *)
Lemma refusal_names_one_field_witness :
  let l : gmap string string := {["namespace" := "a|c"]} in
  let tl := Reference.tenants ["a"] in
  EnforcerPromql.checkLabels Reference.TenantLabel l tl = (false, ["c"])
  ∧ ∃ q, ["c"] = [q]
       ∧ q ∈ Split (default EmptyString (l !! Reference.TenantLabel)) pipe
       ∧ tl !! q = None.
Proof.
  intros l tl.
  assert (EnforcerPromql.checkLabels Reference.TenantLabel l tl = (false, ["c"]))
    as Hcheck by (vm_compute; reflexivity).
  split; [exact Hcheck|].
  exact (proj1 (EnforcerMore.refusal_names_one_field
                  Reference.TenantLabel Reference.MapKeysToArray l tl) ["c"] Hcheck).
Defined.

(** The selector [up{job="x"}] with the tenant a. *)
Lemma rewrite_keeps_other_matchers_witness :
  let job := {| Name := "job"; Type_ := MatchEqual; Value := "x" |} in
  let name := {| Name := MetricName; Type_ := MatchEqual; Value := "up" |} in
  let enforced := {| Name := "namespace"; Type_ := MatchEqual; Value := "a" |} in
  let expr := VectorSelector "up" [job; name] in
  let expr' := VectorSelector "up" [job; name; enforced] in
  let tl := Reference.tenants ["a"] in
  Reference.enforceExpr expr tl = Ok expr'
  ∧ others Reference.TenantLabel (visited expr')
    = others Reference.TenantLabel (visited expr).
Proof.
  intros job name enforced expr expr' tl.
  assert (Reference.enforceExpr expr tl = Ok expr') as Hok by (vm_compute; reflexivity).
  split; [exact Hok|].
  exact (EnforcerMore.rewrite_keeps_other_matchers
           Reference.TenantLabel Reference.MapKeysToArray injectproxy.DropsTarget
           expr tl expr' Hok).
Defined.



(** A number, with no tenant at all. *)
Lemma query_without_selectors_unchanged_witness :
  let expr := BinaryExpr "+" (NumberLiteral "1") (NumberLiteral "2") in
  enforcedSelectors expr = []
  ∧ lastValue Reference.TenantLabel (visited expr) = None
  ∧ Reference.enforceExpr expr ∅ = Ok expr.
Proof.
  intros expr.
  assert (enforcedSelectors expr = []) as Hnil by reflexivity.
  assert (lastValue Reference.TenantLabel (visited expr) = None) as Hnone
    by (vm_compute; reflexivity).
  split; [exact Hnil|]. split; [exact Hnone|].
  exact (EnforcerMore.query_without_selectors_unchanged
           Reference.TenantLabel Reference.MapKeysToArray injectproxy.DropsTarget
           expr ∅ Hnil Hnone).
Defined.

End MoreExamples.

(** ** The handler with an admin group and a token exchange *)
Module ProxyMoreExamples.
Import GoStrings neturl Proxy ProxyPaths.

Local Abbreviation alice :=
  {| PreferredUsername := "alice"; Email := EmptyString; Groups := ["dev"] |}.
Local Abbreviation nobody :=
  {| PreferredUsername := "nobody"; Email := EmptyString; Groups := ["dev"] |}.
Local Abbreviation root :=
  {| PreferredUsername := "root"; Email := EmptyString; Groups := ["ops"; "dev"] |}.
Local Abbreviation valid raw := {| Raw := raw; Valid := true |}.

Lemma alice_authenticated path :
  authenticated AdminStub.ParseWithClaims (AdminStub.request "Bearer alice" path)
    (valid "alice") alice "dev".
Proof.
  split; [discriminate|]. exists "alice".
  split; [reflexivity|]. split; [reflexivity|]. split; reflexivity.
Defined.

Lemma nobody_authenticated path :
  authenticated AdminStub.ParseWithClaims (AdminStub.request "Bearer nobody" path)
    (valid "nobody") nobody "dev".
Proof.
  split; [discriminate|]. exists "nobody".
  split; [reflexivity|]. split; [reflexivity|]. split; reflexivity.
Defined.

Lemma dev_not_exchanged : ¬ exchanges AdminStub.Getenv "dev".
Proof. intros [Hgroup _]. vm_compute in Hgroup. discriminate Hgroup. Defined.

(** A URL with a query string, and one without: the labels of alice
    go behind the question mark, and in front of the path. *)
Lemma labels_put_behind_first_question_mark_witness :
  (∃ before after,
     "/api/v1/query?query=up" = before +:+ after
     ∧ (ContainsByte "/api/v1/query?query=up" "?" = false ∧ before = EmptyString
        ∨ ∃ p, ContainsByte p "?" = false ∧ before = p +:+ "?")
     ∧ AdminStub.handler (AdminStub.request "Bearer alice" "/api/v1/query?query=up")
       = match Stub.Parse (before +:+ "namespace=team-a&namespace=team-b&" +:+ after) with
         | None => panic [ResolvedLabels "alice"]
                     "invalid memory address or nil pointer dereference"
         | Some u =>
             proxyRequest AdminStub.answers [ResolvedLabels "alice"]
               (retarget (AdminStub.request "Bearer alice" "/api/v1/query?query=up")
                  u Stub.origin ("Bearer " +:+ Stub.ServiceAccountToken))
         end)
  ∧ events (AdminStub.handler (AdminStub.request "Bearer alice" "/api/v1/query?query=up"))
    = [ResolvedLabels "alice";
       Sent {| Authorization := "Bearer sa-token";
               URL_ := {| Scheme := "https"; Host := "thanos:9090";
                          RequestPath :=
                            "/api/v1/query?namespace=team-a&namespace=team-b&query=up" |};
               Host_ := "thanos:9090"; RequestURI := EmptyString |}]
  ∧ events (AdminStub.handler (AdminStub.request "Bearer alice" "/api/v1/labels"))
    = [ResolvedLabels "alice";
       Sent {| Authorization := "Bearer sa-token";
               URL_ := {| Scheme := "https"; Host := "thanos:9090";
                          RequestPath :=
                            "namespace=team-a&namespace=team-b&/api/v1/labels" |};
               Host_ := "thanos:9090"; RequestURI := EmptyString |}].
Proof.
  split; [|split; vm_compute; reflexivity].
  exact (ProxyMore.labels_put_behind_first_question_mark
           AdminStub.ParseWithClaims AdminStub.Getenv AdminStub.GetLabelsFromRoleBindings
           Stub.ServiceAccountToken Stub.URLString Stub.Parse AdminStub.answers
           AdminStub.DoTokenExchange Stub.bypass Stub.origin "namespace"
           (AdminStub.request "Bearer alice" "/api/v1/query?query=up")
           (valid "alice") alice "dev"
           (alice_authenticated "/api/v1/query?query=up") dev_not_exchanged).
Defined.

(** The user nobody has no label: the request goes upstream as it
    came, with the token of the service account. *)
Lemma caller_without_labels_is_forwarded_unrestricted_witness :
  AdminStub.GetLabelsFromRoleBindings "nobody" = []
  ∧ AdminStub.handler (AdminStub.request "Bearer nobody" "/api/v1/query?query=up")
    = match Stub.Parse "/api/v1/query?query=up" with
      | None => panic [ResolvedLabels "nobody"]
                  "invalid memory address or nil pointer dereference"
      | Some u =>
          proxyRequest AdminStub.answers [ResolvedLabels "nobody"]
            (retarget (AdminStub.request "Bearer nobody" "/api/v1/query?query=up")
               u Stub.origin ("Bearer " +:+ Stub.ServiceAccountToken))
      end
  ∧ events (AdminStub.handler (AdminStub.request "Bearer nobody" "/api/v1/query?query=up"))
    = [ResolvedLabels "nobody";
       Sent {| Authorization := "Bearer sa-token";
               URL_ := {| Scheme := "https"; Host := "thanos:9090";
                          RequestPath := "/api/v1/query?query=up" |};
               Host_ := "thanos:9090"; RequestURI := EmptyString |}].
Proof.
  split; [reflexivity|]. split; [|vm_compute; reflexivity].
  exact (ProxyMore.caller_without_labels_is_forwarded_unrestricted
           AdminStub.ParseWithClaims AdminStub.Getenv AdminStub.GetLabelsFromRoleBindings
           Stub.ServiceAccountToken Stub.URLString Stub.Parse AdminStub.answers
           AdminStub.DoTokenExchange Stub.bypass Stub.origin "namespace"
           (AdminStub.request "Bearer nobody" "/api/v1/query?query=up")
           (valid "nobody") nobody "dev"
           (nobody_authenticated "/api/v1/query?query=up") dev_not_exchanged eq_refl).
Defined.

(** The request that is sent for the admin root. *)
Lemma sent_request_carries_proxy_credentials_witness :
  let req := AdminStub.request "Bearer root" "/api/v1/query?query=up" in
  let sent :=
    {| Authorization := "Bearer exchanged";
       URL_ := {| Scheme := "https"; Host := "bypass:9090";
                  RequestPath := "/api/v1/query?query=up" |};
       Host_ := "bypass:9090"; RequestURI := EmptyString |} in
  Sent sent ∈ events (AdminStub.handler req)
  ∧ RequestURI sent = EmptyString
  ∧ Host_ sent = Host (URL_ sent)
  ∧ ((Authorization sent = "Bearer " +:+ Stub.ServiceAccountToken
      ∧ Host_ sent = Host Stub.origin
      ∧ Scheme (URL_ sent) = Scheme Stub.origin
      ∧ ∃ username, ResolvedLabels username ∈ events (AdminStub.handler req))
     ∨ (∃ params accessToken,
          AdminStub.DoTokenExchange params = Some accessToken
          ∧ ExchangedToken params ∈ events (AdminStub.handler req)
          ∧ Authorization sent = "Bearer " +:+ accessToken
          ∧ Host_ sent = Host Stub.bypass
          ∧ Scheme (URL_ sent) = Scheme Stub.bypass
          ∧ RequestPath (URL_ sent) = RequestPath (URL_ req))).
Proof.
  intros req sent.
  assert (Sent sent ∈ events (AdminStub.handler req)) as Hsent.
  { vm_compute. apply list_elem_of_further, list_elem_of_here. }
  split; [exact Hsent|].
  exact (ProxyMore.sent_request_carries_proxy_credentials
           AdminStub.ParseWithClaims AdminStub.Getenv AdminStub.GetLabelsFromRoleBindings
           Stub.ServiceAccountToken Stub.URLString Stub.Parse AdminStub.answers
           AdminStub.DoTokenExchange Stub.bypass Stub.origin "namespace" req sent Hsent).
Defined.

(** The exchange for the admin root, whose first group is ops. *)
Lemma token_exchange_only_for_first_group_admin_witness :
  let req := AdminStub.request "Bearer root" "/api/v1/query?query=up" in
  let params :=
    [ ("client_id", "grafana"); ("client_secret", "s3cret"); ("subject_token", "root");
      ("requested_issuer", "openshift");
      ("grant_type", "urn:ietf:params:oauth:grant-type:token-exchange");
      ("audience", "grafana") ] in
  ExchangedToken params ∈ events (AdminStub.handler req)
  ∧ (∃ token keycloakToken group,
       authenticated AdminStub.ParseWithClaims req token keycloakToken group
       ∧ exchanges AdminStub.Getenv group
       ∧ ("subject_token", Raw token) ∈ params)
  ∧ ∀ username, ResolvedLabels username ∉ events (AdminStub.handler req).
Proof.
  intros req params.
  assert (ExchangedToken params ∈ events (AdminStub.handler req)) as Hexchanged.
  { vm_compute. apply list_elem_of_here. }
  split; [exact Hexchanged|].
  exact (ProxyMore.token_exchange_only_for_first_group_admin
           AdminStub.ParseWithClaims AdminStub.Getenv AdminStub.GetLabelsFromRoleBindings
           Stub.ServiceAccountToken Stub.URLString Stub.Parse AdminStub.answers
           AdminStub.DoTokenExchange Stub.bypass Stub.origin "namespace"
           req params Hexchanged).
Defined.

(** The bearer [torn], for which the parser returns no token, and the
    bearer [lone], a valid token without groups. *)
Lemma nil_token_or_no_group_panics_witness :
  AdminStub.handler (AdminStub.request "Bearer torn" "/api/v1/query")
  = panic [] "invalid memory address or nil pointer dereference"
  ∧ AdminStub.handler (AdminStub.request "Bearer lone" "/api/v1/query")
    = panic [] "index out of range [0] with length 0".
Proof.
  split.
  - apply (proj1 (ProxyMore.nil_token_or_no_group_panics
             AdminStub.ParseWithClaims AdminStub.Getenv AdminStub.GetLabelsFromRoleBindings
             Stub.ServiceAccountToken Stub.URLString Stub.Parse AdminStub.answers
             AdminStub.DoTokenExchange Stub.bypass Stub.origin "namespace"
             (AdminStub.request "Bearer torn" "/api/v1/query") "torn" (valid "torn")
             {| PreferredUsername := EmptyString; Email := EmptyString; Groups := [] |}
             ltac:(discriminate) eq_refl)).
    reflexivity.
  - apply (proj2 (ProxyMore.nil_token_or_no_group_panics
             AdminStub.ParseWithClaims AdminStub.Getenv AdminStub.GetLabelsFromRoleBindings
             Stub.ServiceAccountToken Stub.URLString Stub.Parse AdminStub.answers
             AdminStub.DoTokenExchange Stub.bypass Stub.origin "namespace"
             (AdminStub.request "Bearer lone" "/api/v1/query") "lone" (valid "lone")
             {| PreferredUsername := "lone"; Email := EmptyString; Groups := [] |}
             ltac:(discriminate) eq_refl)).
    + reflexivity.
    + reflexivity.
    + reflexivity.
Defined.

(** The response for alice, after the one request upstream. *)
Lemma written_status_is_403_200_or_500_witness :
  let req := AdminStub.request "Bearer alice" "/api/v1/query?query=up" in
  let written := {| status := 200; header := []; body := "{}" |} in
  result (AdminStub.handler req) = Ok written
  ∧ header written = []
  ∧ ((status written = StatusForbidden ∧ events (AdminStub.handler req) = [])
     ∨ ((status written = StatusOK ∨ status written = StatusInternalServerError)
        ∧ ∃ before sent,
            events (AdminStub.handler req) = before ++ [Sent sent] ∧ noneSent before)).
Proof.
  intros req written.
  assert (result (AdminStub.handler req) = Ok written) as Hresult
    by (vm_compute; reflexivity).
  split; [exact Hresult|].
  exact (ProxyMore.written_status_is_403_200_or_500
           AdminStub.ParseWithClaims AdminStub.Getenv AdminStub.GetLabelsFromRoleBindings
           Stub.ServiceAccountToken Stub.URLString Stub.Parse AdminStub.answers
           AdminStub.DoTokenExchange Stub.bypass Stub.origin "namespace"
           req written Hresult).
Defined.

(** The panic for the bearer [lone]. *)
Lemma panicking_run_sent_nothing_witness :
  let req := AdminStub.request "Bearer lone" "/api/v1/query" in
  result (AdminStub.handler req) = Panic "index out of range [0] with length 0"
  ∧ noneSent (events (AdminStub.handler req)).
Proof.
  intros req.
  assert (result (AdminStub.handler req) = Panic "index out of range [0] with length 0")
    as Hresult by (vm_compute; reflexivity).
  split; [exact Hresult|].
  exact (ProxyMore.panicking_run_sent_nothing
           AdminStub.ParseWithClaims AdminStub.Getenv AdminStub.GetLabelsFromRoleBindings
           Stub.ServiceAccountToken Stub.URLString Stub.Parse AdminStub.answers
           AdminStub.DoTokenExchange Stub.bypass Stub.origin "namespace"
           req _ Hresult).
Defined.

End ProxyMoreExamples.

(** ** The router at the paths of the label values *)
Module RoutesMoreExamples.
Import GoStrings neturl Routes.

Lemma label_values_path_gets_query_handler_witness :
  let path := "/api/v1/label/job/values" in
  ∃ e i,
    NewRoutes Stub.ParseURL Stub.passAll PerIteration Stub.Cfg Stub.Cfg = Ok (e, i)
    ∧ templateMatches "/api/v1/label/{label}/values" path = true
    ∧ ∃ h, Match e path = Some h
        ∧ ∀ req, ∃ ql upstream useMutualTLS,
            h req
            = match Stub.passAll {| matchWord := "query"; r := req; ql := ql |}
                      {| Users := ∅; Groups_ := ∅ |} with
              | Rewritten req' => callUpstream upstream useMutualTLS req'
              | Refused status body => Responded status body
              | Panicked reason => Aborted reason
              end.
Proof.
  intros path. eexists _, _. split; [reflexivity|].
  assert (templateMatches "/api/v1/label/{label}/values" path = true) as Hmatch
    by (vm_compute; reflexivity).
  split; [exact Hmatch|].
  exact (RoutesMore.label_values_path_gets_query_handler Stub.ParseURL Stub.passAll
           PerIteration Stub.Cfg Stub.Cfg _ _ path eq_refl (or_intror Hmatch)).
Defined.

(** The path [/api/v1/series], whose route has the parameter name
    [match[]], with an [enforce] that lets only the name [query]
    pass: where the closures share the loop variable the request is
    forwarded, the closure having asked for [query]; where each
    iteration has its own variable it is refused, for [match[]]. *)
Lemma upstream_called_only_after_enforce_witness :
  let path := "/api/v1/series" in
  let req := Stub.get path "up" in
  let lokiUrl := {| Scheme := "https"; Host := "loki:3100"; RequestPath := EmptyString |} in
  let thanosUrl :=
    {| Scheme := "https"; Host := "thanos:9090"; RequestPath := EmptyString |} in
  let series := {| Url := "/api/v1/series"; MatchWord := "match[]" |} in
  let h loopvar := thanosHandler WordStub.enforce Stub.Cfg lokiUrl (captured loopvar series) in
  (Match (register WordStub.enforce PerIteration Stub.Cfg lokiUrl thanosUrl) path
   = Some (h PerIteration)
   ∧ h PerIteration req = Responded 400 "match[]")
  ∧ NewRoutes Stub.ParseURL WordStub.enforce PerLoop Stub.Cfg Stub.Cfg
    = Ok (register WordStub.enforce PerLoop Stub.Cfg lokiUrl thanosUrl,
          [ ("/health", HealthCheckHandler); ("/debug/pprof/", pprofIndex);
            ("/metrics", promhttpHandler) ])
  ∧ Match (register WordStub.enforce PerLoop Stub.Cfg lokiUrl thanosUrl) path
    = Some (h PerLoop)
  ∧ h PerLoop req = callUpstream lokiUrl true req
  ∧ ∃ route ql,
      route ∈ routes
      ∧ (templateMatches ("/loki" +:+ Url route) path = true ∧ ql = LogQLEnforcer
         ∨ templateMatches (Url route) path = true ∧ ql = PromQLRequest)
      ∧ WordStub.enforce {| matchWord := "query"; r := req; ql := ql |}
          {| Users := ∅; Groups_ := ∅ |}
        = Rewritten req.
Proof.
  intros path req lokiUrl thanosUrl series h.
  split; [split; vm_compute; reflexivity|].
  assert (NewRoutes Stub.ParseURL WordStub.enforce PerLoop Stub.Cfg Stub.Cfg
          = Ok (register WordStub.enforce PerLoop Stub.Cfg lokiUrl thanosUrl,
                [ ("/health", HealthCheckHandler); ("/debug/pprof/", pprofIndex);
                  ("/metrics", promhttpHandler) ])) as Hroutes by reflexivity.
  assert (Match (register WordStub.enforce PerLoop Stub.Cfg lokiUrl thanosUrl) path
          = Some (h PerLoop)) as Hmatch by (vm_compute; reflexivity).
  assert (h PerLoop req = callUpstream lokiUrl true req) as Hcall
    by (vm_compute; reflexivity).
  split; [exact Hroutes|]. split; [exact Hmatch|]. split; [exact Hcall|].
  exact (RoutesMore.upstream_called_only_after_enforce Stub.ParseURL WordStub.enforce
           PerLoop Stub.Cfg Stub.Cfg _ _ path (h PerLoop) req lokiUrl true req
           Hroutes Hmatch Hcall).
Defined.

End RoutesMoreExamples.

(** ** The start-up and the reload in the stub environment *)
Module SetupExamples.
Import GoStrings Setup.

(** The reloaded configuration names the level [WARN]. *)
Lemma reload_sets_log_level_by_name_witness :
  let st' := (SetupStub.onConfigChange SetupStub.start).2 in
  let level := ToLower (Log.Level (Log (Cfg st'))) in
  SetupStub.onConfigChange SetupStub.start = (Ok tt, st')
  ∧ level = "warn"
  ∧ atomicLevel st' = zapcore.WarnLevel
  ∧ (atomicLevel st' = zapcore.DebugLevel ↔ level = "debug")
  ∧ (atomicLevel st' = zapcore.WarnLevel ↔ level = "warn")
  ∧ (atomicLevel st' = zapcore.ErrorLevel ↔ level = "error")
  ∧ (atomicLevel st' = zapcore.FatalLevel ↔ level = "fatal")
  ∧ (level ∉ ["debug"; "warn"; "error"; "fatal"] → atomicLevel st' = zapcore.InfoLevel).
Proof.
  intros st' level.
  assert (SetupStub.onConfigChange SetupStub.start = (Ok tt, st')) as Hreload
    by (vm_compute; reflexivity).
  split; [exact Hreload|]. split; [vm_compute; reflexivity|].
  split; [vm_compute; reflexivity|].
  exact (SetupFacts.reload_sets_log_level_by_name
           SetupStub.mergeInConfig SetupStub.unmarshal SetupStub.ReadFile
           SetupStub.keyfuncGet SetupStub.SystemCertPool SetupStub.Walk
           SetupStub.LoadX509KeyPair SetupStub.start st' Hreload).
Defined.

(** The start-up with the provider [configmap]. *)
Lemma init_completes_with_supported_provider_witness :
  let st' := (SetupStub.init SetupStub.start).2 in
  GetLabelsFunc SetupStub.start = None
  ∧ SetupStub.init SetupStub.start = (Ok tt, st')
  ∧ ((TenantProvider (Cfg st') = "configmap" ∧ GetLabelsFunc st' = Some GetLabelsCM)
     ∨ (TenantProvider (Cfg st') = "mysql" ∧ GetLabelsFunc st' = Some GetLabelsDB)).
Proof.
  intros st'. unfold SetupStub.init in *.
  assert (Setup.init SetupStub.mergeInConfig SetupStub.unmarshal "/bin/proxy"
            SetupStub.ReadFile SetupStub.keyfuncGet SetupStub.sqlOpen
            SetupStub.SystemCertPool SetupStub.Walk SetupStub.LoadX509KeyPair
            SetupStub.start = (Ok tt, st')) as Hinit
    by (vm_compute; reflexivity).
  split; [reflexivity|]. split; [exact Hinit|].
  exact (SetupFacts.init_completes_with_supported_provider
           SetupStub.mergeInConfig SetupStub.unmarshal "/bin/proxy" SetupStub.ReadFile
           SetupStub.keyfuncGet SetupStub.sqlOpen SetupStub.SystemCertPool SetupStub.Walk
           SetupStub.LoadX509KeyPair SetupStub.start st' eq_refl Hinit).
Defined.

(** The start-up outside of a test binary, with the development mode
    off: the token is read from the token file. *)
Lemma init_service_account_token_witness :
  let st' := (SetupStub.init SetupStub.start).2 in
  SetupStub.init SetupStub.start = (Ok tt, st')
  ∧ ServiceAccountToken st' = "sa-token"
  ∧ if HasSuffix "/bin/proxy" ".test"
    then Dev.Enabled (Dev (Cfg st')) = false
         ∧ ServiceAccountToken st' = Dev.ServiceAccountToken (Dev (Cfg st'))
    else if Dev.Enabled (Dev (Cfg st'))
         then ServiceAccountToken st' = Dev.ServiceAccountToken (Dev (Cfg st'))
         else SetupStub.ReadFile "/run/secrets/kubernetes.io/serviceaccount/token"
              = inl (ServiceAccountToken st').
Proof.
  intros st'. unfold SetupStub.init in *.
  assert (Setup.init SetupStub.mergeInConfig SetupStub.unmarshal "/bin/proxy"
            SetupStub.ReadFile SetupStub.keyfuncGet SetupStub.sqlOpen
            SetupStub.SystemCertPool SetupStub.Walk SetupStub.LoadX509KeyPair
            SetupStub.start = (Ok tt, st')) as Hinit
    by (vm_compute; reflexivity).
  split; [exact Hinit|]. split; [vm_compute; reflexivity|].
  exact (SetupFacts.init_service_account_token
           SetupStub.mergeInConfig SetupStub.unmarshal "/bin/proxy" SetupStub.ReadFile
           SetupStub.keyfuncGet SetupStub.sqlOpen SetupStub.SystemCertPool SetupStub.Walk
           SetupStub.LoadX509KeyPair SetupStub.start st' Hinit).
Defined.

(** The file [b.pem] cannot be read: [c.pem] behind it makes no
    difference, and the one CA that is trusted is that of [a.pem]. *)
Lemma unreadable_ca_file_ends_walk_witness :
  let st := setCfg SetupStub.configured SetupStub.start in
  let pre := [ {| path := "/etc/ca"; name := "ca"; isDir := true; err := None |};
               SetupStub.entry "/etc/ca/a.pem" "a.pem" ] in
  let bad := SetupStub.entry "/etc/ca/b.pem" "b.pem" in
  let run Walk :=
    initTLSConfig SetupStub.ReadFile SetupStub.SystemCertPool Walk
      SetupStub.LoadX509KeyPair st in
  endsWalk SetupStub.ReadFile bad
  ∧ (run SetupStub.Walk = run SetupStub.WalkOther
     ∧ (run SetupStub.Walk).1 = Ok tt
     ∧ is_Some (TLSClientConfig (run SetupStub.Walk).2))
  ∧ TLSClientConfig (run SetupStub.Walk).2
    = Some {| tls.InsecureSkipVerify := false;
              tls.RootCAs := ["A" +:+ newline];
              tls.Certificates := ["loki certificate"] |}.
Proof.
  intros st pre bad run.
  assert (endsWalk SetupStub.ReadFile bad) as Hbad.
  { right. split; [reflexivity|]. eexists. reflexivity. }
  split; [exact Hbad|]. split; [|vm_compute; reflexivity].
  exact (SetupFacts.unreadable_ca_file_ends_walk
           SetupStub.ReadFile SetupStub.SystemCertPool SetupStub.Walk SetupStub.WalkOther
           SetupStub.LoadX509KeyPair st pre bad
           [SetupStub.entry "/etc/ca/c.pem" "c.pem"] []
           ltac:(discriminate) eq_refl eq_refl Hbad).
Defined.

End SetupExamples.
